(** * jade-source-gen: the Jade code generator of [index.js], embedded in Rocq

    The generator turns a Jade syntax tree back into Jade source.  The file
    follows [index.js]: the string primitives the methods rely on, the
    tree, the [Compiler] object and its methods, [cleanUpAST] and
    [getBlock]; the visitor once more, over the tree that the compiler
    holds; then the vocabulary of the properties, and the properties.

    JavaScript values are modelled as follows.
    - A node is an object: a record with one field for every property a
      method reads.  A property that may be absent is an [option]; [None]
      is [undefined].  Boolean flags are only ever tested for truthiness,
      so they are [bool], with [false] for an absent flag.
    - The input is a tree: no node occurs twice in it.  An assignment to a
      property of a node is the construction of a node, and the identity
      of two objects is the equality of two trees.
    - Strings are [string]; a character is one code unit below 256.
    - Source lines are integers, [Z]; the only division of the program, in
      [useDot], is compared with 0.35 and is modelled exactly.
    - An exception is a value of [exn].  A method of the compiler is a
      function from the compiler to a [Res], which carries the compiler as
      it is when the method returns or throws.  A read of a property of
      [undefined], and a call of something that is no function, throw the
      [TypeError] of the engine, [NativeTypeError].
    - The packages the generator requires are not part of it:
      [constantinople.toConstant] is a parameter, [repeat-string] and
      [jade-walk] are modelled by what they are for, [object-assign] by a
      record of options with all its fields. *)

From Stdlib Require Import List String Ascii ZArith Bool Lia Arith.
From Stdlib Require Import DecimalString Permutation.
Import ListNotations.
Open Scope string_scope.
Open Scope Z_scope.

Set Implicit Arguments.

(** ** Characters and strings *)

Definition DQ : ascii := "034"%char.   (* the double quote *)
Definition SQ : ascii := "'"%char.     (* the single quote *)
Definition BS : ascii := "\"%char.     (* the backslash *)
Definition NL : ascii := "010"%char.   (* the line feed *)

Definition str1 (c : ascii) : string := String c EmptyString.

Definition inRange (lo hi : nat) (c : ascii) : bool :=
  let n := nat_of_ascii c in (Nat.leb lo n && Nat.leb n hi)%bool.

Definition isLower (c : ascii) : bool := inRange 97 122 c.
Definition isUpper (c : ascii) : bool := inRange 65 90 c.
Definition isDigit (c : ascii) : bool := inRange 48 57 c.

(** [\w] *)
Definition isWord (c : ascii) : bool :=
  (isLower c || isUpper c || isDigit c || Ascii.eqb c "_")%bool.

(** [\s], on the code units below 256: tab, line feed, vertical tab, form
    feed, carriage return, space and the no-break space. *)
Definition isSpace (c : ascii) : bool :=
  let n := nat_of_ascii c in
  (inRange 9 13 c || Nat.eqb n 32 || Nat.eqb n 160)%bool.

(** [[[{]] *)
Definition isOpening (c : ascii) : bool :=
  (Ascii.eqb c "[" || Ascii.eqb c "{")%bool.

(** [s.indexOf(c) !== -1] for a one-character needle. *)
Fixpoint hasChar (c : ascii) (s : string) : bool :=
  match s with
  | EmptyString => false
  | String a t => (Ascii.eqb a c || hasChar c t)%bool
  end.

(** [s.replace(/c/g, by)] for a one-character pattern [c]. *)
Fixpoint replaceChar (c : ascii) (by_ : string) (s : string) : string :=
  match s with
  | EmptyString => EmptyString
  | String a t =>
      if Ascii.eqb a c then by_ ++ replaceChar c by_ t
      else String a (replaceChar c by_ t)
  end.

(** [s.replace(/\\?#([[{])/g, '\\#$1')]: an interpolation opener, with or
    without a backslash before it, comes out with exactly one. *)
Fixpoint escapeOpeners (s : string) : string :=
  match s with
  | EmptyString => EmptyString
  | String a t =>
      match t with
      | EmptyString => String a EmptyString
      | String b u =>
          match u with
          | EmptyString =>
              if (Ascii.eqb a "#" && isOpening b)%bool
              then String BS (String "#" (String b EmptyString))
              else String a (escapeOpeners t)
          | String c r =>
              if (Ascii.eqb a BS && Ascii.eqb b "#" && isOpening c)%bool
              then String BS (String "#" (String c (escapeOpeners r)))
              else if (Ascii.eqb a "#" && isOpening b)%bool
              then String BS (String "#" (String b (escapeOpeners u)))
              else String a (escapeOpeners t)
          end
      end
  end.

(** [s.replace(/#([[{])/g, '\\#$1')]: every opener gets one more backslash. *)
Fixpoint escapeBareOpeners (s : string) : string :=
  match s with
  | EmptyString => EmptyString
  | String a t =>
      match t with
      | EmptyString => String a EmptyString
      | String b u =>
          if (Ascii.eqb a "#" && isOpening b)%bool
          then String BS (String "#" (String b (escapeBareOpeners u)))
          else String a (escapeBareOpeners t)
      end
  end.

(** [(s.match(/\w+(\s+|$)/g) || []).length]: the number of runs of word
    characters that begin where the scan stands and are followed by white
    space or by the end of the string.  [inWord] tells that the scan is
    inside a run that began at a position where a match is being tried. *)
Fixpoint countWordsFrom (inWord : bool) (s : string) : Z :=
  match s with
  | EmptyString => if inWord then 1 else 0
  | String a t =>
      if isWord a then countWordsFrom true t
      else if isSpace a then (if inWord then 1 else 0) + countWordsFrom false t
      else countWordsFrom false t
  end.

Definition countWords (s : string) : Z := countWordsFrom false s.

Fixpoint allChars (p : ascii -> bool) (s : string) : bool :=
  match s with
  | EmptyString => true
  | String a t => (p a && allChars p t)%bool
  end.

(** [/^\-?[_a-z][_a-z0-9\-]*$/i.test(s)] *)
Definition isClassStart (c : ascii) : bool :=
  (isLower c || isUpper c || Ascii.eqb c "_")%bool.
Definition isClassRest (c : ascii) : bool :=
  (isWord c || Ascii.eqb c "-")%bool.
Definition isClassName (s : string) : bool :=
  match s with
  | EmptyString => false
  | String a t =>
      if Ascii.eqb a "-" then
        match t with
        | EmptyString => false
        | String b u => (isClassStart b && allChars isClassRest u)%bool
        end
      else (isClassStart a && allChars isClassRest t)%bool
  end.

(** [/^[\w-]+$/.test(s)] *)
Definition isIdName (s : string) : bool :=
  match s with
  | EmptyString => false
  | String _ _ => allChars isClassRest s
  end.

(** The test of a bare attribute name: a word character, then no
    parenthesis, square bracket, equals sign, exclamation mark, comma,
    backquote, quote of either kind or white space, up to the end. *)
Definition isAttrNameRest (c : ascii) : bool :=
  negb (Ascii.eqb c "(" || Ascii.eqb c ")" || Ascii.eqb c "[" || Ascii.eqb c "]"
        || Ascii.eqb c "=" || Ascii.eqb c "!" || Ascii.eqb c ","
        || Ascii.eqb c "`" || Ascii.eqb c SQ || Ascii.eqb c DQ || isSpace c)%bool.
Definition isBareAttrName (s : string) : bool :=
  match s with
  | EmptyString => false
  | String a t => (isWord a && allChars isAttrNameRest t)%bool
  end.

(** [a.join(sep)] *)
Fixpoint join (sep : string) (l : list string) : string :=
  match l with
  | [] => EmptyString
  | [x] => x
  | x :: r => x ++ sep ++ join sep r
  end.

(** [repeat-string]: [repeat(s, n)] is [s] taken [n] times, and the empty
    string when [n] is zero or negative (the compiler starts at depth -1). *)
Fixpoint repeatNat (s : string) (n : nat) : string :=
  match n with
  | O => EmptyString
  | S k => s ++ repeatNat s k
  end.
Definition repeat (s : string) (n : Z) : string := repeatNat s (Z.to_nat n).

(** [s.indexOf(needle) !== -1] for any needle. *)
Fixpoint includes (needle s : string) : bool :=
  (String.prefix needle s ||
   match s with
   | EmptyString => false
   | String _ t => includes needle t
   end)%bool.

(** ['' + x] for an integer, and for a property that may be absent. *)
Definition strOfZ (z : Z) : string := NilZero.string_of_int (Z.to_int z).
Definition str (o : option string) : string :=
  match o with Some s => s | None => "undefined" end.
Definition strOfLine (o : option Z) : string :=
  match o with Some z => strOfZ z | None => "undefined" end.

(** Truthiness of a string property: absent and empty are falsy. *)
Definition truthy (o : option string) : bool :=
  match o with Some (String _ _) => true | _ => false end.

(** [o === s] for a string property. *)
Definition strIs (o : option string) (s : string) : bool :=
  match o with Some x => String.eqb x s | None => false end.

(** ** Values of the constant folder

    [constantinople.toConstant] returns an arbitrary JavaScript value.  The
    generator observes such a value in three ways only: its truthiness,
    whether it is the boolean [true], and its conversion to a string.
    [JNumber] is an integer.  [JObject] stands for any object or array,
    which is truthy, by its conversion to a string; a number that is no
    integer and not [NaN] is observed as such an object is. *)

Inductive jsval : Type :=
| JUndefined
| JNull
| JBool (b : bool)
| JNumber (z : Z)
| JString (s : string)
| JObject (repr : string).

Definition jsTruthy (v : jsval) : bool :=
  match v with
  | JUndefined | JNull => false
  | JBool b => b
  | JNumber z => negb (z =? 0)
  | JString s => match s with EmptyString => false | String _ _ => true end
  | JObject _ => true
  end.

Definition jsToString (v : jsval) : string :=
  match v with
  | JUndefined => "undefined"
  | JNull => "null"
  | JBool true => "true"
  | JBool false => "false"
  | JNumber z => strOfZ z
  | JString s => s
  | JObject repr => repr
  end.

(** [typeof v === 'boolean' && v === true] *)
Definition jsIsTrue (v : jsval) : bool :=
  match v with JBool true => true | _ => false end.

(** ** The syntax tree *)

Definition optEqb {A} (eqb : A -> A -> bool) (a b : option A) : bool :=
  match a, b with
  | Some x, Some y => eqb x y
  | None, None => true
  | _, _ => false
  end.

Fixpoint listEqb {A} (eqb : A -> A -> bool) (a b : list A) : bool :=
  match a, b with
  | [], [] => true
  | x :: ra, y :: rb => (eqb x y && listEqb eqb ra rb)%bool
  | _, _ => false
  end.

(** An attribute [{name, val, escaped}]; [val] is the source of the value
    expression. *)
Module Attr.
Record t : Type := mk { name : string; val : string; escaped : bool }.
Definition eqb (a b : t) : bool :=
  (String.eqb (name a) (name b) && String.eqb (val a) (val b)
   && Bool.eqb (escaped a) (escaped b))%bool.
End Attr.

(** A node is a JavaScript object: every property any method reads is a
    field, absent unless the parser has set it.  The type tag is the
    property [type]; the methods dispatch on it and never look at the
    shape of the object. *)
Module Node.

#[warnings="-register-all"]
Inductive t : Type := mk {
  type : option string;
  line : option Z;
  filename : option string;
  nodes : option (list t);
  yield : bool;
  name : option string;
  mode : option string;
  val : option string;
  expr : option string;
  test : option string;
  obj : option string;
  key : option string;
  args : option string;
  path : option string;
  filter : option string;
  attrs : option (list Attr.t);
  attributeBlocks : option (list string);
  selfClosing : bool;
  buffer : bool;
  escape : bool;
  isHtml : bool;
  call : bool;
  code : option t;
  block : option t;
  consequent : option t;
  alternate : option t;
  alternative : option t;
  file : option t
}.

(** The object with no property at all. *)
Definition empty : t :=
  mk None None None None false None None None None None None None None None
     None None None false false false false false None None None None None
     None.

(** [with_f v n] is [n] with its property [f] set to [v]: the assignment
    [n.f = v], for the properties the generator or an example assigns. *)
Definition with_type (v : option string) (n : t) : t :=
  mk v (line n) (filename n) (nodes n) (yield n) (name n) (mode n) (val n)
     (expr n) (test n) (obj n) (key n) (args n) (path n) (filter n) (attrs n)
     (attributeBlocks n) (selfClosing n) (buffer n) (escape n) (isHtml n)
     (call n) (code n) (block n) (consequent n) (alternate n) (alternative n)
     (file n) .
Definition with_line (v : option Z) (n : t) : t :=
  mk (type n) v (filename n) (nodes n) (yield n) (name n) (mode n) (val n)
     (expr n) (test n) (obj n) (key n) (args n) (path n) (filter n) (attrs n)
     (attributeBlocks n) (selfClosing n) (buffer n) (escape n) (isHtml n)
     (call n) (code n) (block n) (consequent n) (alternate n) (alternative n)
     (file n) .
Definition with_filename (v : option string) (n : t) : t :=
  mk (type n) (line n) v (nodes n) (yield n) (name n) (mode n) (val n)
     (expr n) (test n) (obj n) (key n) (args n) (path n) (filter n) (attrs n)
     (attributeBlocks n) (selfClosing n) (buffer n) (escape n) (isHtml n)
     (call n) (code n) (block n) (consequent n) (alternate n) (alternative n)
     (file n) .
Definition with_nodes (v : option (list t)) (n : t) : t :=
  mk (type n) (line n) (filename n) v (yield n) (name n) (mode n) (val n)
     (expr n) (test n) (obj n) (key n) (args n) (path n) (filter n) (attrs n)
     (attributeBlocks n) (selfClosing n) (buffer n) (escape n) (isHtml n)
     (call n) (code n) (block n) (consequent n) (alternate n) (alternative n)
     (file n) .
Definition with_name (v : option string) (n : t) : t :=
  mk (type n) (line n) (filename n) (nodes n) (yield n) v (mode n) (val n)
     (expr n) (test n) (obj n) (key n) (args n) (path n) (filter n) (attrs n)
     (attributeBlocks n) (selfClosing n) (buffer n) (escape n) (isHtml n)
     (call n) (code n) (block n) (consequent n) (alternate n) (alternative n)
     (file n) .
Definition with_val (v : option string) (n : t) : t :=
  mk (type n) (line n) (filename n) (nodes n) (yield n) (name n) (mode n) v
     (expr n) (test n) (obj n) (key n) (args n) (path n) (filter n) (attrs n)
     (attributeBlocks n) (selfClosing n) (buffer n) (escape n) (isHtml n)
     (call n) (code n) (block n) (consequent n) (alternate n) (alternative n)
     (file n) .
Definition with_test (v : option string) (n : t) : t :=
  mk (type n) (line n) (filename n) (nodes n) (yield n) (name n) (mode n)
     (val n) (expr n) v (obj n) (key n) (args n) (path n) (filter n)
     (attrs n) (attributeBlocks n) (selfClosing n) (buffer n) (escape n)
     (isHtml n) (call n) (code n) (block n) (consequent n) (alternate n)
     (alternative n) (file n) .
Definition with_attrs (v : option (list Attr.t)) (n : t) : t :=
  mk (type n) (line n) (filename n) (nodes n) (yield n) (name n) (mode n)
     (val n) (expr n) (test n) (obj n) (key n) (args n) (path n) (filter n) v
     (attributeBlocks n) (selfClosing n) (buffer n) (escape n) (isHtml n)
     (call n) (code n) (block n) (consequent n) (alternate n) (alternative n)
     (file n) .
Definition with_attributeBlocks (v : option (list string)) (n : t) : t :=
  mk (type n) (line n) (filename n) (nodes n) (yield n) (name n) (mode n)
     (val n) (expr n) (test n) (obj n) (key n) (args n) (path n) (filter n)
     (attrs n) v (selfClosing n) (buffer n) (escape n) (isHtml n) (call n)
     (code n) (block n) (consequent n) (alternate n) (alternative n) (file n)
     .
Definition with_buffer (v : bool) (n : t) : t :=
  mk (type n) (line n) (filename n) (nodes n) (yield n) (name n) (mode n)
     (val n) (expr n) (test n) (obj n) (key n) (args n) (path n) (filter n)
     (attrs n) (attributeBlocks n) (selfClosing n) v (escape n) (isHtml n)
     (call n) (code n) (block n) (consequent n) (alternate n) (alternative n)
     (file n) .
Definition with_escape (v : bool) (n : t) : t :=
  mk (type n) (line n) (filename n) (nodes n) (yield n) (name n) (mode n)
     (val n) (expr n) (test n) (obj n) (key n) (args n) (path n) (filter n)
     (attrs n) (attributeBlocks n) (selfClosing n) (buffer n) v (isHtml n)
     (call n) (code n) (block n) (consequent n) (alternate n) (alternative n)
     (file n) .
Definition with_code (v : option t) (n : t) : t :=
  mk (type n) (line n) (filename n) (nodes n) (yield n) (name n) (mode n)
     (val n) (expr n) (test n) (obj n) (key n) (args n) (path n) (filter n)
     (attrs n) (attributeBlocks n) (selfClosing n) (buffer n) (escape n)
     (isHtml n) (call n) v (block n) (consequent n) (alternate n)
     (alternative n) (file n) .
Definition with_block (v : option t) (n : t) : t :=
  mk (type n) (line n) (filename n) (nodes n) (yield n) (name n) (mode n)
     (val n) (expr n) (test n) (obj n) (key n) (args n) (path n) (filter n)
     (attrs n) (attributeBlocks n) (selfClosing n) (buffer n) (escape n)
     (isHtml n) (call n) (code n) v (consequent n) (alternate n)
     (alternative n) (file n) .
Definition with_consequent (v : option t) (n : t) : t :=
  mk (type n) (line n) (filename n) (nodes n) (yield n) (name n) (mode n)
     (val n) (expr n) (test n) (obj n) (key n) (args n) (path n) (filter n)
     (attrs n) (attributeBlocks n) (selfClosing n) (buffer n) (escape n)
     (isHtml n) (call n) (code n) (block n) v (alternate n) (alternative n)
     (file n) .
Definition with_alternate (v : option t) (n : t) : t :=
  mk (type n) (line n) (filename n) (nodes n) (yield n) (name n) (mode n)
     (val n) (expr n) (test n) (obj n) (key n) (args n) (path n) (filter n)
     (attrs n) (attributeBlocks n) (selfClosing n) (buffer n) (escape n)
     (isHtml n) (call n) (code n) (block n) (consequent n) v (alternative n)
     (file n) .
Definition with_alternative (v : option t) (n : t) : t :=
  mk (type n) (line n) (filename n) (nodes n) (yield n) (name n) (mode n)
     (val n) (expr n) (test n) (obj n) (key n) (args n) (path n) (filter n)
     (attrs n) (attributeBlocks n) (selfClosing n) (buffer n) (escape n)
     (isHtml n) (call n) (code n) (block n) (consequent n) (alternate n) v
     (file n) .
Definition with_file (v : option t) (n : t) : t :=
  mk (type n) (line n) (filename n) (nodes n) (yield n) (name n) (mode n)
     (val n) (expr n) (test n) (obj n) (key n) (args n) (path n) (filter n)
     (attrs n) (attributeBlocks n) (selfClosing n) (buffer n) (escape n)
     (isHtml n) (call n) (code n) (block n) (consequent n) (alternate n)
     (alternative n) v.

(** The height of a tree. *)
Fixpoint height (n : t) : nat :=
  S (Nat.max (match nodes n with
      | Some l => (fix heights (l : list t) : nat :=
                     match l with [] => O | x :: r => Nat.max (height x) (heights r) end) l
      | None => O
      end)
     (Nat.max (match code n with Some x => height x | None => O end)
     (Nat.max (match block n with Some x => height x | None => O end)
     (Nat.max (match consequent n with Some x => height x | None => O end)
     (Nat.max (match alternate n with Some x => height x | None => O end)
     (Nat.max (match alternative n with Some x => height x | None => O end)
     (match file n with Some x => height x | None => O end))))))).

(** The height of the highest of a list of trees. *)
Fixpoint heights (l : list t) : nat :=
  match l with
  | [] => O
  | x :: r => Nat.max (height x) (heights r)
  end.

(** Equality of two trees, property by property. *)
Fixpoint eqb (a b : t) {struct a} : bool :=
  (optEqb String.eqb (type a) (type b)
  && optEqb Z.eqb (line a) (line b)
  && optEqb String.eqb (filename a) (filename b)
  && match nodes a, nodes b with
     | Some la, Some lb =>
         (fix eqbs (la lb : list t) : bool :=
            match la, lb with
            | [], [] => true
            | x :: ra, y :: rb => eqb x y && eqbs ra rb
            | _, _ => false
            end) la lb
     | None, None => true
     | _, _ => false
     end
  && Bool.eqb (yield a) (yield b)
  && optEqb String.eqb (name a) (name b)
  && optEqb String.eqb (mode a) (mode b)
  && optEqb String.eqb (val a) (val b)
  && optEqb String.eqb (expr a) (expr b)
  && optEqb String.eqb (test a) (test b)
  && optEqb String.eqb (obj a) (obj b)
  && optEqb String.eqb (key a) (key b)
  && optEqb String.eqb (args a) (args b)
  && optEqb String.eqb (path a) (path b)
  && optEqb String.eqb (filter a) (filter b)
  && optEqb (listEqb Attr.eqb) (attrs a) (attrs b)
  && optEqb (listEqb String.eqb) (attributeBlocks a) (attributeBlocks b)
  && Bool.eqb (selfClosing a) (selfClosing b)
  && Bool.eqb (buffer a) (buffer b)
  && Bool.eqb (escape a) (escape b)
  && Bool.eqb (isHtml a) (isHtml b)
  && Bool.eqb (call a) (call b)
  && match code a, code b with
     | Some x, Some y => eqb x y
     | None, None => true
     | _, _ => false
     end
  && match block a, block b with
     | Some x, Some y => eqb x y
     | None, None => true
     | _, _ => false
     end
  && match consequent a, consequent b with
     | Some x, Some y => eqb x y
     | None, None => true
     | _, _ => false
     end
  && match alternate a, alternate b with
     | Some x, Some y => eqb x y
     | None, None => true
     | _, _ => false
     end
  && match alternative a, alternative b with
     | Some x, Some y => eqb x y
     | None, None => true
     | _, _ => false
     end
  && match file a, file b with
     | Some x, Some y => eqb x y
     | None, None => true
     | _, _ => false
     end)%bool.

End Node.

(** ** Exceptions and results *)

Inductive exn : Type :=
| TypeError (msg : string)                (* [throw new TypeError(msg)] *)
| Error (msg : string)                    (* [throw new Error(msg)] *)
| ErrorAbout (msg : string) (n : Node.t)  (* [msg + JSON.stringify(n)] *)
| NativeTypeError            (* a property read or a call on [undefined] *)
| RangeError.                (* the call stack is exhausted *)

(** The result of a function that touches no state. *)
Inductive completion (A : Type) : Type :=
| Normal (a : A)
| Abrupt (e : exn).
Arguments Normal {A} a.
Arguments Abrupt {A} e.

Definition andThen {A B} (m : completion A) (k : A -> completion B)
  : completion B :=
  match m with Normal a => k a | Abrupt e => Abrupt e end.

(** ** Options: [module.exports.defaultOptions] *)

Module Options.
Record t : Type := mk {
  indentChar : string;
  useColon : bool;
  preferredQuote : string
}.
Definition default : t :=
  {| indentChar := "  "; useColon := false; preferredQuote := "'" |}.
End Options.

(** ** The compiler object

    [options], [node], [indents], [nested] and [inline] are set by the
    constructor, [buf] by [compile]. *)

Record Compiler : Type := mkCompiler {
  options : Options.t;
  node : Node.t;
  indents : Z;
  nested : bool;
  inline : bool;
  buf : list string
}.

Definition setIndents (i : Z) (this : Compiler) : Compiler :=
  mkCompiler (options this) (node this) i (nested this) (inline this) (buf this).
Definition setNested (b : bool) (this : Compiler) : Compiler :=
  mkCompiler (options this) (node this) (indents this) b (inline this) (buf this).
Definition setBuf (l : list string) (this : Compiler) : Compiler :=
  mkCompiler (options this) (node this) (indents this) (nested this)
    (inline this) l.

(** The result of a method: the value returned or the exception thrown, and
    the compiler as the method left it. *)
Inductive Res (A : Type) : Type :=
| Ok (a : A) (this : Compiler)
| Throw (e : exn) (this : Compiler).
Arguments Ok {A} a this.
Arguments Throw {A} e this.

Definition M (A : Type) : Type := Compiler -> Res A.

Definition ret {A} (a : A) : M A := fun this => Ok a this.
Definition bind {A B} (m : M A) (k : A -> M B) : M B :=
  fun this =>
    match m this with
    | Ok a this' => k a this'
    | Throw e this' => Throw e this'
    end.
Definition throw {A} (e : exn) : M A := fun this => Throw e this.
Definition lift {A} (m : completion A) : M A :=
  fun this => match m with Normal a => Ok a this | Abrupt e => Throw e this end.
Definition read {A} (f : Compiler -> A) : M A := fun this => Ok (f this) this.
Definition write (f : Compiler -> Compiler) : M unit :=
  fun this => Ok tt (f this).
Definition when (b : bool) (m : M unit) : M unit := if b then m else ret tt.

Declare Scope js_scope.
Delimit Scope js_scope with js.
Notation "x <- m ;; k" := (bind m (fun x => k))
  (at level 61, m at next level, right associativity) : js_scope.
Notation "m ;;; k" := (bind m (fun _ => k))
  (at level 61, right associativity) : js_scope.
Open Scope js_scope.

(** [list.forEach(f)] *)
Fixpoint forEach {A} (f : A -> M unit) (l : list A) : M unit :=
  match l with
  | [] => ret tt
  | x :: r => f x ;;; forEach f r
  end.

(** *** [indent], [buffer], [bufLine] *)

Definition indent (add : option Z) (this : Compiler) : string :=
  repeat (Options.indentChar (options this))
         (indents this + match add with Some a => a | None => 0 end).

(** [this.buf[this.buf.length - 1] += content].  On an empty [buf] the
    assignment creates the property [-1], which is no element of the array
    and never reaches [join]: the lines are unchanged. *)
Fixpoint appendLast (content : string) (l : list string) : list string :=
  match l with
  | [] => []
  | [x] => [x ++ content]
  | x :: r => x :: appendLast content r
  end.

Definition buffer (content : option string) : M unit :=
  fun this =>
    match content with
    | Some s => Ok tt (setBuf (appendLast s (buf this)) this)
    | None => Ok tt this
    end.

Definition bufLine (content : option string) (indents : option Z) : M unit :=
  fun this =>
    let content := match content with Some s => s | None => "" end in
    Ok tt (setBuf (buf this ++ [indent indents this ++ content]) this).

(** *** [quote] *)

Definition quote (name : string) (this : Compiler) : string :=
  if String.eqb (Options.preferredQuote (options this)) (str1 SQ) then
    if (hasChar SQ name && negb (hasChar DQ name))%bool
    then str1 DQ ++ name ++ str1 DQ
    else str1 SQ ++ replaceChar SQ (String BS (str1 SQ)) name ++ str1 SQ
  else
    if (hasChar DQ name && negb (hasChar SQ name))%bool
    then str1 SQ ++ name ++ str1 SQ
    else str1 DQ ++ replaceChar DQ (String BS (str1 DQ)) name ++ str1 DQ.

(** *** [attributeBlocks] *)

Definition attributeBlocks (attributeBlocks : option (list string))
  : completion string :=
  match attributeBlocks with
  | None => Abrupt NativeTypeError
  | Some l =>
      Normal (fold_left (fun prev cur => prev ++ "&attributes(" ++ cur ++ ")")
                        l "")
  end.

(** The names every object inherits from [Object.prototype]; a lookup of
    one of them in an object literal finds a truthy value. *)
Definition objectPrototypeKeys : list string :=
  [ "constructor"; "hasOwnProperty"; "isPrototypeOf"; "propertyIsEnumerable";
    "toLocaleString"; "toString"; "valueOf"; "__proto__";
    "__defineGetter__"; "__defineSetter__";
    "__lookupGetter__"; "__lookupSetter__" ].

Definition inherited (key : option string) : bool :=
  existsb (String.eqb (str key)) objectPrototypeKeys.

(** *** [useColon]

    [parent.block === block] compares two objects.  Where [useColon] is
    called with a parent that is a tag, a [When] or a mixin call, [block]
    is the object read from [parent.block]; the comparison is modelled by
    the equality of the two trees. *)

Definition useColon (block : Node.t) (parent : option Node.t)
  (this : Compiler) : completion bool :=
  if negb (Options.useColon (options this)) then Normal false else
  let parentOk :=
    match parent with
    | None => false
    | Some p =>
        if strIs (Node.type p) "Mixin" then Node.call p
        else if strIs (Node.type p) "Tag" then true
        else if strIs (Node.type p) "When" then true
        else inherited (Node.type p)
    end in
  match Node.nodes block with
  | None => Abrupt NativeTypeError
  | Some nodes =>
      let blockOk :=
        match nodes with
        | [n] =>
            if strIs (Node.type n) "Mixin" then Node.call n
            else if strIs (Node.type n) "Tag" then true
            else inherited (Node.type n)
        | _ => false
        end in
      Normal (parentOk
              && match parent with
                 | Some p => optEqb Node.eqb (Node.block p) (Some block)
                 | None => false
                 end
              && blockOk)%bool
  end.

(** *** [useDot] *)

(** [a > b] on lines: false as soon as one of them is absent. *)
Definition lineGt (a b : option Z) : bool :=
  match a, b with Some x, Some y => y <? x | _, _ => false end.

(** [a === b] on lines. *)
Definition lineEq (a b : option Z) : bool := optEqb Z.eqb a b.

(** [last.line - first.line + 1]; [None] is [NaN]. *)
Definition lineSpan (first last : option Z) : option Z :=
  match first, last with
  | Some f, Some l => Some (l - f + 1)
  | _, _ => None
  end.

(** [codes / lines < 0.35] for a count [codes >= 0].  A quotient by [NaN]
    or by zero is [NaN] or infinite and fails the test; over a negative
    span it is negative or minus zero and passes it; over a positive span
    the test is [20 * codes < 7 * lines] (the quotient of two integers
    rounds to the double of 0.35 only when it is 7/20, for every span
    below 2^49). *)
Definition ratioBelow (codes : Z) (lines : option Z) : bool :=
  match lines with
  | None => false
  | Some l =>
      if l =? 0 then false
      else if l <? 0 then true
      else 20 * codes <? 7 * l
  end.

(** [prev] in the loop of [useDot] is [block.nodes[i - 1] || parent ||
    {line: -1}]; [None] stands for the literal. *)
Definition prevLine (prev : option Node.t) : option Z :=
  match prev with Some p => Node.line p | None => Some (-1) end.

(** [prev.type === 'Text' && prev.val === '\n'] *)
Definition prevIsNewline (prev : option Node.t) : bool :=
  match prev with
  | Some p => (strIs (Node.type p) "Text" && strIs (Node.val p) (str1 NL))%bool
  | None => false
  end.

Definition startsLine (n : Node.t) (prev : option Node.t) : bool :=
  (lineGt (Node.line n) (prevLine prev) || prevIsNewline prev)%bool.

Fixpoint useDotLoop (lines : option Z) (prev : option Node.t)
  (words codesWithOwnLine : Z) (prevStartLine : bool) (l : list Node.t)
  : completion bool :=
  match l with
  | [] => Normal ((0 <? words) && ratioBelow codesWithOwnLine lines)%bool
  | n :: rest =>
      if strIs (Node.type n) "Text" then
        match Node.val n with
        | None => Abrupt NativeTypeError
        | Some v =>
            useDotLoop lines (Some n) (words + countWords v) codesWithOwnLine
                       (startsLine n prev) rest
        end
      else if (strIs (Node.type n) "Code" && Node.buffer n
               && match Node.block n with Some _ => false | None => true end)%bool
      then
        useDotLoop lines (Some n) words
          (if (startsLine n prev && prevStartLine)%bool
           then codesWithOwnLine + 1 else codesWithOwnLine)
          (startsLine n prev) rest
      else Normal false
  end.

Definition useDot (block : Node.t) (parent : option Node.t)
  : completion bool :=
  match Node.nodes block with
  | None => Abrupt NativeTypeError
  | Some nodes =>
      match nodes with
      | [] => Normal false
      | first :: _ =>
          let lines := lineSpan (Node.line first)
                                (Node.line (List.last nodes first)) in
          if lineEq lines (Some 1) then Normal false
          else useDotLoop lines parent 0 0 false nodes
      end
  end.

(** *** [getBlock] *)

Definition getBlock (n : Node.t) : completion (option Node.t) :=
  let has t := strIs (Node.type n) t in
  if (has "Block" || has "NamedBlock")%bool then Normal (Some n)
  else if (has "BlockComment" || has "Case" || has "Code" || has "Each"
           || has "Filter" || has "Mixin" || has "Tag" || has "When"
           || has "While")%bool
  then Normal (Node.block n)
  else if has "Conditional" then Normal (Node.consequent n)
  else Abrupt (Error "there is no block in this node").

(** ** The methods of [Compiler.prototype]

    [constantinople.toConstant] is a parameter: [toConstant src] is the
    value of the expression [src] when it is constant, and [None] when the
    call throws. *)

Section Generator.

Variable toConstant : string -> option jsval.

(** *** [attrs] *)

Record attrsState : Type := mkAttrsState {
  regularAttrs : list string;
  classes : string;
  id_ : option jsval
}.

(** The body of the [forEach] of [attrs]. *)
Definition attrsEach (this : Compiler) (st : attrsState) (attr : Attr.t)
  : attrsState :=
  let constVal :=
    match toConstant (Attr.val attr) with Some v => v | None => JString "" end in
  if (String.eqb (Attr.name attr) "class" && negb (Attr.escaped attr)
      && jsTruthy constVal && isClassName (jsToString constVal))%bool
  then
    mkAttrsState (regularAttrs st)
                 (classes st ++ "." ++ jsToString constVal) (id_ st)
  else if (String.eqb (Attr.name attr) "id"
           && negb (match id_ st with Some v => jsTruthy v | None => false end)
           && negb (Attr.escaped attr)
           && jsTruthy constVal && isIdName (jsToString constVal))%bool
  then mkAttrsState (regularAttrs st) (classes st) (Some constVal)
  else
    let attrOut :=
      if isBareAttrName (Attr.name attr) then Attr.name attr
      else quote (replaceChar BS (String BS (str1 BS)) (Attr.name attr)) this in
    let attrOut :=
      if jsIsTrue constVal then attrOut
      else attrOut ++ (if Attr.escaped attr then "" else "!") ++ "="
                   ++ Attr.val attr in
    mkAttrsState (regularAttrs st ++ [attrOut]) (classes st) (id_ st).

(** What [attrs] returns once the loop has run. *)
Definition attrsOut (st : attrsState) : string :=
  let out := "" in
  let out :=
    match id_ st with
    | Some v => if jsTruthy v then out ++ "#" ++ jsToString v else out
    | None => out
    end in
  let out := out ++ classes st in
  match regularAttrs st with
  | [] => out
  | _ :: _ => out ++ "(" ++ join " " (regularAttrs st) ++ ")"
  end.

Definition attrs (attrs : option (list Attr.t)) (this : Compiler)
  : completion string :=
  match attrs with
  | None => Abrupt NativeTypeError
  | Some l =>
      Normal (attrsOut (fold_left (attrsEach this) l (mkAttrsState [] "" None)))
  end.

(** *** The visitor

    [visit] calls the handlers and the handlers call [visit]: each handler
    takes the functions it calls on the children of its node as arguments,
    and the recursion is tied below, in [visitNode]. *)

Definition liftR {A} (f : Compiler -> completion A) : M A :=
  fun this => lift (f this) this.

Definition unlessNested (m : M unit) : M unit :=
  n <- read nested ;; when (negb n) m.

(** The indent unit is taken to hold no dollar sign, which [replace] would
    read as a pattern in its second argument. *)
Definition visitPipelessText (val : option string) (noEscape : bool)
  : M unit :=
  fun this =>
    match val with
    | None => Throw NativeTypeError this
    | Some v =>
        let buf := replaceChar NL (String NL (indent None this)) v in
        let buf := if noEscape then buf else escapeOpeners buf in
        buffer (Some buf) this
    end.

Section Handlers.

Variable visitNode : Node.t -> option Node.t -> bool -> M unit.
Variable visitCode : Node.t -> bool -> option Node.t -> M unit.
Variable visitConditional : Node.t -> M unit.
Variable visitFilter : Node.t -> bool -> option Node.t -> M unit.

(** The first test of [visit]: the node is there. *)
Definition visit (node : option Node.t) (parent : option Node.t)
  (inline : bool) : M unit :=
  match node with
  | None =>
      let msg :=
        match parent with
        | Some p =>
            "A child of " ++ str (Node.type p) ++ " ("
            ++ (if truthy (Node.filename p) then str (Node.filename p)
                else "Jade")
            ++ ":" ++ strOfLine (Node.line p) ++ ")"
        | None => "A top-level node"
        end in
      throw (TypeError (msg ++ " is undefined, expected a Jade AST Node."))
  | Some n => visitNode n parent inline
  end.

Definition visitPipelessTextBlock (block : option Node.t) (noEscape : bool)
  : M unit :=
  origIndents <- read indents ;;
  write (fun this =>
           let i := indents this + 1 in
           setIndents (if i =? 0 then i + 1 else i) this) ;;;
  bufLine None None ;;;
  match block with
  | None => throw NativeTypeError
  | Some b =>
      match Node.nodes b with
      | None => throw NativeTypeError
      | Some nodes =>
          forEach (fun n =>
            if strIs (Node.type n) "Text" then
              visitPipelessText (Node.val n) noEscape
            else if (strIs (Node.type n) "Code"
                     || strIs (Node.type n) "Tag")%bool then
              visit (Some n) (Some b) true
            else throw (ErrorAbout "unexpected node: " n)) nodes
      end
  end ;;;
  write (setIndents origIndents).

Definition visitCase (n : Node.t) : M unit :=
  bufLine (Some ("case " ++ str (Node.expr n))) None ;;;
  visit (Node.block n) (Some n) false.

Definition visitWhen (n : Node.t) : M unit :=
  (if strIs (Node.expr n) "default" then bufLine (Some "default") None
   else bufLine (Some ("when " ++ str (Node.expr n))) None) ;;;
  match Node.block n with
  | None => ret tt
  | Some b =>
      match Node.nodes b with
      | None => throw NativeTypeError
      | Some [] => bufLine (Some "") (Some 1)
      | Some (_ :: _) => visit (Node.block n) (Some n) false
      end
  end.

(** The [forEach] of [visitBlock]: [first] is [!i] and [prevLine] is
    [prevNode.line]. *)
Fixpoint visitBlockEach (block : Node.t) (inline : bool)
  (prevLine : option Z) (first : bool) (l : list Node.t) : M unit :=
  match l with
  | [] => ret tt
  | n :: rest =>
      visit (Some n) (Some block)
            (if first then inline else lineEq prevLine (Node.line n)) ;;;
      visitBlockEach block inline (Node.line n) false rest
  end.

Definition visitBlock (block : Node.t) (inline : bool)
  (parent : option Node.t) : M unit :=
  if Node.yield block then bufLine (Some "yield") None else
  dot <- lift (useDot block parent) ;;
  if dot then
    (if match parent with
        | Some p => (strIs (Node.type p) "Tag"
                     || strIs (Node.type p) "Mixin")%bool
        | None => false
        end
     then buffer (Some ".")
     else bufLine (Some ".") None) ;;;
    visitPipelessTextBlock (Some block) false
  else
    colon <- liftR (useColon block parent) ;;
    if colon then
      buffer (Some ": ") ;;;
      originalNested <- read nested ;;
      write (setNested true) ;;;
      match Node.nodes block with
      | Some (n :: _) => visit (Some n) (Some block) true
      | _ => visit None (Some block) true
      end ;;;
      write (setNested originalNested)
    else
      write (fun this => setIndents (indents this + 1) this) ;;;
      match Node.nodes block with
      | None => throw NativeTypeError
      | Some nodes =>
          visitBlockEach block inline
            (match parent with Some p => Node.line p | None => None end)
            true nodes
      end ;;;
      write (fun this => setIndents (indents this - 1) this).

Definition visitNamedBlock (block : Node.t) : M unit :=
  (if strIs (Node.mode block) "replace"
   then bufLine (Some ("block " ++ str (Node.name block))) None
   else bufLine (Some (str (Node.mode block) ++ " " ++ str (Node.name block)))
                None) ;;;
  visitBlock block false None.

Definition visitMixinBlock (block : Node.t) : M unit :=
  bufLine (Some "block") None.

Definition visitDoctype (doctype : Node.t) : M unit :=
  let buf := "doctype" in
  let buf := if truthy (Node.val doctype)
             then buf ++ " " ++ str (Node.val doctype) else buf in
  bufLine (Some buf) None.

(** The end shared by [visitMixin] and [visitTag]: the block of a tag or of
    a mixin call that has children. *)
Definition visitChildBlock (owner : Node.t) (first : Node.t)
  (rest : list Node.t) (block : Node.t) : M unit :=
  nodeInline <-
    (if lineEq (Node.line first) (Node.line owner)
     then colon <- liftR (useColon block (Some owner)) ;; ret (negb colon)
     else ret false) ;;
  when (nodeInline
        && (negb (strIs (Node.type first) "Code")
            || negb (Nat.eqb (List.length (first :: rest)) 1)))%bool
       (buffer (Some " ")) ;;;
  visit (Some block) (Some owner) nodeInline.

Definition visitMixin (mixin : Node.t) (inline : bool)
  (parent : option Node.t) : M unit :=
  let args := if truthy (Node.args mixin)
              then "(" ++ str (Node.args mixin) ++ ")" else "" in
  let key := str (Node.name mixin) in
  if Node.call mixin then
    a <- liftR (attrs (Node.attrs mixin)) ;;
    ab <- lift (attributeBlocks (Node.attributeBlocks mixin)) ;;
    let buf := "+" ++ key ++ args ++ a ++ ab in
    (if inline then
       unlessNested (buffer (Some "#[")) ;;;
       buffer (Some buf) ;;;
       unlessNested (buffer (Some "]"))
     else bufLine (Some buf) None) ;;;
    (* the test on [nodeInline] that stands here in the source reads the
       variable before it is assigned: it never holds *)
    match Node.block mixin with
    | None => ret tt
    | Some b =>
        match Node.nodes b with
        | None => throw NativeTypeError
        | Some [] => ret tt
        | Some (first :: rest) => visitChildBlock mixin first rest b
        end
    end
  else
    bufLine (Some ("mixin " ++ key ++ args)) None ;;;
    match Node.block mixin with
    | Some b => visit (Some b) (Some mixin) false
    | None => ret tt
    end.

(** [s[0] !== c] *)
Definition firstIsNot (c : ascii) (s : string) : bool :=
  match s with
  | String a _ => negb (Ascii.eqb a c)
  | EmptyString => true
  end.

Definition visitTag (tag : Node.t) (inline : bool) (parent : option Node.t)
  : M unit :=
  let name := Node.name tag in
  a <- liftR (attrs (Node.attrs tag)) ;;
  ab <- lift (attributeBlocks (Node.attributeBlocks tag)) ;;
  let attrs := a ++ ab in
  let buf := "" in
  let buf :=
    if Node.buffer tag then buf ++ "#{" ++ str name ++ "}"
    else if (Node.selfClosing tag || negb (strIs name "div")
             || (firstIsNot "." attrs && firstIsNot "#" attrs))%bool
    then buf ++ str name
    else buf in
  let buf := if Node.selfClosing tag then buf ++ "/" else buf in
  let buf := buf ++ attrs in
  (if inline then unlessNested (buffer (Some "#[")) ;;; buffer (Some buf)
   else bufLine (Some buf) None) ;;;
  match Node.code tag with
  | Some c => visitCode c true None
  | None => ret tt
  end ;;;
  match Node.block tag with
  | None => throw NativeTypeError
  | Some b =>
      match Node.nodes b with
      | None => throw NativeTypeError
      | Some [] => ret tt
      | Some (first :: rest) => visitChildBlock tag first rest b
      end
  end ;;;
  n <- read nested ;;
  when (inline && negb n)%bool (buffer (Some "]")).

Definition visitText (text : Node.t) (inline : bool) : M unit :=
  if Node.isHtml text then
    if inline then throw (Error "HTML text and inline")
    else bufLine None None ;;; visitPipelessText (Node.val text) false
  else if inline then
    match Node.val text with
    | None => throw NativeTypeError
    | Some v => buffer (Some (escapeOpeners v))
    end
  else if strIs (Node.val text) (str1 NL) then bufLine (Some "| ") None
  else if truthy (Node.val text) then
    bufLine (Some ("| " ++ escapeBareOpeners (str (Node.val text)))) None
  else ret tt.

Definition visitComment (comment : Node.t) : M unit :=
  let buf := "//" in
  let buf := if Node.buffer comment then buf else buf ++ "-" in
  let buf := buf ++ str (Node.val comment) in
  bufLine (Some buf) None.

Definition visitBlockComment (comment : Node.t) : M unit :=
  let buf := "//" in
  let buf := if Node.buffer comment then buf else buf ++ "-" in
  let buf := if truthy (Node.val comment)
             then buf ++ str (Node.val comment) else buf in
  bufLine (Some buf) None ;;;
  visitPipelessTextBlock (Node.block comment) false.

Definition visitCodeBody (code : Node.t) (inline : bool)
  (parent : option Node.t) : M unit :=
  parentBlock <- lift (match parent with
                       | Some p => getBlock p
                       | None => Normal None
                       end) ;;
  interpolate <-
    (if inline then
       match parentBlock with
       | None => ret false
       | Some pb =>
           match Node.nodes pb with
           | None => throw NativeTypeError
           | Some l => ret (negb (Nat.eqb (List.length l) 1))
           end
       end
     else ret false) ;;
  if interpolate : bool then
    if Node.buffer code
    then buffer (Some ((if Node.escape code then "#" else "!") ++ "{"
                       ++ str (Node.val code) ++ "}"))
    else buffer (Some ("#[- " ++ str (Node.val code) ++ "]"))
  else
    let buf := "" in
    let buf :=
      if Node.buffer code
      then (if Node.escape code then buf else buf ++ "!") ++ "="
      else buf ++ "-" in
    (if inline then buffer (Some buf) else bufLine (Some buf) None) ;;;
    match Node.val code with
    | None => throw NativeTypeError
    | Some v =>
        if negb (hasChar NL v) then buffer (Some (" " ++ v))
        else
          write (fun this => setIndents (indents this + 1) this) ;;;
          (bufLine None None ;;;
           visitPipelessText (Some v) false) ;;;
          write (fun this => setIndents (indents this - 1) this)
    end ;;;
    match Node.block code with
    | Some b => visit (Some b) (Some code) false
    | None => ret tt
    end.

Definition visitConditionalBody (cond : Node.t) : M unit :=
  let out := "if " ++ str (Node.test cond) in
  bufLine (Some out) None ;;;
  visit (Node.consequent cond) (Some cond) false ;;;
  match Node.alternate cond with
  | None => ret tt
  | Some alt =>
      if strIs (Node.type alt) "Conditional" then
        bufLine (Some "else ") None ;;;
        visitConditional alt
      else
        bufLine (Some "else") None ;;;
        visit (Some alt) (Some cond) false
  end.

Definition visitWhile (loop : Node.t) : M unit :=
  bufLine (Some ("while " ++ str (Node.test loop))) None ;;;
  visit (Node.block loop) (Some loop) false.

Definition visitEach (each : Node.t) : M unit :=
  bufLine (Some ("each " ++ str (Node.val each)
                 ++ (if truthy (Node.key each)
                     then ", " ++ str (Node.key each) else "")
                 ++ " in " ++ str (Node.obj each))) None ;;;
  visit (Node.block each) (Some each) false ;;;
  match Node.alternative each with
  | Some alt => bufLine (Some "else") None ;;; visit (Some alt) None false
  | None => ret tt
  end.

Definition visitExtends (n : Node.t) : M unit :=
  bufLine (Some "extends ") None ;;;
  visit (Node.file n) None false.

Definition visitFileReference (file : Node.t) : M unit :=
  buffer (Node.path file).

Definition visitInclude (include : Node.t) : M unit :=
  bufLine (Some "include") None ;;;
  (if truthy (Node.filter include) then
     a <- liftR (attrs (Node.attrs include)) ;;
     buffer (Some (":" ++ str (Node.filter include) ++ a))
   else ret tt) ;;;
  buffer (Some " ") ;;;
  visit (Node.file include) None false ;;;
  visit (Node.block include) None false.

Definition visitFilterBody (filter : Node.t) (inline : bool)
  (parent : option Node.t) : M unit :=
  a <- liftR (attrs (Node.attrs filter)) ;;
  let buf := ":" ++ str (Node.name filter) ++ a in
  when inline (buffer (Some "#[")) ;;;
  (n <- read nested ;;
   if (inline || n)%bool then buffer (Some buf) else bufLine (Some buf) None) ;;;
  match Node.block filter with
  | None => throw NativeTypeError
  | Some b =>
      match Node.nodes b with
      | None => throw NativeTypeError
      | Some [] => ret tt
      | Some (first :: rest) =>
          if strIs (Node.type first) "Filter" then
            match rest with
            | _ :: _ =>
                throw (ErrorAbout "filter with more than one non-text nodes: "
                                  filter)
            | [] =>
                originalNested <- read nested ;;
                write (setNested true) ;;;
                visitFilter first inline (Some filter) ;;;
                write (setNested originalNested)
            end
          else if inline then
            when (strIs (Node.type first) "Text") (buffer (Some " ")) ;;;
            visit (Some b) parent inline
          else visitPipelessTextBlock (Some b) true
      end
  end ;;;
  n <- read nested ;;
  when (inline && negb n)%bool (buffer (Some "]")).

(** The second test of [visit] and the call [this['visit' + node.type]].
    Besides the handlers of the node types, three more properties of the
    compiler have a name that begins with [visit]: [visit] itself, for the
    empty type, which calls itself until the stack is exhausted;
    [visitPipelessText], which calls [replace] on the node; and
    [visitPipelessTextBlock]. *)
Definition dispatch (n : Node.t) (parent : option Node.t) (inline : bool)
  : M unit :=
  let has t := strIs (Node.type n) t in
  if has "" then throw RangeError
  else if has "PipelessText" then throw NativeTypeError
  else if has "PipelessTextBlock" then visitPipelessTextBlock (Some n) inline
  else if has "Case" then visitCase n
  else if has "When" then visitWhen n
  else if has "NamedBlock" then visitNamedBlock n
  else if has "Block" then visitBlock n inline parent
  else if has "MixinBlock" then visitMixinBlock n
  else if has "Doctype" then visitDoctype n
  else if has "Mixin" then visitMixin n inline parent
  else if has "Tag" then visitTag n inline parent
  else if has "Text" then visitText n inline
  else if has "Comment" then visitComment n
  else if has "BlockComment" then visitBlockComment n
  else if has "Code" then visitCodeBody n inline parent
  else if has "Conditional" then visitConditionalBody n
  else if has "While" then visitWhile n
  else if has "Each" then visitEach n
  else if has "Extends" then visitExtends n
  else if has "FileReference" then visitFileReference n
  else if has "Include" then visitInclude n
  else if has "Filter" then visitFilterBody n inline parent
  else
    let msg :=
      match parent with
      | Some p => "A child of " ++ str (Node.type p)
      | None => "A top-level node"
      end in
    throw (TypeError
             (msg ++ " ("
              ++ (if truthy (Node.filename n) then str (Node.filename n)
                  else "Jade")
              ++ ":" ++ strOfLine (Node.line n) ++ ")"
              ++ " is of type " ++ str (Node.type n) ++ ","
              ++ " which is not supported by jade-source-gen.")).

End Handlers.

(** The recursion: every call is on a child of the node. *)
Fixpoint visitNode (n : Node.t) (parent : option Node.t) (inline : bool)
  {struct n} : M unit :=
  dispatch visitNode visitCode visitConditional visitFilter n parent inline
with visitCode (code : Node.t) (inline : bool) (parent : option Node.t)
  {struct code} : M unit :=
  visitCodeBody visitNode code inline parent
with visitConditional (cond : Node.t) {struct cond} : M unit :=
  visitConditionalBody visitNode visitConditional cond
with visitFilter (filter : Node.t) (inline : bool) (parent : option Node.t)
  {struct filter} : M unit :=
  visitFilterBody visitNode visitFilter filter inline parent.

(** [compile] *)
Definition compile (this : Compiler) : Res string :=
  match visit visitNode (Some (node this)) None false (setBuf [] this) with
  | Ok _ this' => Ok (join (str1 NL) (buf this')) this'
  | Throw e this' => Throw e this'
  end.

End Generator.

(** ** [cleanUpAST]

    [cleanUpAST] hands a callback to [walk], of the package [jade-walk].
    The tree is a tree, no node is shared: the assignment of [node.nodes]
    in the callback is the construction of a node with new children. *)

Fixpoint mapC {A B} (f : A -> completion B) (l : list A)
  : completion (list B) :=
  match l with
  | [] => Normal []
  | x :: r =>
      andThen (f x) (fun y => andThen (mapC f r) (fun ys => Normal (y :: ys)))
  end.

Definition optC {A B} (f : A -> completion B) (o : option A)
  : completion (option B) :=
  match o with
  | None => Normal None
  | Some x => andThen (f x) (fun y => Normal (Some y))
  end.

(** [a.slice(from, to)] for [from <= to], and [a.slice(from)]. *)
Definition slice {A} (from to : nat) (l : list A) : list A :=
  firstn (to - from) (skipn from l).

Section Walk.

(** The walk of a child. *)
Variable walk : Node.t -> completion Node.t.

(** Modelled from the spec: [walk] of [jade-walk], which is not part of
    this repository.  [walk(ast, before)] calls [before] on [ast], then
    walks in place every child of [ast], the elements of [nodes] and the
    nodes held by [code], [block], [consequent], [alternate],
    [alternative] and [file], and returns [ast]: it reaches every [Block]
    found anywhere in the tree.  [walkChildren] is the second half. *)
Definition walkChildren (ast : Node.t) : completion Node.t :=
  andThen (optC (mapC walk) (Node.nodes ast)) (fun nodes =>
  andThen (optC walk (Node.code ast)) (fun code =>
  andThen (optC walk (Node.block ast)) (fun block =>
  andThen (optC walk (Node.consequent ast)) (fun consequent =>
  andThen (optC walk (Node.alternate ast)) (fun alternate =>
  andThen (optC walk (Node.alternative ast)) (fun alternative =>
  andThen (optC walk (Node.file ast)) (fun file =>
  Normal
    (Node.with_nodes nodes
    (Node.with_code code
    (Node.with_block block
    (Node.with_consequent consequent
    (Node.with_alternate alternate
    (Node.with_alternative alternative
    (Node.with_file file ast)))))))))))))).

(** The [forEach] of the callback of [cleanUpAST]; [all] is [node.nodes]
    and [i] the index of the head of [l] in it.  The call [cleanUpAST
    (innerNode)] is a walk of [innerNode]; what it returns is a block whose
    callback has read its children, so they are there (the branch [None]
    is never taken). *)
Fixpoint flattenEach (all : list Node.t) (i lastIdx : nat)
  (newNodes : list Node.t) (l : list Node.t)
  : completion (nat * list Node.t) :=
  match l with
  | [] => Normal (lastIdx, newNodes)
  | innerNode :: rest =>
      if (strIs (Node.type innerNode) "Block"
          && negb (Node.yield innerNode))%bool
      then
        let newNodes :=
          if Nat.ltb 0 i then (newNodes ++ slice lastIdx i all)%list
          else newNodes in
        let lastIdx := S i in
        andThen (walk innerNode) (fun cleaned =>
          match Node.nodes cleaned with
          | None => Abrupt NativeTypeError
          | Some inner =>
              flattenEach all (S i) lastIdx (newNodes ++ inner)%list rest
          end)
      else flattenEach all (S i) lastIdx newNodes rest
  end.

(** The callback [function(node, replace)] that [cleanUpAST] hands to
    [walk]. *)
Definition flattenBlock (n : Node.t) : completion Node.t :=
  if strIs (Node.type n) "Block" then
    match Node.nodes n with
    | None => Abrupt NativeTypeError
    | Some nodes =>
        andThen (flattenEach nodes 0 0 [] nodes) (fun r =>
          let '(lastIdx, newNodes) := r in
          Normal (Node.with_nodes
                    (Some (newNodes ++ skipn lastIdx nodes)%list) n))
    end
  else Normal n.

End Walk.

(** [cleanUpAST] walks again the nodes it has just lifted out of an inner
    block, so its recursion is not on the children of its argument alone:
    [depth] is the number of nested calls the stack has room for. *)
Fixpoint cleanUpASTWithin (depth : nat) (ast : Node.t) : completion Node.t :=
  match depth with
  | O => Abrupt RangeError
  | S depth' =>
      andThen (flattenBlock (cleanUpASTWithin depth') ast)
              (walkChildren (cleanUpASTWithin depth'))
  end.

(** A stack deeper than the tree is high is enough (see
    [cleanUpASTWithin_enough]). *)
Definition cleanUpAST (ast : Node.t) : completion Node.t :=
  cleanUpASTWithin (S (Node.height ast)) ast.

(** ** [new Compiler(node, options)] and [generateCode] *)

Definition newCompiler (n : Node.t) (options : Options.t)
  : completion Compiler :=
  andThen (cleanUpAST n) (fun n' =>
    Normal (mkCompiler options n' (-1) false false [])).

Definition generateCode (toConstant : string -> option jsval)
  (ast : Node.t) (options : Options.t) : completion string :=
  andThen (newCompiler ast options) (fun this =>
    match compile toConstant this with
    | Ok s _ => Normal s
    | Throw e _ => Abrupt e
    end).

(** ** Trees and a constant folder to run the generator on *)

Definition Block (line : option Z) (nodes : list Node.t) : Node.t :=
  Node.with_type (Some "Block")
    (Node.with_line line (Node.with_nodes (Some nodes) Node.empty)).

Definition Text (line : option Z) (val : string) : Node.t :=
  Node.with_type (Some "Text")
    (Node.with_line line (Node.with_val (Some val) Node.empty)).

Definition Tag (line : option Z) (name : string) (attrs : list Attr.t)
  (block : Node.t) : Node.t :=
  Node.with_type (Some "Tag")
    (Node.with_line line
    (Node.with_name (Some name)
    (Node.with_attrs (Some attrs)
    (Node.with_attributeBlocks (Some [])
    (Node.with_block (Some block) Node.empty))))).

Definition Code (line : option Z) (val : string) : Node.t :=
  Node.with_type (Some "Code")
    (Node.with_line line
    (Node.with_val (Some val)
    (Node.with_buffer true (Node.with_escape true Node.empty)))).

Definition Conditional (line : option Z) (test : string)
  (consequent : Node.t) (alternate : option Node.t) : Node.t :=
  Node.with_type (Some "Conditional")
    (Node.with_line line
    (Node.with_test (Some test)
    (Node.with_consequent (Some consequent)
    (Node.with_alternate alternate Node.empty)))).

Definition Filter (line : option Z) (name : string) (block : Node.t)
  : Node.t :=
  Node.with_type (Some "Filter")
    (Node.with_line line
    (Node.with_name (Some name)
    (Node.with_attrs (Some [])
    (Node.with_block (Some block) Node.empty)))).

(** A constant folder for the literals of the examples: a string between
    double quotes with no quote or backslash inside, [true] and [false]. *)
Fixpoint literalBody (s : string) : option string :=
  match s with
  | EmptyString => None
  | String c t =>
      if Ascii.eqb c DQ then
        match t with EmptyString => Some EmptyString | String _ _ => None end
      else if Ascii.eqb c BS then None
      else match literalBody t with
           | Some r => Some (String c r)
           | None => None
           end
  end.

Definition literalConstant (src : string) : option jsval :=
  if String.eqb src "true" then Some (JBool true)
  else if String.eqb src "false" then Some (JBool false)
  else match src with
       | String c t =>
           if Ascii.eqb c DQ then
             match literalBody t with
             | Some s => Some (JString s)
             | None => None
             end
           else None
       | EmptyString => None
       end.



(** ** The visitor on the tree that the compiler holds

    Above, a handler takes the node it visits as a value.  In the program
    a handler takes a reference to an object of the tree that [this.node]
    holds, and it would see, and could make, a change of that tree.  Here
    the handlers are given that way: a node is named by the properties
    that lead to it from [this.node], and every property of a node is read
    from the tree the compiler holds at the time it is read.  The
    functions that only read and call no handler ([useDot], [useColon],
    [getBlock], [attrs], [attributeBlocks]) run on the objects as they are
    when the function is called. *)

(** The property through which a node holds a child. *)
Inductive Link : Type :=
| ViaNodes (i : nat)
| ViaCode
| ViaBlock
| ViaConsequent
| ViaAlternate
| ViaAlternative
| ViaFile.

(** A reference to a node: the links from [this.node] down to it. *)
Definition Ref : Type := list Link.

Definition follow (s : Link) (n : Node.t) : option Node.t :=
  match s with
  | ViaNodes i =>
      match Node.nodes n with Some l => nth_error l i | None => None end
  | ViaCode => Node.code n
  | ViaBlock => Node.block n
  | ViaConsequent => Node.consequent n
  | ViaAlternate => Node.alternate n
  | ViaAlternative => Node.alternative n
  | ViaFile => Node.file n
  end.

Fixpoint resolve (r : Ref) (n : Node.t) : option Node.t :=
  match r with
  | [] => Some n
  | s :: r' =>
      match follow s n with Some c => resolve r' c | None => None end
  end.

(** [this.node = n]: the one assignment to the tree that the compiler
    holds. *)
Definition setNode (n : Node.t) (this : Compiler) : Compiler :=
  mkCompiler (options this) n (indents this) (nested this) (inline this)
             (buf this).

(** The object a reference leads to, as it is now.  A reference is made
    from a property that holds a node; one that leads nowhere stands for
    no object of the program, and reads as the object with no property. *)
Definition object (r : Ref) : M Node.t :=
  read (fun this =>
          match resolve r (node this) with
          | Some n => n
          | None => Node.empty
          end).

Definition objectOf (r : option Ref) : M (option Node.t) :=
  match r with
  | Some r => n <- object r ;; ret (Some n)
  | None => ret None
  end.

(** The reference read from the property [s] of the node at [r]:
    [undefined] when the property holds nothing. *)
Definition held (r : Ref) (s : Link) (property : option Node.t)
  : option Ref :=
  match property with Some _ => Some (r ++ [s])%list | None => None end.

(** The references to the elements of the array [nodes] of the node at
    [r]. *)
Definition elements (r : Ref) (nodes : list Node.t) : list Ref :=
  map (fun i => (r ++ [ViaNodes i])%list) (seq 0 (List.length nodes)).

Section GeneratorAt.

Variable toConstant : string -> option jsval.

Section HandlersAt.

Variable visitNodeAt : Ref -> option Ref -> bool -> M unit.
Variable visitCodeAt : Ref -> bool -> option Ref -> M unit.
Variable visitConditionalAt : Ref -> M unit.
Variable visitFilterAt : Ref -> bool -> option Ref -> M unit.

Definition visitAt (node : option Ref) (parent : option Ref)
  (inline : bool) : M unit :=
  match node with
  | None =>
      p <- objectOf parent ;;
      let msg :=
        match p with
        | Some p =>
            "A child of " ++ str (Node.type p) ++ " ("
            ++ (if truthy (Node.filename p) then str (Node.filename p)
                else "Jade")
            ++ ":" ++ strOfLine (Node.line p) ++ ")"
        | None => "A top-level node"
        end in
      throw (TypeError (msg ++ " is undefined, expected a Jade AST Node."))
  | Some r => visitNodeAt r parent inline
  end.

Definition visitPipelessTextBlockAt (block : option Ref) (noEscape : bool)
  : M unit :=
  origIndents <- read indents ;;
  write (fun this =>
           let i := indents this + 1 in
           setIndents (if i =? 0 then i + 1 else i) this) ;;;
  bufLine None None ;;;
  match block with
  | None => throw NativeTypeError
  | Some br =>
      b <- object br ;;
      match Node.nodes b with
      | None => throw NativeTypeError
      | Some nodes =>
          forEach (fun r =>
            n <- object r ;;
            if strIs (Node.type n) "Text" then
              visitPipelessText (Node.val n) noEscape
            else if (strIs (Node.type n) "Code"
                     || strIs (Node.type n) "Tag")%bool then
              visitAt (Some r) (Some br) true
            else throw (ErrorAbout "unexpected node: " n))
            (elements br nodes)
      end
  end ;;;
  write (setIndents origIndents).

Definition visitCaseAt (r : Ref) : M unit :=
  n <- object r ;;
  bufLine (Some ("case " ++ str (Node.expr n))) None ;;;
  visitAt (held r ViaBlock (Node.block n)) (Some r) false.

Definition visitWhenAt (r : Ref) : M unit :=
  n <- object r ;;
  (if strIs (Node.expr n) "default" then bufLine (Some "default") None
   else bufLine (Some ("when " ++ str (Node.expr n))) None) ;;;
  match Node.block n with
  | None => ret tt
  | Some b =>
      match Node.nodes b with
      | None => throw NativeTypeError
      | Some [] => bufLine (Some "") (Some 1)
      | Some (_ :: _) => visitAt (held r ViaBlock (Node.block n)) (Some r) false
      end
  end.

(** The [forEach] of [visitBlock]: the line of the node before is read
    once that node has been visited. *)
Fixpoint visitBlockEachAt (block : Ref) (inline : bool)
  (prevLine : option Z) (first : bool) (l : list Ref) : M unit :=
  match l with
  | [] => ret tt
  | r :: rest =>
      n <- object r ;;
      visitAt (Some r) (Some block)
              (if first then inline else lineEq prevLine (Node.line n)) ;;;
      n <- object r ;;
      visitBlockEachAt block inline (Node.line n) false rest
  end.

Definition visitBlockAt (block : Ref) (inline : bool)
  (parent : option Ref) : M unit :=
  b <- object block ;;
  if Node.yield b then bufLine (Some "yield") None else
  p <- objectOf parent ;;
  dot <- lift (useDot b p) ;;
  if dot then
    (if match p with
        | Some p => (strIs (Node.type p) "Tag"
                     || strIs (Node.type p) "Mixin")%bool
        | None => false
        end
     then buffer (Some ".")
     else bufLine (Some ".") None) ;;;
    visitPipelessTextBlockAt (Some block) false
  else
    colon <- liftR (useColon b p) ;;
    if colon then
      buffer (Some ": ") ;;;
      originalNested <- read nested ;;
      write (setNested true) ;;;
      b <- object block ;;
      match Node.nodes b with
      | Some (_ :: _) =>
          visitAt (Some (block ++ [ViaNodes 0])%list) (Some block) true
      | _ => visitAt None (Some block) true
      end ;;;
      write (setNested originalNested)
    else
      write (fun this => setIndents (indents this + 1) this) ;;;
      (b <- object block ;;
       match Node.nodes b with
       | None => throw NativeTypeError
       | Some nodes =>
           visitBlockEachAt block inline
             (match p with Some p => Node.line p | None => None end)
             true (elements block nodes)
       end) ;;;
      write (fun this => setIndents (indents this - 1) this).

Definition visitNamedBlockAt (block : Ref) : M unit :=
  b <- object block ;;
  (if strIs (Node.mode b) "replace"
   then bufLine (Some ("block " ++ str (Node.name b))) None
   else bufLine (Some (str (Node.mode b) ++ " " ++ str (Node.name b)))
                None) ;;;
  visitBlockAt block false None.

Definition visitMixinBlockAt (block : Ref) : M unit :=
  bufLine (Some "block") None.

Definition visitDoctypeAt (r : Ref) : M unit :=
  doctype <- object r ;;
  let buf := "doctype" in
  let buf := if truthy (Node.val doctype)
             then buf ++ " " ++ str (Node.val doctype) else buf in
  bufLine (Some buf) None.

(** The end shared by [visitMixin] and [visitTag]; [first] and [rest] are
    the children of the block as they have just been read. *)
Definition visitChildBlockAt (owner : Ref) (first : Node.t)
  (rest : list Node.t) (block : Ref) : M unit :=
  o <- object owner ;;
  b <- object block ;;
  nodeInline <-
    (if lineEq (Node.line first) (Node.line o)
     then colon <- liftR (useColon b (Some o)) ;; ret (negb colon)
     else ret false) ;;
  when (nodeInline
        && (negb (strIs (Node.type first) "Code")
            || negb (Nat.eqb (List.length (first :: rest)) 1)))%bool
       (buffer (Some " ")) ;;;
  visitAt (Some block) (Some owner) nodeInline.

Definition visitMixinAt (r : Ref) (inline : bool) (parent : option Ref)
  : M unit :=
  mixin <- object r ;;
  let args := if truthy (Node.args mixin)
              then "(" ++ str (Node.args mixin) ++ ")" else "" in
  let key := str (Node.name mixin) in
  if Node.call mixin then
    a <- liftR (attrs toConstant (Node.attrs mixin)) ;;
    ab <- lift (attributeBlocks (Node.attributeBlocks mixin)) ;;
    let buf := "+" ++ key ++ args ++ a ++ ab in
    (if inline then
       unlessNested (buffer (Some "#[")) ;;;
       buffer (Some buf) ;;;
       unlessNested (buffer (Some "]"))
     else bufLine (Some buf) None) ;;;
    match Node.block mixin with
    | None => ret tt
    | Some b =>
        match Node.nodes b with
        | None => throw NativeTypeError
        | Some [] => ret tt
        | Some (first :: rest) =>
            visitChildBlockAt r first rest (r ++ [ViaBlock])%list
        end
    end
  else
    bufLine (Some ("mixin " ++ key ++ args)) None ;;;
    match Node.block mixin with
    | Some _ => visitAt (Some (r ++ [ViaBlock])%list) (Some r) false
    | None => ret tt
    end.

Definition visitTagAt (r : Ref) (inline : bool) (parent : option Ref)
  : M unit :=
  tag <- object r ;;
  let name := Node.name tag in
  a <- liftR (attrs toConstant (Node.attrs tag)) ;;
  ab <- lift (attributeBlocks (Node.attributeBlocks tag)) ;;
  let attrs := a ++ ab in
  let buf := "" in
  let buf :=
    if Node.buffer tag then buf ++ "#{" ++ str name ++ "}"
    else if (Node.selfClosing tag || negb (strIs name "div")
             || (firstIsNot "." attrs && firstIsNot "#" attrs))%bool
    then buf ++ str name
    else buf in
  let buf := if Node.selfClosing tag then buf ++ "/" else buf in
  let buf := buf ++ attrs in
  (if inline then unlessNested (buffer (Some "#[")) ;;; buffer (Some buf)
   else bufLine (Some buf) None) ;;;
  match Node.code tag with
  | Some _ => visitCodeAt (r ++ [ViaCode])%list true None
  | None => ret tt
  end ;;;
  (tag <- object r ;;
   match Node.block tag with
   | None => throw NativeTypeError
   | Some b =>
       match Node.nodes b with
       | None => throw NativeTypeError
       | Some [] => ret tt
       | Some (first :: rest) =>
           visitChildBlockAt r first rest (r ++ [ViaBlock])%list
       end
   end) ;;;
  n <- read nested ;;
  when (inline && negb n)%bool (buffer (Some "]")).

Definition visitTextAt (r : Ref) (inline : bool) : M unit :=
  text <- object r ;;
  if Node.isHtml text then
    if inline then throw (Error "HTML text and inline")
    else bufLine None None ;;; visitPipelessText (Node.val text) false
  else if inline then
    match Node.val text with
    | None => throw NativeTypeError
    | Some v => buffer (Some (escapeOpeners v))
    end
  else if strIs (Node.val text) (str1 NL) then bufLine (Some "| ") None
  else if truthy (Node.val text) then
    bufLine (Some ("| " ++ escapeBareOpeners (str (Node.val text)))) None
  else ret tt.

Definition visitCommentAt (r : Ref) : M unit :=
  comment <- object r ;;
  let buf := "//" in
  let buf := if Node.buffer comment then buf else buf ++ "-" in
  let buf := buf ++ str (Node.val comment) in
  bufLine (Some buf) None.

Definition visitBlockCommentAt (r : Ref) : M unit :=
  comment <- object r ;;
  let buf := "//" in
  let buf := if Node.buffer comment then buf else buf ++ "-" in
  let buf := if truthy (Node.val comment)
             then buf ++ str (Node.val comment) else buf in
  bufLine (Some buf) None ;;;
  visitPipelessTextBlockAt (held r ViaBlock (Node.block comment)) false.

Definition visitCodeBodyAt (r : Ref) (inline : bool) (parent : option Ref)
  : M unit :=
  p <- objectOf parent ;;
  parentBlock <- lift (match p with
                       | Some p => getBlock p
                       | None => Normal None
                       end) ;;
  interpolate <-
    (if inline then
       match parentBlock with
       | None => ret false
       | Some pb =>
           match Node.nodes pb with
           | None => throw NativeTypeError
           | Some l => ret (negb (Nat.eqb (List.length l) 1))
           end
       end
     else ret false) ;;
  code <- object r ;;
  if interpolate : bool then
    if Node.buffer code
    then buffer (Some ((if Node.escape code then "#" else "!") ++ "{"
                       ++ str (Node.val code) ++ "}"))
    else buffer (Some ("#[- " ++ str (Node.val code) ++ "]"))
  else
    let buf := "" in
    let buf :=
      if Node.buffer code
      then (if Node.escape code then buf else buf ++ "!") ++ "="
      else buf ++ "-" in
    (if inline then buffer (Some buf) else bufLine (Some buf) None) ;;;
    match Node.val code with
    | None => throw NativeTypeError
    | Some v =>
        if negb (hasChar NL v) then buffer (Some (" " ++ v))
        else
          write (fun this => setIndents (indents this + 1) this) ;;;
          (bufLine None None ;;;
           visitPipelessText (Some v) false) ;;;
          write (fun this => setIndents (indents this - 1) this)
    end ;;;
    match Node.block code with
    | Some _ => visitAt (Some (r ++ [ViaBlock])%list) (Some r) false
    | None => ret tt
    end.

Definition visitConditionalBodyAt (r : Ref) : M unit :=
  cond <- object r ;;
  let out := "if " ++ str (Node.test cond) in
  bufLine (Some out) None ;;;
  visitAt (held r ViaConsequent (Node.consequent cond)) (Some r) false ;;;
  cond <- object r ;;
  match Node.alternate cond with
  | None => ret tt
  | Some alt =>
      if strIs (Node.type alt) "Conditional" then
        bufLine (Some "else ") None ;;;
        visitConditionalAt (r ++ [ViaAlternate])%list
      else
        bufLine (Some "else") None ;;;
        visitAt (Some (r ++ [ViaAlternate])%list) (Some r) false
  end.

Definition visitWhileAt (r : Ref) : M unit :=
  loop <- object r ;;
  bufLine (Some ("while " ++ str (Node.test loop))) None ;;;
  visitAt (held r ViaBlock (Node.block loop)) (Some r) false.

Definition visitEachAt (r : Ref) : M unit :=
  each <- object r ;;
  bufLine (Some ("each " ++ str (Node.val each)
                 ++ (if truthy (Node.key each)
                     then ", " ++ str (Node.key each) else "")
                 ++ " in " ++ str (Node.obj each))) None ;;;
  visitAt (held r ViaBlock (Node.block each)) (Some r) false ;;;
  each <- object r ;;
  match Node.alternative each with
  | Some _ =>
      bufLine (Some "else") None ;;;
      visitAt (Some (r ++ [ViaAlternative])%list) None false
  | None => ret tt
  end.

Definition visitExtendsAt (r : Ref) : M unit :=
  bufLine (Some "extends ") None ;;;
  n <- object r ;;
  visitAt (held r ViaFile (Node.file n)) None false.

Definition visitFileReferenceAt (r : Ref) : M unit :=
  file <- object r ;;
  buffer (Node.path file).

Definition visitIncludeAt (r : Ref) : M unit :=
  include <- object r ;;
  bufLine (Some "include") None ;;;
  (if truthy (Node.filter include) then
     a <- liftR (attrs toConstant (Node.attrs include)) ;;
     buffer (Some (":" ++ str (Node.filter include) ++ a))
   else ret tt) ;;;
  buffer (Some " ") ;;;
  visitAt (held r ViaFile (Node.file include)) None false ;;;
  include <- object r ;;
  visitAt (held r ViaBlock (Node.block include)) None false.

Definition visitFilterBodyAt (r : Ref) (inline : bool)
  (parent : option Ref) : M unit :=
  filter <- object r ;;
  a <- liftR (attrs toConstant (Node.attrs filter)) ;;
  let buf := ":" ++ str (Node.name filter) ++ a in
  when inline (buffer (Some "#[")) ;;;
  (n <- read nested ;;
   if (inline || n)%bool then buffer (Some buf) else bufLine (Some buf) None) ;;;
  match Node.block filter with
  | None => throw NativeTypeError
  | Some b =>
      match Node.nodes b with
      | None => throw NativeTypeError
      | Some [] => ret tt
      | Some (first :: rest) =>
          if strIs (Node.type first) "Filter" then
            match rest with
            | _ :: _ =>
                throw (ErrorAbout "filter with more than one non-text nodes: "
                                  filter)
            | [] =>
                originalNested <- read nested ;;
                write (setNested true) ;;;
                visitFilterAt (r ++ [ViaBlock; ViaNodes 0])%list inline
                              (Some r) ;;;
                write (setNested originalNested)
            end
          else if inline then
            when (strIs (Node.type first) "Text") (buffer (Some " ")) ;;;
            visitAt (Some (r ++ [ViaBlock])%list) parent inline
          else visitPipelessTextBlockAt (Some (r ++ [ViaBlock])%list) true
      end
  end ;;;
  n <- read nested ;;
  when (inline && negb n)%bool (buffer (Some "]")).

Definition dispatchAt (r : Ref) (parent : option Ref) (inline : bool)
  : M unit :=
  n <- object r ;;
  let has t := strIs (Node.type n) t in
  if has "" then throw RangeError
  else if has "PipelessText" then throw NativeTypeError
  else if has "PipelessTextBlock" then visitPipelessTextBlockAt (Some r) inline
  else if has "Case" then visitCaseAt r
  else if has "When" then visitWhenAt r
  else if has "NamedBlock" then visitNamedBlockAt r
  else if has "Block" then visitBlockAt r inline parent
  else if has "MixinBlock" then visitMixinBlockAt r
  else if has "Doctype" then visitDoctypeAt r
  else if has "Mixin" then visitMixinAt r inline parent
  else if has "Tag" then visitTagAt r inline parent
  else if has "Text" then visitTextAt r inline
  else if has "Comment" then visitCommentAt r
  else if has "BlockComment" then visitBlockCommentAt r
  else if has "Code" then visitCodeBodyAt r inline parent
  else if has "Conditional" then visitConditionalBodyAt r
  else if has "While" then visitWhileAt r
  else if has "Each" then visitEachAt r
  else if has "Extends" then visitExtendsAt r
  else if has "FileReference" then visitFileReferenceAt r
  else if has "Include" then visitIncludeAt r
  else if has "Filter" then visitFilterBodyAt r inline parent
  else
    p <- objectOf parent ;;
    let msg :=
      match p with
      | Some p => "A child of " ++ str (Node.type p)
      | None => "A top-level node"
      end in
    throw (TypeError
             (msg ++ " ("
              ++ (if truthy (Node.filename n) then str (Node.filename n)
                  else "Jade")
              ++ ":" ++ strOfLine (Node.line n) ++ ")"
              ++ " is of type " ++ str (Node.type n) ++ ","
              ++ " which is not supported by jade-source-gen.")).

End HandlersAt.

(** The recursion.  A tree that a handler had rewritten could be of any
    depth, and the calls are no longer on the children of a value:
    [depth] is the number of nested calls the stack has room for. *)
Fixpoint visitNodeAt (depth : nat) (r : Ref) (parent : option Ref)
  (inline : bool) {struct depth} : M unit :=
  match depth with
  | O => throw RangeError
  | S d =>
      dispatchAt (visitNodeAt d) (visitCodeAt d) (visitConditionalAt d)
                 (visitFilterAt d) r parent inline
  end
with visitCodeAt (depth : nat) (r : Ref) (inline : bool)
  (parent : option Ref) {struct depth} : M unit :=
  match depth with
  | O => throw RangeError
  | S d => visitCodeBodyAt (visitNodeAt d) r inline parent
  end
with visitConditionalAt (depth : nat) (r : Ref) {struct depth} : M unit :=
  match depth with
  | O => throw RangeError
  | S d => visitConditionalBodyAt (visitNodeAt d) (visitConditionalAt d) r
  end
with visitFilterAt (depth : nat) (r : Ref) (inline : bool)
  (parent : option Ref) {struct depth} : M unit :=
  match depth with
  | O => throw RangeError
  | S d => visitFilterBodyAt (visitNodeAt d) (visitFilterAt d) r inline parent
  end.

(** [compile], on the tree that the compiler holds. *)
Definition compileAt (depth : nat) : M string :=
  write (setBuf []) ;;;
  visitAt (visitNodeAt depth) (Some []) None false ;;;
  read (fun this => join (str1 NL) (buf this)).

End GeneratorAt.

(** [this.node = cleanUpAST(node)]: the constructor has [cleanUpAST]
    rewrite the tree it is given, and keeps it. *)
Definition normalize : M unit :=
  fun this =>
    match cleanUpAST (node this) with
    | Normal n => Ok tt (setNode n this)
    | Abrupt e => Throw e this
    end.

(** The tree is cleaned, then compiled. *)
Definition generateAt (toConstant : string -> option jsval) (depth : nat)
  : M string :=
  normalize ;;; compileAt toConstant depth.
(** ** Vocabulary of the properties *)

(** The quote that is not [q]. *)
Definition otherQuote (q : ascii) : ascii := if Ascii.eqb q SQ then DQ else SQ.

(** [s] with a backslash before every occurrence of [q]. *)
Definition escapeEvery (q : ascii) (s : string) : string :=
  string_of_list_ascii
    (flat_map (fun c => if Ascii.eqb c q then [BS; q] else [c])
              (list_ascii_of_string s)).

Section AttrsVocabulary.

Variable toConstant : string -> option jsval.

(** The constant value of an attribute; the empty string when there is
    none. *)
Definition constOf (attr : Attr.t) : jsval :=
  match toConstant (Attr.val attr) with Some v => v | None => JString "" end.

(** An attribute that qualifies for the class shorthand, and one that
    qualifies for the id shorthand: unescaped, constant, and of the right
    shape. *)
Definition classShorthand (attr : Attr.t) : bool :=
  (String.eqb (Attr.name attr) "class" && negb (Attr.escaped attr)
   && jsTruthy (constOf attr) && isClassName (jsToString (constOf attr)))%bool.

Definition idShorthand (attr : Attr.t) : bool :=
  (String.eqb (Attr.name attr) "id" && negb (Attr.escaped attr)
   && jsTruthy (constOf attr) && isIdName (jsToString (constOf attr)))%bool.

Definition noShorthand (attr : Attr.t) : bool :=
  (negb (classShorthand attr) && negb (idShorthand attr))%bool.

(** An attribute as it stands between the parentheses. *)
Definition regularAttr (this : Compiler) (attr : Attr.t) : string :=
  (if isBareAttrName (Attr.name attr) then Attr.name attr
   else quote (replaceChar BS (String BS (str1 BS)) (Attr.name attr)) this)
  ++ (if jsIsTrue (constOf attr) then ""
      else (if Attr.escaped attr then "" else "!") ++ "=" ++ Attr.val attr).

(** The parenthesised list, present when there is something in it. *)
Definition parenthesised (l : list string) : string :=
  match l with
  | [] => ""
  | _ :: _ => "(" ++ join " " l ++ ")"
  end.

Definition classesOf (l : list Attr.t) : string :=
  String.concat "" (map (fun a => "." ++ jsToString (constOf a))
                        (List.filter classShorthand l)).

End AttrsVocabulary.

(** The div of the scenario, with its id attribute escaped or not. *)
Definition boxAttr (escaped : bool) : Attr.t :=
  Attr.mk "id" (String DQ "box" ++ str1 DQ) escaped.

Definition boxTag (escaped : bool) : Node.t :=
  Tag None "div" [boxAttr escaped] (Block None [Text None "Hi"]).

(** [if x] with an empty body and, for its else, [if y] with an empty
    body. *)
Definition chainedConditional : Node.t :=
  Conditional None "x" (Block None [])
    (Some (Conditional None "y" (Block None []) None)).

(** *** [useDot] *)

(** A child that lets the scan of [useDot] go on: a text, or a buffered
    code with no block. *)
Definition bufferedCode (n : Node.t) : bool :=
  (strIs (Node.type n) "Code" && Node.buffer n
   && match Node.block n with Some _ => false | None => true end)%bool.

Definition eligible (n : Node.t) : bool :=
  (strIs (Node.type n) "Text" || bufferedCode n)%bool.

(** An eligible child whose text, if it is a text, is there. *)
Definition scannable (n : Node.t) : bool :=
  if strIs (Node.type n) "Text"
  then match Node.val n with Some _ => true | None => false end
  else bufferedCode n.

(** The words of the texts of a list of children. *)
Fixpoint textWords (l : list Node.t) : Z :=
  match l with
  | [] => 0
  | n :: r =>
      (if strIs (Node.type n) "Text" then countWords (str (Node.val n)) else 0)
      + textWords r
  end.

(** For each child, whether it begins a line after the sibling before it
    (after the parent, for the first). *)
Fixpoint startFlags (prev : option Node.t) (l : list Node.t) : list bool :=
  match l with
  | [] => []
  | n :: r => startsLine n prev :: startFlags (Some n) r
  end.

(** The buffered codes that begin a line and follow a sibling that began
    one: [flags] are the flags of the children and [before] those of the
    siblings before them. *)
Fixpoint countOwnLine (l : list Node.t) (flags before : list bool) : Z :=
  match l, flags, before with
  | n :: l', f :: flags', p :: before' =>
      (if (bufferedCode n && f && p)%bool then 1 else 0)
      + countOwnLine l' flags' before'
  | _, _, _ => 0
  end.

Definition ownLineCodes (parent : option Node.t) (l : list Node.t) : Z :=
  countOwnLine l (startFlags parent l) (false :: startFlags parent l).

(** A block of ten words and [codes] buffered codes, each on its own line
    from line 2 on, that ends on line [lines]. *)
Definition sparseBlock (codes : nat) (lines : Z) : Node.t :=
  Block None
    (Text (Some 1) "one two three four five six seven eight nine ten"
     :: map (fun k => Code (Some (Z.of_nat k)) "x") (seq 2 codes)
     ++ [Text (Some lines) ""]).

(** *** [visit] *)

(** The properties of the compiler whose name begins with [visit]. *)
Definition handlerNames : list string :=
  [ "visit"; "visitPipelessText"; "visitPipelessTextBlock"; "visitCase";
    "visitWhen"; "visitNamedBlock"; "visitBlock"; "visitMixinBlock";
    "visitDoctype"; "visitMixin"; "visitTag"; "visitText"; "visitComment";
    "visitBlockComment"; "visitCode"; "visitConditional"; "visitWhile";
    "visitEach"; "visitExtends"; "visitFileReference"; "visitInclude";
    "visitFilter" ].

(** [this['visit' + type]] is there. *)
Definition hasHandler (type : option string) : bool :=
  existsb (String.eqb ("visit" ++ str type)) handlerNames.

(** [filename || 'Jade'], a colon and the line. *)
Definition location (n : Node.t) : string :=
  (if truthy (Node.filename n) then str (Node.filename n) else "Jade")
  ++ ":" ++ strOfLine (Node.line n).

(** A node of a type with no handler, on line 7 of a file with no name, and
    a block on line 3 of [layout.jade] for its parent; a compiler that has
    put out one line. *)
Definition unknownNode : Node.t :=
  Node.with_type (Some "Unknown") (Node.with_line (Some 7) Node.empty).

Definition layoutBlock : Node.t :=
  Node.with_filename (Some "layout.jade") (Block (Some 3) [unknownNode]).

Definition someCompiler : Compiler :=
  mkCompiler Options.default layoutBlock 0 false false ["doctype html"].

(** *** What a method leaves of the compiler

    [keeps] holds of the compiler before and after any step, whether it
    returns or throws: the options, the tree and [inline] are not written.
    [restores] holds once a method has returned: the depth and [nested]
    are back to what they were. *)

Definition keeps (this this' : Compiler) : Prop :=
  options this' = options this /\ node this' = node this
  /\ inline this' = inline this.

Definition restores (this this' : Compiler) : Prop :=
  indents this' = indents this /\ nested this' = nested this.

(** An exception that shows a node shows one of height [k] at most. *)
Definition exnWithin (k : nat) (e : exn) : Prop :=
  match e with
  | ErrorAbout _ x => (Node.height x <= k)%nat
  | _ => True
  end.

Definition tidy {A} (k : nat) (m : M A) : Prop :=
  forall this,
    match m this with
    | Ok _ this' => keeps this this' /\ restores this this'
    | Throw e this' => keeps this this' /\ exnWithin k e
    end.

(** A function with no state that shows no node when it throws. *)
Definition harmless {A} (m : completion A) : Prop :=
  match m with
  | Abrupt (ErrorAbout _ _) => False
  | _ => True
  end.

(** A filter whose block has a filter for its first child, and more
    children. *)
Definition malformedFilter (filter : Node.t) : Prop :=
  exists b first second rest,
    Node.block filter = Some b
    /\ Node.nodes b = Some (first :: second :: rest)
    /\ strIs (Node.type first) "Filter" = true.

(** *** [cleanUpAST] *)

(** A child that the callback of [cleanUpAST] replaces by its own
    children: a block that is no [yield]. *)
Definition isNestedBlock (n : Node.t) : bool :=
  (strIs (Node.type n) "Block" && negb (Node.yield n))%bool.

(** The children of a node, in the order of the walk. *)
Definition optList {A} (o : option A) : list A :=
  match o with Some x => [x] | None => [] end.

Definition children (n : Node.t) : list Node.t :=
  (match Node.nodes n with Some l => l | None => [] end
   ++ optList (Node.code n) ++ optList (Node.block n)
   ++ optList (Node.consequent n) ++ optList (Node.alternate n)
   ++ optList (Node.alternative n) ++ optList (Node.file n))%list.

(** [p] holds of a node and of every node below it. *)
Fixpoint everywhere (p : Node.t -> bool) (n : Node.t) : bool :=
  (p n
   && match Node.nodes n with
      | Some l => (fix all (l : list Node.t) : bool :=
                     match l with
                     | [] => true
                     | x :: r => everywhere p x && all r
                     end) l
      | None => true
      end
   && match Node.code n with Some x => everywhere p x | None => true end
   && match Node.block n with Some x => everywhere p x | None => true end
   && match Node.consequent n with Some x => everywhere p x | None => true end
   && match Node.alternate n with Some x => everywhere p x | None => true end
   && match Node.alternative n with Some x => everywhere p x | None => true end
   && match Node.file n with Some x => everywhere p x | None => true end)%bool.

(** A node that, if it is a [Block], has no child that is a block and no
    [yield]. *)
Definition noBlockChild (n : Node.t) : bool :=
  if strIs (Node.type n) "Block" then
    match Node.nodes n with
    | Some l => forallb (fun c => negb (isNestedBlock c)) l
    | None => true
    end
  else true.

(** No [Block] anywhere in the tree has a child that is a block and no
    [yield]. *)
Definition flat (n : Node.t) : bool := everywhere noBlockChild n.

(** Every [Block] of the tree has its array of children. *)
Definition blockHasNodes (n : Node.t) : bool :=
  if strIs (Node.type n) "Block" then
    match Node.nodes n with Some _ => true | None => false end
  else true.

Definition wellFormed (n : Node.t) : bool := everywhere blockHasNodes n.

Definition clean (n : Node.t) : bool :=
  everywhere (fun m => noBlockChild m && blockHasNodes m)%bool n.

(** The children of a block once the callback has run: each child that is
    a block and no [yield] gives way to the children of its own clean-up,
    the others stay, in the order of the list. *)
Fixpoint flatMapC (walk : Node.t -> completion Node.t) (l : list Node.t)
  : completion (list Node.t) :=
  match l with
  | [] => Normal []
  | c :: r =>
      if isNestedBlock c then
        andThen (walk c) (fun c' =>
          match Node.nodes c' with
          | None => Abrupt NativeTypeError
          | Some inner =>
              andThen (flatMapC walk r) (fun t => Normal (inner ++ t)%list)
          end)
      else andThen (flatMapC walk r) (fun t => Normal (c :: t))
  end.

(** What a clean-up of [n] may give: a clean tree no higher than [n], of
    the type of [n]; or, when some block of [n] has no array of children,
    the failure of the read of that array. *)
Definition cleanedFrom (n : Node.t) (r : completion Node.t) : Prop :=
  match r with
  | Normal n' =>
      clean n' = true /\ (Node.height n' <= Node.height n)%nat
      /\ Node.type n' = Node.type n /\ Node.yield n' = Node.yield n
  | Abrupt e => e = NativeTypeError /\ wellFormed n = false
  end.

(** The example of the source: a block in a block. *)
Definition nestedBlocks : Node.t :=
  Block (Some 1)
    [ Block (Some 1) [Tag (Some 1) "p" [] (Block (Some 1) [])];
      Tag (Some 2) "q" [] (Block (Some 2) []) ].

(** The example of the source once cleaned. *)
Definition flattenedBlocks : Node.t :=
  Block (Some 1)
    [ Tag (Some 1) "p" [] (Block (Some 1) []);
      Tag (Some 2) "q" [] (Block (Some 2) []) ].

(** The compiler as a method left it. *)
Definition stateOf {A} (r : Res A) : Compiler :=
  match r with Ok _ this | Throw _ this => this end.

(** A class, an attribute and an id, in that order. *)
Definition mixedAttrs : list Attr.t :=
  [ Attr.mk "class" (String DQ "a" ++ str1 DQ) false;
    Attr.mk "x" "y" true;
    boxAttr false ].

(** A filter on another, and a filter on another and a text. *)
Definition chainedFilters : Node.t :=
  Filter (Some 1) "outer" (Block (Some 1)
    [Filter (Some 1) "inner" (Block (Some 1) [])]).

Definition mixedFilter : Node.t :=
  Filter (Some 1) "outer" (Block (Some 1)
    [Filter (Some 1) "inner" (Block (Some 1) []); Text (Some 2) "x"]).

(** A paragraph with a code whose value has two lines. *)
Definition paragraph : Node.t :=
  Block (Some 0)
    [ Tag (Some 1) "p" []
        (Block (Some 1)
           [ Text (Some 2) "Hi";
             Node.with_buffer false
               (Code (Some 3) ("a" ++ String NL "b")) ]);
      Tag (Some 4) "q" [] (Block (Some 4) []) ].

(** *** The errors of [visitFilter] *)

(** The message of the error that [visitFilter] throws on a block with a
    filter for its first child, and more children. *)
Definition chainError : string :=
  "filter with more than one non-text nodes: ".

(** Whenever [m] throws that error, the node the error shows is a filter
    whose own block is malformed. *)
Definition blames {A} (m : M A) : Prop :=
  forall this this' x,
    m this = Throw (ErrorAbout chainError x) this' -> malformedFilter x.

(** An exception that, if it is that error, shows such a filter. *)
Definition blamed (e : exn) : Prop :=
  match e with
  | ErrorAbout msg x => msg = chainError -> malformedFilter x
  | _ => True
  end.

(** The compiler once the head of the filter is written: [#[] when the
    filter is inline, then the colon, the name and the attributes [a], on
    the line that is there when the filter is inline or nested, on a line
    of its own otherwise. *)
Definition filterBegun (filter : Node.t) (inline : bool) (a : string)
  (this : Compiler) : Compiler :=
  let this1 :=
    if inline then setBuf (appendLast "#[" (buf this)) this else this in
  let head := ":" ++ str (Node.name filter) ++ a in
  if (inline || nested this1)%bool
  then setBuf (appendLast head (buf this1)) this1
  else setBuf (buf this1 ++ [indent None this1 ++ head]) this1.

(** A filter whose only child is the filter on another and a text. *)
Definition wrappedFilter : Node.t :=
  Filter (Some 1) "wrap" (Block (Some 1) [mixedFilter]).

(** Two filters with attributes, the inner one with a body. *)
Definition dressedFilters : Node.t :=
  Node.with_attrs (Some [Attr.mk "x" "1" true])
    (Filter (Some 1) "outer" (Block (Some 1)
       [Node.with_attrs (Some [Attr.mk "y" "2" true])
          (Filter (Some 1) "inner" (Block (Some 1) [Text (Some 2) "body"]))])).

(** *** The tree that the compiler holds *)

(** A method that leaves the tree that the compiler holds as it found it,
    whether it returns or throws. *)
Definition keepsNode {A} (m : M A) : Prop :=
  forall this, node (stateOf (m this)) = node this.

(** What stands, once a block is cleaned, where its child [c] stood: the
    children of the cleaned [c] when [c] is a block and no [yield], the
    cleaned [c] alone otherwise. *)
Definition replacedBy (c : Node.t) (p : list Node.t) : Prop :=
  exists c',
    cleanUpAST c = Normal c'
    /\ if isNestedBlock c then Node.nodes c' = Some p else p = [c'].

(** A block in a block, twice, with siblings before, between and after;
    each tag on a line of its own. *)
Definition leaf (line : Z) (name : string) : Node.t :=
  Tag (Some line) name [] (Block (Some line) []).

Definition twoNested : Node.t :=
  Block (Some 1)
    [ leaf 1 "a";
      Block (Some 2) [leaf 2 "b"; Block (Some 3) [leaf 3 "c"]];
      leaf 4 "d";
      Block (Some 5) [leaf 5 "e"];
      leaf 6 "f" ].

(** The compiler that [new Compiler(node, options)] sets up, before the
    tree is cleaned, and with a line in [buf]. *)
Definition holding (n : Node.t) : Compiler :=
  mkCompiler Options.default n (-1) false false ["doctype html"].

(** *** The two ways to give the visitor *)

(** Two methods that do the same whenever the compiler holds the tree
    [t]. *)
Definition agreeIn (t : Node.t) {A} (m1 m2 : M A) : Prop :=
  forall this, node this = t -> m1 this = m2 this.

(** The reference [parent] names the node [p] of the tree [t], or there
    is no parent. *)
Definition parentIn (t : Node.t) (parent : option Ref)
  (p : option Node.t) : Prop :=
  match parent, p with
  | Some pr, Some pn => resolve pr t = Some pn
  | None, None => True
  | _, _ => False
  end.

(** The reference [on] names the node [o] of the tree [t], which is no
    higher than [d]; or both are [undefined]. *)
Definition childIn (t : Node.t) (d : nat) (on : option Ref)
  (o : option Node.t) : Prop :=
  match on, o with
  | Some r, Some n => resolve r t = Some n /\ (Node.height n <= d)%nat
  | None, None => True
  | _, _ => False
  end.

(** ** Vocabulary of further properties *)

(** *** Interpolation openers *)

(** [s] begins with an interpolation opener: a [#] and an opening bracket
    or brace. *)
Definition startsOpener (s : string) : bool :=
  match s with
  | String a (String b _) => (Ascii.eqb a "#" && isOpening b)%bool
  | _ => false
  end.

(** Every opener of [s] has a backslash before it; [escaped] tells whether
    a backslash stands before [s]. *)
Fixpoint openersEscaped (escaped : bool) (s : string) : bool :=
  match s with
  | EmptyString => true
  | String a t =>
      ((if startsOpener s then escaped else true)
       && openersEscaped (Ascii.eqb a BS) t)%bool
  end.

(** [s] has an opener somewhere. *)
Fixpoint hasOpener (s : string) : bool :=
  match s with
  | EmptyString => false
  | String _ t => (startsOpener s || hasOpener t)%bool
  end.

(** [s] has an opener with a backslash before it. *)
Fixpoint hasEscapedOpener (s : string) : bool :=
  match s with
  | EmptyString => false
  | String a t => (Ascii.eqb a BS && startsOpener t || hasEscapedOpener t)%bool
  end.

(** *** [attrs] *)

(** Two ids with an attribute between them, and a class. *)
Definition twoIds : list Attr.t :=
  [ Attr.mk "id" (String DQ "a" ++ str1 DQ) false;
    Attr.mk "href" "u" true;
    Attr.mk "id" (String DQ "b" ++ str1 DQ) false;
    Attr.mk "class" (String DQ "c" ++ str1 DQ) false ].

(** An escaped class and an id that is no constant. *)
Definition plainAttrs : list Attr.t :=
  [ Attr.mk "class" (String DQ "c" ++ str1 DQ) true;
    Attr.mk "id" "name" false ].

(** *** What is written *)

(** The text written so far: the lines, joined as [compile] joins them. *)
Definition written (this : Compiler) : string := join (str1 NL) (buf this).

(** [this'] has the text of [this], and maybe more after it. *)
Definition extends (this this' : Compiler) : Prop :=
  exists more, written this' = written this ++ more.

(** A method that only adds to the text, whether it returns or throws. *)
Definition appends {A} (m : M A) : Prop :=
  forall this, extends this (stateOf (m this)).

(** *** A child that is not there *)

(** The message of [visit] for a missing child of [parent]. *)
Definition missingChildOf (parent : Node.t) : string :=
  "A child of " ++ str (Node.type parent) ++ " (" ++ location parent
  ++ ") is undefined, expected a Jade AST Node.".

(** A loop on line 4 with no block, and an [extends] with no file. *)
Definition bareWhile : Node.t :=
  Node.with_type (Some "While")
    (Node.with_line (Some 4) (Node.with_test (Some "x") Node.empty)).

Definition bareExtends : Node.t :=
  Node.with_type (Some "Extends") (Node.with_line (Some 1) Node.empty).

(** *** Pipeless text *)






(** *** The depth of what is written *)

(** A line that begins with the indentation of depth [d], the unit being
    [c]. *)
Definition startsAt (c : string) (d : Z) (line : string) : Prop :=
  exists rest, line = repeat c d ++ rest.

(** [this'] has the lines of [this], the last one maybe longer, and then
    lines at depth [d] or deeper; its unit of indentation is [c]. *)
Definition under (c : string) (d : Z) (this this' : Compiler) : Prop :=
  Options.indentChar (options this') = c
  /\ exists s more,
       buf this' = (appendLast s (buf this) ++ more)%list
       /\ Forall (startsAt c d) more.

(** A method that, called at depth [d] or deeper, adds lines at depth [d]
    or deeper only, and leaves the depth as it found it when it returns. *)
Definition nests (c : string) (d : Z) {A} (m : M A) : Prop :=
  forall this,
    Options.indentChar (options this) = c -> (d <= indents this)%Z ->
    match m this with
    | Ok _ this' => indents this' = indents this /\ under c d this this'
    | Throw _ this' => under c d this this'
    end.
(** * Properties *)

(** ** The string primitives on examples *)

Example escapeOpeners_example :
  escapeOpeners "a #{b} \#[c] #d \\#{e}" = "a \#{b} \#[c] #d \\#{e}".
Proof. reflexivity. Qed.

Example escapeBareOpeners_example :
  escapeBareOpeners "\#{x} ##[y]" = "\\#{x} #\#[y]".
Proof. reflexivity. Qed.

Example countWords_example : countWords "one two-three four  five" = 4.
Proof. reflexivity. Qed.

Example isClassName_example :
  (isClassName "-foo_1", isClassName "1a", isClassName "-",
   isClassName "Ab-c", isClassName "a b")
  = (true, false, false, true, false).
Proof. reflexivity. Qed.

Example isIdName_example :
  (isIdName "1-a_B", isIdName "", isIdName "a.b") = (true, false, false).
Proof. reflexivity. Qed.

Example isBareAttrName_example :
  (isBareAttrName "data-x", isBareAttrName "(click)", isBareAttrName "a b",
   isBareAttrName "x'y", isBareAttrName "@click")
  = (true, false, false, false, false).
Proof. reflexivity. Qed.

Example repeat_example :
  (repeat "ab" 3, repeat "ab" 0, repeat "ab" (-1)) = ("ababab", "", "").
Proof. reflexivity. Qed.

(** ** [quote] *)

Lemma replaceChar_absent (c : ascii) (by_ s : string) :
  hasChar c s = false -> replaceChar c by_ s = s.
Proof.
  induction s as [|a t IH]; simpl; [reflexivity|].
  destruct (Ascii.eqb a c); simpl; [discriminate|].
  intros H; rewrite IH; auto.
Qed.

Lemma replaceChar_escapeEvery (q : ascii) (s : string) :
  replaceChar q (String BS (str1 q)) s = escapeEvery q s.
Proof.
  unfold escapeEvery.
  induction s as [|a t IH]; simpl; [reflexivity|].
  destruct (Ascii.eqb a q) eqn:E; simpl.
  - apply Ascii.eqb_eq in E; subst a. now rewrite IH.
  - now rewrite IH.
Qed.

(** C2.  With the preferred quote [q], one of the two quotes, [quote] wraps
    the value in the other quote, unescaped, exactly when the value contains
    [q] and not the other quote; otherwise it wraps it in [q] with every
    occurrence of [q] escaped by a backslash.  So a value with [q] only goes
    between the other quotes, a value without [q] goes between [q]
    unchanged, and a value with both goes between [q], escaped. *)
Theorem quote_selection (v : string) (q : ascii) (this : Compiler) :
  q = SQ \/ q = DQ ->
  Options.preferredQuote (options this) = str1 q ->
  let o := otherQuote q in
  quote v this =
    (if (hasChar q v && negb (hasChar o v))%bool
     then str1 o ++ v ++ str1 o
     else str1 q ++ escapeEvery q v ++ str1 q)
  /\ (hasChar q v = true -> hasChar o v = false ->
      quote v this = str1 o ++ v ++ str1 o)
  /\ (hasChar q v = false -> quote v this = str1 q ++ v ++ str1 q)
  /\ (hasChar q v = true -> hasChar o v = true ->
      quote v this = str1 q ++ escapeEvery q v ++ str1 q).
Proof.
  intros Hq Hpref o.
  assert (E : quote v this =
    (if (hasChar q v && negb (hasChar o v))%bool
     then str1 o ++ v ++ str1 o
     else str1 q ++ escapeEvery q v ++ str1 q)).
  { unfold quote. rewrite Hpref. subst o.
    destruct Hq; subst q; simpl;
      rewrite <- replaceChar_escapeEvery; reflexivity. }
  split; [exact E|].
  split; [|split].
  - intros H1 H2. rewrite E, H1, H2. reflexivity.
  - intros H1. rewrite E, H1. simpl.
    rewrite <- replaceChar_escapeEvery, replaceChar_absent; auto.
  - intros H1 H2. rewrite E, H1, H2. reflexivity.
Qed.

Lemma append_assoc (a b c : string) : (a ++ b) ++ c = a ++ b ++ c.
Proof. induction a as [|x a IH]; simpl; [reflexivity|now rewrite IH]. Qed.

Lemma append_nil_r (a : string) : a ++ "" = a.
Proof. induction a as [|x a IH]; simpl; [reflexivity|now rewrite IH]. Qed.

Section AttrsProperties.

Variable toConstant : string -> option jsval.


Lemma classShorthand_not_id (a : Attr.t) :
  classShorthand toConstant a = true -> idShorthand toConstant a = false.
Proof.
  unfold classShorthand, idShorthand.
  destruct (String.eqb (Attr.name a) "class") eqn:E; simpl; [|discriminate].
  apply String.eqb_eq in E. rewrite E. reflexivity.
Qed.

Lemma concat_cons_nonempty (x : string) (l : list string) :
  String.concat "" (x :: l) = x ++ String.concat "" l.
Proof. destruct l; simpl; [now rewrite append_nil_r|reflexivity]. Qed.

Lemma attrsEach_class (this : Compiler) (st : attrsState) (a : Attr.t) :
  classShorthand toConstant a = true ->
  attrsEach toConstant this st a =
    mkAttrsState (regularAttrs st)
      (classes st ++ "." ++ jsToString (constOf toConstant a)) (id_ st).
Proof.
  intros H. unfold attrsEach. unfold classShorthand, constOf in H.
  rewrite H. reflexivity.
Qed.

Lemma attrsEach_id (this : Compiler) (st : attrsState) (a : Attr.t) :
  idShorthand toConstant a = true -> id_ st = None ->
  attrsEach toConstant this st a =
    mkAttrsState (regularAttrs st) (classes st) (Some (constOf toConstant a)).
Proof.
  intros H Hst. unfold attrsEach, constOf. rewrite Hst.
  unfold idShorthand, constOf in H.
  destruct (String.eqb (Attr.name a) "id") eqn:En; [|discriminate].
  apply String.eqb_eq in En. rewrite En in *. simpl in *.
  destruct (Attr.escaped a); [discriminate|]. simpl in *.
  rewrite H. reflexivity.
Qed.

Lemma attrsEach_regular (this : Compiler) (st : attrsState) (a : Attr.t) :
  classShorthand toConstant a = false ->
  idShorthand toConstant a = false ->
  attrsEach toConstant this st a =
    mkAttrsState (regularAttrs st ++ [regularAttr toConstant this a])
                 (classes st) (id_ st).
Proof.
  intros Hc Hi. unfold attrsEach, regularAttr.
  unfold classShorthand, constOf in Hc. rewrite Hc.
  unfold idShorthand, constOf in Hi.
  replace (String.eqb (Attr.name a) "id"
           && negb match id_ st with
                   | Some v => jsTruthy v | None => false end
           && negb (Attr.escaped a)
           && jsTruthy match toConstant (Attr.val a) with
                       | Some v => v | None => JString "" end
           && isIdName (jsToString match toConstant (Attr.val a) with
                                   | Some v => v | None => JString "" end))%bool
    with false.
  2:{ destruct (String.eqb (Attr.name a) "id"); simpl in *; auto.
      destruct (negb match id_ st with
                     | Some v => jsTruthy v | None => false end);
        simpl; auto. }
  unfold constOf.
  destruct (jsIsTrue match toConstant (Attr.val a) with
                     | Some v => v | None => JString "" end);
    [now rewrite append_nil_r|reflexivity].
Qed.

Lemma classesOf_cons (a : Attr.t) (l : list Attr.t) :
  classesOf toConstant (a :: l) =
    (if classShorthand toConstant a
     then "." ++ jsToString (constOf toConstant a) else "")
    ++ classesOf toConstant l.
Proof.
  unfold classesOf. simpl List.filter.
  destruct (classShorthand toConstant a); [|reflexivity].
  simpl map. now rewrite concat_cons_nonempty.
Qed.

Lemma noShorthand_false (a : Attr.t) :
  classShorthand toConstant a = true \/ idShorthand toConstant a = true ->
  noShorthand toConstant a = false.
Proof.
  unfold noShorthand. intros [H|H]; rewrite H; simpl; auto using andb_false_r.
Qed.

Lemma noShorthand_true (a : Attr.t) :
  classShorthand toConstant a = false -> idShorthand toConstant a = false ->
  noShorthand toConstant a = true.
Proof. unfold noShorthand. now intros -> ->. Qed.

(** The loop over a list with no attribute that qualifies as id. *)
Lemma attrs_loop_no_id (this : Compiler) (l : list Attr.t) (st : attrsState) :
  List.filter (idShorthand toConstant) l = [] ->
  fold_left (attrsEach toConstant this) l st =
    mkAttrsState
      (regularAttrs st
       ++ map (regularAttr toConstant this)
              (List.filter (noShorthand toConstant) l))
      (classes st ++ classesOf toConstant l)
      (id_ st).
Proof.
  revert st. induction l as [|a l IH]; intros st Hid.
  - simpl. unfold classesOf; simpl.
    rewrite app_nil_r, append_nil_r. destruct st; reflexivity.
  - simpl in Hid. destruct (idShorthand toConstant a) eqn:Ea; [discriminate|].
    simpl fold_left. rewrite IH by assumption. clear IH.
    rewrite classesOf_cons. simpl List.filter.
    destruct (classShorthand toConstant a) eqn:Ec.
    + rewrite attrsEach_class by assumption.
      rewrite (noShorthand_false a) by (now left). simpl.
      f_equal. now rewrite !append_assoc.
    + rewrite attrsEach_regular by assumption.
      rewrite (noShorthand_true a) by assumption. simpl.
      f_equal. now rewrite <- app_assoc.
Qed.

(** The loop over a list with exactly one attribute that qualifies as id,
    begun with no id. *)
Lemma attrs_loop_one_id (this : Compiler) (l : list Attr.t) (st : attrsState)
  (i : Attr.t) :
  id_ st = None ->
  List.filter (idShorthand toConstant) l = [i] ->
  fold_left (attrsEach toConstant this) l st =
    mkAttrsState
      (regularAttrs st
       ++ map (regularAttr toConstant this)
              (List.filter (noShorthand toConstant) l))
      (classes st ++ classesOf toConstant l)
      (Some (constOf toConstant i)).
Proof.
  revert st. induction l as [|a l IH]; intros st Hst Hid; [discriminate|].
  simpl in Hid. simpl fold_left. rewrite classesOf_cons.
  simpl List.filter.
  destruct (idShorthand toConstant a) eqn:Ea.
  - injection Hid as -> Hid.
    assert (Ec : classShorthand toConstant i = false).
    { destruct (classShorthand toConstant i) eqn:E; auto.
      apply classShorthand_not_id in E. congruence. }
    rewrite attrsEach_id, attrs_loop_no_id by assumption.
    rewrite (noShorthand_false i) by (now right).
    rewrite Ec. reflexivity.
  - destruct (classShorthand toConstant a) eqn:Ec.
    + rewrite attrsEach_class by assumption.
      rewrite IH by assumption.
      rewrite (noShorthand_false a) by (now left). simpl.
      f_equal. now rewrite !append_assoc.
    + rewrite attrsEach_regular by assumption.
      rewrite IH by assumption.
      rewrite (noShorthand_true a) by assumption. simpl.
      f_equal. now rewrite <- app_assoc.
Qed.

Lemma filter_Permutation {A} (p : A -> bool) (l l' : list A) :
  Permutation l l' -> Permutation (List.filter p l) (List.filter p l').
Proof.
  induction 1 as [|x l l' _ IH|x y l|l l' l'' _ IH1 _ IH2]; simpl.
  - constructor.
  - destruct (p x); [now constructor|assumption].
  - destruct (p x), (p y); try apply Permutation_refl. apply perm_swap.
  - now apply perm_trans with (List.filter p l').
Qed.

Lemma attrs_closed_form (this : Compiler) (l : list Attr.t) (i c : Attr.t) :
  List.filter (idShorthand toConstant) l = [i] ->
  List.filter (classShorthand toConstant) l = [c] ->
  attrs toConstant (Some l) this =
    Normal ("#" ++ jsToString (constOf toConstant i)
            ++ "." ++ jsToString (constOf toConstant c)
            ++ parenthesised
                 (map (regularAttr toConstant this)
                      (List.filter (noShorthand toConstant) l))).
Proof.
  intros Hi Hc. unfold attrs.
  rewrite attrs_loop_one_id with (i := i); [|reflexivity|assumption].
  unfold attrsOut. cbn [regularAttrs classes id_].
  unfold classesOf. rewrite Hc.
  assert (Ht : jsTruthy (constOf toConstant i) = true).
  { assert (Hin : In i (List.filter (idShorthand toConstant) l))
      by (rewrite Hi; now left).
    apply filter_In in Hin. destruct Hin as [_ Hq].
    unfold idShorthand in Hq.
    destruct (jsTruthy (constOf toConstant i)); auto.
    rewrite !andb_false_r in Hq. simpl in Hq.
    destruct (String.eqb (Attr.name i) "id" && negb (Attr.escaped i))%bool;
      discriminate. }
  rewrite Ht. simpl app. simpl String.concat.
  f_equal. unfold parenthesised.
  destruct (map (regularAttr toConstant this)
                (List.filter (noShorthand toConstant) l)).
  - simpl. now rewrite ?append_assoc, ?append_nil_r.
  - simpl. rewrite ?append_assoc. simpl. reflexivity.
Qed.

(** C3.  For a list of attributes with one attribute that qualifies for the
    id shorthand and one that qualifies for the class shorthand, [attrs]
    returns the id shorthand, then the class shorthand, then the other
    attributes between parentheses, in the order of the list, the
    parentheses being there only when an attribute remains.  The result is
    that of any other order of the list that keeps the other attributes in
    their order. *)
Theorem attrs_shorthand_order (this : Compiler) (l : list Attr.t)
  (i c : Attr.t) :
  List.filter (idShorthand toConstant) l = [i] ->
  List.filter (classShorthand toConstant) l = [c] ->
  attrs toConstant (Some l) this =
    Normal ("#" ++ jsToString (constOf toConstant i)
            ++ "." ++ jsToString (constOf toConstant c)
            ++ parenthesised
                 (map (regularAttr toConstant this)
                      (List.filter (noShorthand toConstant) l)))
  /\ (forall l',
        Permutation l l' ->
        List.filter (noShorthand toConstant) l'
        = List.filter (noShorthand toConstant) l ->
        attrs toConstant (Some l') this = attrs toConstant (Some l) this).
Proof.
  intros Hi Hc. split; [now apply attrs_closed_form|].
  intros l' Hperm Hrest.
  assert (Hi' : List.filter (idShorthand toConstant) l' = [i]).
  { apply Permutation_length_1_inv. rewrite <- Hi.
    now apply filter_Permutation. }
  assert (Hc' : List.filter (classShorthand toConstant) l' = [c]).
  { apply Permutation_length_1_inv. rewrite <- Hc.
    now apply filter_Permutation. }
  rewrite attrs_closed_form with (l := l') (i := i) (c := c) by assumption.
  rewrite attrs_closed_form with (l := l) (i := i) (c := c) by assumption.
  now rewrite Hrest.
Qed.

End AttrsProperties.

(** ** The scenarios *)

Section Scenarios.

Variable toConstant : string -> option jsval.

(** C4, as the generator has it.  With a constant folder that folds the
    literal to the string [box]: the id attribute of the div becomes the
    shorthand, and the tag name is left out, when the attribute is not
    escaped; the result is [#box Hi].  When it is escaped, as in the
    scenario, it stays between the parentheses and the tag name stays. *)
Theorem box_scenario :
  toConstant (String DQ "box" ++ str1 DQ) = Some (JString "box") ->
  generateCode toConstant (boxTag false) Options.default = Normal "#box Hi"
  /\ generateCode toConstant (boxTag true) Options.default =
       Normal ("div(id=" ++ String DQ "box" ++ String DQ ") Hi").
Proof.
  intros H. vm_compute in H.
  split; vm_compute; rewrite H; reflexivity.
Qed.

(** C5, what the generator does: the else of a chained conditional and the
    if that follows it are two lines, so the output has three. *)
Theorem chained_conditional_runs :
  generateCode toConstant chainedConditional Options.default =
    Normal ("if x" ++ String NL "else " ++ String NL "if y").
Proof. vm_compute. reflexivity. Qed.

End Scenarios.

(** ** [useDot] *)

Lemma bufferedCode_not_text (n : Node.t) :
  strIs (Node.type n) "Text" = true -> bufferedCode n = false.
Proof.
  unfold bufferedCode, strIs. destruct (Node.type n) as [t|]; [|discriminate].
  intros H. apply String.eqb_eq in H. subst t. reflexivity.
Qed.

Lemma useDotLoop_scan (lines : option Z) (l : list Node.t) :
  forall (prev : option Node.t) (words codes : Z) (prevStart : bool),
  forallb scannable l = true ->
  useDotLoop lines prev words codes prevStart l =
    Normal ((0 <? words + textWords l)
            && ratioBelow
                 (codes + countOwnLine l (startFlags prev l)
                                       (prevStart :: startFlags prev l))
                 lines)%bool.
Proof.
  induction l as [|n r IH]; intros prev words codes prevStart Hall.
  - simpl. now rewrite !Z.add_0_r.
  - simpl in Hall. apply andb_true_iff in Hall. destruct Hall as [Hn Hr].
    unfold scannable in Hn. simpl useDotLoop.
    destruct (strIs (Node.type n) "Text") eqn:Et.
    + destruct (Node.val n) as [v|] eqn:Ev; [|discriminate].
      rewrite IH by assumption. simpl.
      rewrite Et, (bufferedCode_not_text n Et), Ev. simpl.
      now rewrite Z.add_assoc.
    + fold (bufferedCode n). rewrite Hn, IH by assumption. simpl.
      rewrite Et, Hn. simpl.
      destruct (startsLine n prev && prevStart)%bool;
        now rewrite ?Z.add_assoc, ?Z.add_0_r.
Qed.

Lemma useDotLoop_stop (lines : option Z) (pre : list Node.t) (x : Node.t)
  (post : list Node.t) :
  forall (prev : option Node.t) (words codes : Z) (prevStart : bool),
  forallb scannable pre = true -> eligible x = false ->
  useDotLoop lines prev words codes prevStart (pre ++ x :: post) = Normal false.
Proof.
  induction pre as [|n r IH]; intros prev words codes prevStart Hall Hx.
  - simpl. unfold eligible in Hx. apply orb_false_iff in Hx.
    destruct Hx as [Ht Hc]. rewrite Ht. fold (bufferedCode x). now rewrite Hc.
  - simpl in Hall. apply andb_true_iff in Hall. destruct Hall as [Hn Hr].
    unfold scannable in Hn. simpl.
    destruct (strIs (Node.type n) "Text") eqn:Et.
    + destruct (Node.val n) as [v|]; [|discriminate]. now apply IH.
    + fold (bufferedCode n). rewrite Hn. now apply IH.
Qed.

Lemma last_nonempty {A} (l : list A) (x d d' : A) :
  List.last (x :: l) d = List.last (x :: l) d'.
Proof.
  revert x. induction l as [|y l IH]; intros x; [reflexivity|].
  change (List.last (y :: l) d = List.last (y :: l) d'). apply IH.
Qed.

(** C6.  [useDot] is false for a block with no child and for a block whose
    children span one line; it is false as soon as the scan meets a child
    that is neither a text nor a buffered code with no block; otherwise it
    holds exactly when the texts have a word and the number of codes on a
    line of their own, over the span, is strictly below 0.35.  With ten
    words, seven such codes over twenty lines are refused and seventeen
    over fifty are accepted. *)
Theorem useDot_decision (block : Node.t) (parent : option Node.t)
  (nodes : list Node.t) :
  Node.nodes block = Some nodes ->
  let span := lineSpan (Node.line (hd block nodes))
                       (Node.line (List.last nodes block)) in
  let decided :=
    nodes <> [] /\ span <> Some 1 /\ forallb scannable nodes = true in
  (nodes = [] -> useDot block parent = Normal false)
  /\ (nodes <> [] -> span = Some 1 -> useDot block parent = Normal false)
  /\ (forall pre x post,
        nodes = pre ++ x :: post ->
        forallb scannable pre = true -> eligible x = false ->
        useDot block parent = Normal false)%list
  /\ (decided ->
      useDot block parent =
        Normal ((0 <? textWords nodes)
                && ratioBelow (ownLineCodes parent nodes) span)%bool)
  /\ (decided -> textWords nodes = 10 ->
      ownLineCodes parent nodes = 7 -> span = Some 20 ->
      useDot block parent = Normal false)
  /\ (decided -> textWords nodes = 10 ->
      ownLineCodes parent nodes = 17 -> span = Some 50 ->
      useDot block parent = Normal true).
Proof.
  intros Hn span decided.
  assert (Hspan : forall first rest,
             nodes = first :: rest ->
             lineSpan (Node.line first) (Node.line (List.last nodes first))
             = span).
  { intros first rest E. unfold span. subst nodes.
    now rewrite (last_nonempty rest first first block). }
  assert (Hdecided : decided ->
            useDot block parent =
              Normal ((0 <? textWords nodes)
                      && ratioBelow (ownLineCodes parent nodes) span)%bool).
  { intros (Hne & Hs & Hall). unfold useDot. rewrite Hn.
    destruct nodes as [|first rest] eqn:E; [congruence|].
    rewrite (Hspan first rest eq_refl).
    destruct (lineEq span (Some 1)) eqn:El.
    - exfalso. apply Hs. unfold lineEq, optEqb in El.
      destruct span as [z|]; [|discriminate].
      apply Z.eqb_eq in El. now subst z.
    - rewrite useDotLoop_scan by assumption. reflexivity. }
  split; [intros ->; unfold useDot; now rewrite Hn|].
  split.
  { intros Hne Hs. unfold useDot. rewrite Hn.
    destruct nodes as [|first rest] eqn:E; [congruence|].
    rewrite (Hspan first rest eq_refl), Hs. reflexivity. }
  split.
  { intros pre x post E Hpre Hx. unfold useDot. rewrite Hn.
    destruct nodes as [|first rest] eqn:E'; [destruct pre; discriminate|].
    rewrite (Hspan first rest eq_refl).
    destruct (lineEq span (Some 1)); [reflexivity|].
    rewrite E. now apply useDotLoop_stop. }
  split; [exact Hdecided|].
  split; intros Hd Hw Hc Hs; rewrite (Hdecided Hd), Hw, Hc, Hs; reflexivity.
Qed.

(** ** [visit] *)

Section VisitProperties.

Variable toConstant : string -> option jsval.

Lemma visitNode_eq (n : Node.t) (parent : option Node.t) (inline : bool) :
  visitNode toConstant n parent inline =
    dispatch toConstant (visitNode toConstant) (visitCode toConstant)
             (visitConditional toConstant) (visitFilter toConstant)
             n parent inline.
Proof. destruct n; reflexivity. Qed.

Lemma visitCode_eq (n : Node.t) (inline : bool) (parent : option Node.t) :
  visitCode toConstant n inline parent =
    visitCodeBody (visitNode toConstant) n inline parent.
Proof. destruct n; reflexivity. Qed.

Lemma visitConditional_eq (n : Node.t) :
  visitConditional toConstant n =
    visitConditionalBody (visitNode toConstant)
                         (visitConditional toConstant) n.
Proof. destruct n; reflexivity. Qed.

Lemma visitFilter_eq (n : Node.t) (inline : bool) (parent : option Node.t) :
  visitFilter toConstant n inline parent =
    visitFilterBody toConstant (visitNode toConstant)
                    (visitFilter toConstant) n inline parent.
Proof. destruct n; reflexivity. Qed.

Lemma no_handler_strIs (type : option string) (name : string) :
  hasHandler type = false ->
  In ("visit" ++ name) handlerNames ->
  strIs type name = false.
Proof.
  intros H Hin. unfold strIs. destruct type as [t|]; [|reflexivity].
  destruct (String.eqb t name) eqn:E; [|reflexivity].
  apply String.eqb_eq in E. subst t.
  unfold hasHandler in H.
  assert (Ht : existsb (String.eqb ("visit" ++ str (Some name))) handlerNames
               = true).
  { apply existsb_exists. exists ("visit" ++ name). split; [assumption|].
    apply String.eqb_refl. }
  congruence.
Qed.

(** C7, as the generator has it.  For a node whose type has no handler,
    [visit] throws a [TypeError] and leaves the compiler, its lines
    included, as it found it.  The message names the parent by its type
    (or says that the node is at the top), then the place of the node
    itself, its file name or [Jade] and its line, then the type of the
    node. *)
Theorem visit_unsupported (n : Node.t) (parent : option Node.t)
  (inline : bool) (this : Compiler) :
  hasHandler (Node.type n) = false ->
  visit (visitNode toConstant) (Some n) parent inline this =
    Throw (TypeError
             (match parent with
              | Some p => "A child of " ++ str (Node.type p)
              | None => "A top-level node"
              end
              ++ " (" ++ location n ++ ") is of type " ++ str (Node.type n)
              ++ ", which is not supported by jade-source-gen."))
          this.
Proof.
  intros H. unfold visit. rewrite visitNode_eq. unfold dispatch.
  rewrite !(no_handler_strIs _ H) by (simpl; tauto).
  unfold throw, location. do 2 f_equal.
  now rewrite !append_assoc.
Qed.

End VisitProperties.

(** ** The height of the children of a node *)

Lemma height_eq (n : Node.t) :
  Node.height n =
    S (Nat.max (match Node.nodes n with
                | Some l => Node.heights l | None => O end)
      (Nat.max (match Node.code n with
                | Some x => Node.height x | None => O end)
      (Nat.max (match Node.block n with
                | Some x => Node.height x | None => O end)
      (Nat.max (match Node.consequent n with
                | Some x => Node.height x | None => O end)
      (Nat.max (match Node.alternate n with
                | Some x => Node.height x | None => O end)
      (Nat.max (match Node.alternative n with
                | Some x => Node.height x | None => O end)
               (match Node.file n with
                | Some x => Node.height x | None => O end))))))).
Proof.
  destruct n as [? ? ? nodes ? ? ? ? ? ? ? ? ? ? ? ? ? ? ? ? ? ? ? ? ? ? ? ?].
  simpl. do 2 f_equal.
Qed.

Lemma heights_In (l : list Node.t) (x : Node.t) :
  In x l -> (Node.height x <= Node.heights l)%nat.
Proof.
  induction l as [|y l IH]; simpl; [tauto|].
  intros [->|H]; [lia|]. specialize (IH H). lia.
Qed.

Lemma height_nodes (n : Node.t) (l : list Node.t) (x : Node.t) :
  Node.nodes n = Some l -> In x l -> (Node.height x < Node.height n)%nat.
Proof.
  intros H Hin. rewrite (height_eq n), H.
  pose proof (heights_In l x Hin). lia.
Qed.

Lemma height_code (n x : Node.t) :
  Node.code n = Some x -> (Node.height x < Node.height n)%nat.
Proof. intros H. rewrite (height_eq n), H. lia. Qed.

Lemma height_block (n x : Node.t) :
  Node.block n = Some x -> (Node.height x < Node.height n)%nat.
Proof. intros H. rewrite (height_eq n), H. lia. Qed.

Lemma height_consequent (n x : Node.t) :
  Node.consequent n = Some x -> (Node.height x < Node.height n)%nat.
Proof. intros H. rewrite (height_eq n), H. lia. Qed.

Lemma height_alternate (n x : Node.t) :
  Node.alternate n = Some x -> (Node.height x < Node.height n)%nat.
Proof. intros H. rewrite (height_eq n), H. lia. Qed.

Lemma height_alternative (n x : Node.t) :
  Node.alternative n = Some x -> (Node.height x < Node.height n)%nat.
Proof. intros H. rewrite (height_eq n), H. lia. Qed.

Lemma height_file (n x : Node.t) :
  Node.file n = Some x -> (Node.height x < Node.height n)%nat.
Proof. intros H. rewrite (height_eq n), H. lia. Qed.

Lemma height_pos (n : Node.t) : (0 < Node.height n)%nat.
Proof. rewrite height_eq. lia. Qed.

(** ** What the methods leave of the compiler: the rules *)

Lemma keeps_refl (this : Compiler) : keeps this this.
Proof. repeat split. Qed.

Lemma keeps_trans (a b c : Compiler) : keeps a b -> keeps b c -> keeps a c.
Proof. unfold keeps. intuition congruence. Qed.

Lemma restores_refl (this : Compiler) : restores this this.
Proof. repeat split. Qed.

Lemma restores_trans (a b c : Compiler) :
  restores a b -> restores b c -> restores a c.
Proof. unfold restores. intuition congruence. Qed.

Lemma exnWithin_mono (k k' : nat) (e : exn) :
  (k <= k')%nat -> exnWithin k e -> exnWithin k' e.
Proof. destruct e; simpl; auto. lia. Qed.

Section TidyRules.

Variable k : nat.

Lemma tidy_mono {A} (k' : nat) (m : M A) :
  (k' <= k)%nat -> tidy k' m -> tidy k m.
Proof.
  intros Hk H this. specialize (H this). destruct (m this); [assumption|].
  destruct H. split; [assumption|]. eapply exnWithin_mono; eauto.
Qed.

Lemma tidy_ret {A} (a : A) : tidy k (ret a).
Proof. intros this. simpl. split; [apply keeps_refl|apply restores_refl]. Qed.

Lemma tidy_throw {A} (e : exn) : exnWithin k e -> tidy k (@throw A e).
Proof. intros H this. simpl. split; [apply keeps_refl|assumption]. Qed.

Lemma tidy_bind {A B} (m : M A) (f : A -> M B) :
  tidy k m -> (forall a, tidy k (f a)) -> tidy k (bind m f).
Proof.
  intros Hm Hf this. unfold bind. specialize (Hm this).
  destruct (m this) as [a this1|e this1]; [|assumption].
  specialize (Hf a this1). destruct Hm as [K1 R1].
  destruct (f a this1) as [b this2|e this2]; destruct Hf as [K2 R2].
  - split; [eapply keeps_trans|eapply restores_trans]; eauto.
  - split; [eapply keeps_trans; eauto|assumption].
Qed.

Lemma tidy_lift {A} (m : completion A) : harmless m -> tidy k (lift m).
Proof.
  intros H this. unfold lift. destruct m as [a|e].
  - split; [apply keeps_refl|apply restores_refl].
  - split; [apply keeps_refl|]. destruct e; simpl in *; tauto.
Qed.

Lemma tidy_liftR {A} (f : Compiler -> completion A) :
  (forall this, harmless (f this)) -> tidy k (liftR f).
Proof. intros H this. unfold liftR. apply tidy_lift, H. Qed.

Lemma tidy_read {A} (f : Compiler -> A) : tidy k (read f).
Proof. intros this. simpl. split; [apply keeps_refl|apply restores_refl]. Qed.

Lemma tidy_buffer (content : option string) : tidy k (buffer content).
Proof.
  intros this. unfold buffer. destruct content; simpl;
    unfold keeps, restores; simpl; auto.
Qed.

Lemma tidy_bufLine (content : option string) (add : option Z) :
  tidy k (bufLine content add).
Proof.
  intros this. unfold bufLine. simpl.
  unfold keeps, restores; simpl; auto.
Qed.

Lemma tidy_when (b : bool) (m : M unit) : tidy k m -> tidy k (when b m).
Proof. intros H. destruct b; simpl; [assumption|apply tidy_ret]. Qed.

Lemma tidy_unlessNested (m : M unit) : tidy k m -> tidy k (unlessNested m).
Proof.
  intros H. unfold unlessNested. apply tidy_bind; [apply tidy_read|].
  intros a. now apply tidy_when.
Qed.

Lemma tidy_forEach {A} (f : A -> M unit) (l : list A) :
  (forall x, In x l -> tidy k (f x)) -> tidy k (forEach f l).
Proof.
  induction l as [|x l IH]; intros H; simpl; [apply tidy_ret|].
  apply tidy_bind; [apply H; now left|].
  intros _. apply IH. intros y Hy. apply H. now right.
Qed.

Lemma tidy_visitPipelessText (val : option string) (noEscape : bool) :
  tidy k (visitPipelessText val noEscape).
Proof.
  intros this. unfold visitPipelessText. destruct val as [v|].
  - apply (tidy_buffer (Some _)).
  - split; [apply keeps_refl|exact I].
Qed.

(** [this.indents++], a body, [this.indents--]. *)
Lemma tidy_indented (m : M unit) :
  tidy k m ->
  tidy k (write (fun this => setIndents (indents this + 1) this) ;;;
          m ;;;
          write (fun this => setIndents (indents this - 1) this)).
Proof.
  intros H this. unfold bind, write.
  specialize (H (setIndents (indents this + 1) this)).
  destruct (m _) as [a this1|e this1]; simpl in *;
    unfold keeps, restores in *; simpl in *; intuition; lia.
Qed.

(** The depth saved, changed, two bodies, the depth put back. *)
Lemma tidy_saved_indents (f : Compiler -> Z) (m1 m2 : M unit) :
  tidy k m1 -> tidy k m2 ->
  tidy k (origIndents <- read indents ;;
          write (fun this => setIndents (f this) this) ;;;
          m1 ;;; m2 ;;;
          write (setIndents origIndents)).
Proof.
  intros H1 H2 this. unfold bind, write, read.
  specialize (H1 (setIndents (f this) this)).
  destruct (m1 _) as [a this1|e this1]; simpl in *.
  - specialize (H2 this1).
    destruct (m2 _) as [b this2|e this2]; simpl in *;
      unfold keeps, restores in *; simpl in *; intuition; congruence.
  - unfold keeps in *; simpl in *; intuition.
Qed.

(** [nested] saved, set, a body, [nested] put back. *)
Lemma tidy_saved_nested (m : M unit) :
  tidy k m ->
  tidy k (originalNested <- read nested ;;
          write (setNested true) ;;;
          m ;;;
          write (setNested originalNested)).
Proof.
  intros H this. unfold bind, write, read.
  specialize (H (setNested true this)).
  destruct (m _) as [a this1|e this1]; simpl in *;
    unfold keeps, restores in *; simpl in *; intuition; congruence.
Qed.

End TidyRules.


Lemma harmless_useDotLoop (lines : option Z) (l : list Node.t) :
  forall prev words codes prevStart,
    harmless (useDotLoop lines prev words codes prevStart l).
Proof.
  induction l as [|n r IH]; intros prev words codes prevStart; simpl;
    [exact I|].
  destruct (strIs (Node.type n) "Text").
  - destruct (Node.val n); [apply IH|exact I].
  - destruct (_ && _ && _)%bool; [apply IH|exact I].
Qed.

Lemma harmless_useDot (block : Node.t) (parent : option Node.t) :
  harmless (useDot block parent).
Proof.
  unfold useDot. destruct (Node.nodes block) as [l|]; [|exact I].
  destruct l as [|first rest]; [exact I|].
  destruct (lineEq _ _); [exact I|apply harmless_useDotLoop].
Qed.

Lemma harmless_useColon (block : Node.t) (parent : option Node.t)
  (this : Compiler) : harmless (useColon block parent this).
Proof.
  unfold useColon. destruct (negb _); [exact I|].
  destruct (Node.nodes block); exact I.
Qed.

Lemma harmless_attributeBlocks (l : option (list string)) :
  harmless (attributeBlocks l).
Proof. destruct l; exact I. Qed.

Lemma harmless_getBlock (n : Node.t) : harmless (getBlock n).
Proof.
  unfold getBlock.
  repeat match goal with |- harmless (if ?b then _ else _) => destruct b end;
    exact I.
Qed.

Lemma harmless_attrs (toConstant : string -> option jsval)
  (l : option (list Attr.t)) (this : Compiler) :
  harmless (attrs toConstant l this).
Proof. destruct l; exact I. Qed.

(** ** What the handlers leave of the compiler *)

Ltac height_facts :=
  repeat match goal with
  | H : Node.block ?n = Some ?x |- _ =>
      lazymatch goal with
      | _ : (Node.height x < Node.height n)%nat |- _ => fail
      | _ => pose proof (height_block n H)
      end
  | H : Node.code ?n = Some ?x |- _ =>
      lazymatch goal with
      | _ : (Node.height x < Node.height n)%nat |- _ => fail
      | _ => pose proof (height_code n H)
      end
  | H : Node.consequent ?n = Some ?x |- _ =>
      lazymatch goal with
      | _ : (Node.height x < Node.height n)%nat |- _ => fail
      | _ => pose proof (height_consequent n H)
      end
  | H : Node.alternate ?n = Some ?x |- _ =>
      lazymatch goal with
      | _ : (Node.height x < Node.height n)%nat |- _ => fail
      | _ => pose proof (height_alternate n H)
      end
  | H : Node.alternative ?n = Some ?x |- _ =>
      lazymatch goal with
      | _ : (Node.height x < Node.height n)%nat |- _ => fail
      | _ => pose proof (height_alternative n H)
      end
  | H : Node.file ?n = Some ?x |- _ =>
      lazymatch goal with
      | _ : (Node.height x < Node.height n)%nat |- _ => fail
      | _ => pose proof (height_file n H)
      end
  | H : Node.nodes ?n = Some ?l, Hin : In ?x ?l |- _ =>
      lazymatch goal with
      | _ : (Node.height x < Node.height n)%nat |- _ => fail
      | _ => pose proof (height_nodes n x H Hin)
      end
  end.

Ltac height_tac :=
  intros;
  repeat match goal with
         | H : Some _ = Some _ |- _ => injection H as H
         end;
  subst; height_facts; lia.

Section HandlersTidy.

Variable toConstant : string -> option jsval.
Variable visitNode : Node.t -> option Node.t -> bool -> M unit.
Variable visitCode : Node.t -> bool -> option Node.t -> M unit.
Variable visitConditional : Node.t -> M unit.
Variable visitFilter : Node.t -> bool -> option Node.t -> M unit.

(** The children are of height [k] at most, and the calls on them are
    tidy. *)
Variable k : nat.
Hypothesis tidy_visitNode :
  forall x p i, (Node.height x <= k)%nat -> tidy k (visitNode x p i).
Hypothesis tidy_visitCode :
  forall x i p, (Node.height x <= k)%nat -> tidy k (visitCode x i p).
Hypothesis tidy_visitConditional :
  forall x, (Node.height x <= k)%nat -> tidy k (visitConditional x).
Hypothesis tidy_visitFilter :
  forall x i p, (Node.height x <= k)%nat -> tidy k (visitFilter x i p).

Lemma tidy_visit (on parent : option Node.t) (inline : bool) :
  (forall x, on = Some x -> (Node.height x <= k)%nat) ->
  tidy k (visit visitNode on parent inline).
Proof.
  intros H. unfold visit. destruct on as [x|].
  - apply tidy_visitNode. now apply H.
  - now apply tidy_throw.
Qed.

Ltac tidy_step :=
  first
    [ apply tidy_ret
    | apply tidy_buffer
    | apply tidy_bufLine
    | apply tidy_read
    | apply tidy_visitPipelessText
    | apply tidy_throw; [exact I]
    | apply tidy_lift;
        first [ apply harmless_useDot | apply harmless_attributeBlocks
              | apply harmless_getBlock
              | match goal with
                | |- harmless (match ?p with _ => _ end) =>
                    destruct p; [apply harmless_getBlock|exact I]
                end ]
    | apply tidy_liftR; intros ?;
        first [ apply harmless_useColon | apply harmless_attrs ]
    | apply tidy_indented
    | apply tidy_saved_indents
    | apply tidy_saved_nested
    | apply tidy_when
    | apply tidy_unlessNested
    | apply tidy_visit; height_tac
    | apply tidy_visitCode; height_tac
    | apply tidy_visitConditional; height_tac
    | apply tidy_visitFilter; height_tac
    | apply tidy_bind; [|intros ?]
    | match goal with
      | |- tidy _ (if ?b then _ else _) => destruct b eqn:?
      | |- tidy _ (match ?x with _ => _ end) => destruct x eqn:?
      | |- tidy _ (let _ := _ in _) => cbv zeta
      end ].

Ltac tidy_auto := repeat tidy_step.

Lemma tidy_visitPipelessTextBlock (block : option Node.t) (noEscape : bool) :
  (forall b, block = Some b -> (Node.height b <= S k)%nat) ->
  tidy k (visitPipelessTextBlock visitNode block noEscape).
Proof.
  intros H. unfold visitPipelessTextBlock.
  apply tidy_saved_indents; [apply tidy_bufLine|].
  destruct block as [b|] eqn:Eb; [|tidy_auto].
  specialize (H b eq_refl).
  destruct (Node.nodes b) as [nodes|] eqn:En; [|tidy_auto].
  apply tidy_forEach. intros x Hx.
  pose proof (height_nodes b x En Hx).
  tidy_auto. apply tidy_throw. simpl. lia.
Qed.

Lemma tidy_visitCase (n : Node.t) :
  (Node.height n <= S k)%nat -> tidy k (visitCase visitNode n).
Proof. intros H. unfold visitCase. tidy_auto. Qed.

Lemma tidy_visitWhen (n : Node.t) :
  (Node.height n <= S k)%nat -> tidy k (visitWhen visitNode n).
Proof. intros H. unfold visitWhen. tidy_auto. Qed.

Lemma tidy_visitBlockEach (block : Node.t) (inline : bool) (l : list Node.t) :
  forall prevLine first,
  (forall x, In x l -> (Node.height x <= k)%nat) ->
  tidy k (visitBlockEach visitNode block inline prevLine first l).
Proof.
  induction l as [|x l IH]; intros prevLine first H; simpl; [apply tidy_ret|].
  apply tidy_bind.
  - apply tidy_visitNode. apply H. now left.
  - intros _. apply IH. intros y Hy. apply H. now right.
Qed.

Lemma tidy_visitBlock (block : Node.t) (inline : bool)
  (parent : option Node.t) :
  (Node.height block <= S k)%nat ->
  tidy k (visitBlock visitNode block inline parent).
Proof.
  intros H. unfold visitBlock.
  destruct (Node.yield block); [tidy_auto|].
  apply tidy_bind; [tidy_auto|]. intros dot. destruct dot.
  - apply tidy_bind; [tidy_auto|]. intros _.
    apply tidy_visitPipelessTextBlock. now intros b [= <-].
  - apply tidy_bind; [tidy_auto|]. intros colon. destruct colon.
    + apply tidy_bind; [tidy_auto|]. intros _.
      apply tidy_saved_nested.
      destruct (Node.nodes block) as [[|x l]|] eqn:En; tidy_auto.
      apply tidy_visit. intros y [= <-].
      pose proof (height_nodes block x En (or_introl eq_refl)). lia.
    + apply tidy_indented.
      destruct (Node.nodes block) as [l|] eqn:En; [|tidy_auto].
      apply tidy_visitBlockEach. intros x Hx.
      pose proof (height_nodes block x En Hx). lia.
Qed.

Lemma tidy_visitNamedBlock (block : Node.t) :
  (Node.height block <= S k)%nat ->
  tidy k (visitNamedBlock visitNode block).
Proof.
  intros H. unfold visitNamedBlock.
  apply tidy_bind; [tidy_auto|]. intros _. now apply tidy_visitBlock.
Qed.

Lemma tidy_visitChildBlock (owner first : Node.t) (rest : list Node.t)
  (block : Node.t) :
  (Node.height block <= k)%nat ->
  tidy k (visitChildBlock visitNode owner first rest block).
Proof. intros H. unfold visitChildBlock. tidy_auto. Qed.

Lemma tidy_visitMixin (mixin : Node.t) (inline : bool)
  (parent : option Node.t) :
  (Node.height mixin <= S k)%nat ->
  tidy k (visitMixin toConstant visitNode mixin inline parent).
Proof.
  intros H. unfold visitMixin. tidy_auto.
Qed.

Lemma tidy_visitTag (tag : Node.t) (inline : bool) (parent : option Node.t) :
  (Node.height tag <= S k)%nat ->
  tidy k (visitTag toConstant visitNode visitCode tag inline parent).
Proof.
  intros H. unfold visitTag. tidy_auto.
Qed.

Lemma tidy_visitText (text : Node.t) (inline : bool) :
  tidy k (visitText text inline).
Proof. unfold visitText. tidy_auto. Qed.

Lemma tidy_visitBlockComment (comment : Node.t) :
  (Node.height comment <= S k)%nat ->
  tidy k (visitBlockComment visitNode comment).
Proof.
  intros H. unfold visitBlockComment. apply tidy_bind; [tidy_auto|].
  intros _. apply tidy_visitPipelessTextBlock. height_tac.
Qed.

Lemma tidy_visitCodeBody (code : Node.t) (inline : bool)
  (parent : option Node.t) :
  (Node.height code <= S k)%nat ->
  tidy k (visitCodeBody visitNode code inline parent).
Proof. intros H. unfold visitCodeBody. tidy_auto. Qed.

Lemma tidy_visitConditionalBody (cond : Node.t) :
  (Node.height cond <= S k)%nat ->
  tidy k (visitConditionalBody visitNode visitConditional cond).
Proof. intros H. unfold visitConditionalBody. tidy_auto. Qed.

Lemma tidy_visitWhile (loop : Node.t) :
  (Node.height loop <= S k)%nat -> tidy k (visitWhile visitNode loop).
Proof. intros H. unfold visitWhile. tidy_auto. Qed.

Lemma tidy_visitEach (each : Node.t) :
  (Node.height each <= S k)%nat -> tidy k (visitEach visitNode each).
Proof. intros H. unfold visitEach. tidy_auto. Qed.

Lemma tidy_visitExtends (n : Node.t) :
  (Node.height n <= S k)%nat -> tidy k (visitExtends visitNode n).
Proof. intros H. unfold visitExtends. tidy_auto. Qed.

Lemma tidy_visitInclude (n : Node.t) :
  (Node.height n <= S k)%nat ->
  tidy k (visitInclude toConstant visitNode n).
Proof. intros H. unfold visitInclude. tidy_auto. Qed.

(** A filter: the exception it throws on a malformed block shows the
    filter itself. *)
Lemma tidy_visitFilterBody (k' : nat) (filter : Node.t) (inline : bool)
  (parent : option Node.t) :
  (Node.height filter <= S k)%nat -> (k <= k')%nat ->
  (malformedFilter filter -> (Node.height filter <= k')%nat) ->
  tidy k' (visitFilterBody toConstant visitNode visitFilter
                           filter inline parent).
Proof.
  intros H Hk Hm. unfold visitFilterBody.
  apply tidy_bind; [apply tidy_mono with (k' := k); [lia|tidy_auto]|].
  intros a.
  apply tidy_bind; [apply tidy_mono with (k' := k); [lia|tidy_auto]|].
  intros _.
  apply tidy_bind; [apply tidy_mono with (k' := k); [lia|tidy_auto]|].
  intros _.
  apply tidy_bind; [|intros _; apply tidy_mono with (k' := k);
                                [lia|tidy_auto]].
  destruct (Node.block filter) as [b|] eqn:Eb; [|now apply tidy_throw].
  destruct (Node.nodes b) as [[|first rest]|] eqn:En;
    [apply tidy_ret| |now apply tidy_throw].
  destruct (strIs (Node.type first) "Filter") eqn:Ef.
  - destruct rest as [|second rest].
    + apply tidy_mono with (k' := k); [lia|].
      apply tidy_saved_nested. apply tidy_visitFilter.
      pose proof (height_nodes b first En (or_introl eq_refl)).
      height_tac.
    + apply tidy_throw. simpl. apply Hm.
      exists b, first, second, rest. auto.
  - apply tidy_mono with (k' := k); [lia|].
    destruct inline.
    + tidy_auto.
    + apply tidy_visitPipelessTextBlock. height_tac.
Qed.

Lemma tidy_dispatch (n : Node.t) (parent : option Node.t) (inline : bool) :
  (Node.height n <= S k)%nat ->
  tidy (S k)
       (dispatch toConstant visitNode visitCode visitConditional visitFilter
                 n parent inline).
Proof.
  intros H. unfold dispatch.
  repeat match goal with
         | |- tidy _ (if ?b then _ else _) => destruct b
         end.
  all: try (apply tidy_visitFilterBody;
              [assumption|lia|intros _; assumption]).
  all: apply tidy_mono with (k' := k); [lia|].
  all: try (now apply tidy_throw).
  all: auto using tidy_visitCase, tidy_visitWhen, tidy_visitNamedBlock,
         tidy_visitBlock, tidy_visitMixin, tidy_visitTag, tidy_visitText,
         tidy_visitBlockComment, tidy_visitCodeBody,
         tidy_visitConditionalBody, tidy_visitWhile, tidy_visitEach,
         tidy_visitExtends, tidy_visitInclude.
  all: try (apply tidy_visitPipelessTextBlock; now intros b [= <-]).
  all: try (unfold visitMixinBlock, visitDoctype, visitComment,
              visitFileReference; tidy_auto).
Qed.

End HandlersTidy.

Section VisitorTidy.

Variable toConstant : string -> option jsval.

(** Every handler, on every node: what it keeps and what it restores. *)
Lemma visitor_tidy (h : nat) :
  forall n, (Node.height n <= h)%nat ->
    (forall p i, tidy h (visitNode toConstant n p i))
    /\ (forall i p, tidy h (visitCode toConstant n i p))
    /\ tidy h (visitConditional toConstant n)
    /\ (forall i p, tidy h (visitFilter toConstant n i p)).
Proof.
  induction h as [|h IH]; intros n Hn.
  - pose proof (height_pos n). lia.
  - assert (Hnode : forall x p i, (Node.height x <= h)%nat ->
                                  tidy h (visitNode toConstant x p i))
      by (intros x p i Hx; now apply (IH x Hx)).
    assert (Hcode : forall x i p, (Node.height x <= h)%nat ->
                                  tidy h (visitCode toConstant x i p))
      by (intros x i p Hx; now apply (IH x Hx)).
    assert (Hcond : forall x, (Node.height x <= h)%nat ->
                              tidy h (visitConditional toConstant x))
      by (intros x Hx; now apply (IH x Hx)).
    assert (Hfilter : forall x i p, (Node.height x <= h)%nat ->
                                    tidy h (visitFilter toConstant x i p))
      by (intros x i p Hx; now apply (IH x Hx)).
    repeat split; intros.
    + rewrite visitNode_eq. now apply tidy_dispatch.
    + rewrite visitCode_eq. apply tidy_mono with (k' := h); [lia|].
      now apply tidy_visitCodeBody.
    + rewrite visitConditional_eq. apply tidy_mono with (k' := h); [lia|].
      now apply tidy_visitConditionalBody.
    + rewrite visitFilter_eq.
      apply tidy_visitFilterBody with (k := h); auto.
Qed.

Lemma tidy_visitNode_all (n : Node.t) (p : option Node.t) (i : bool) :
  tidy (Node.height n) (visitNode toConstant n p i).
Proof. apply visitor_tidy with (h := Node.height n) (n := n). lia. Qed.

Lemma tidy_visit_all (h : nat) (on : option Node.t) (p : option Node.t)
  (i : bool) :
  (forall x, on = Some x -> (Node.height x <= h)%nat) ->
  tidy h (visit (visitNode toConstant) on p i).
Proof.
  intros H. apply tidy_visit; [|assumption].
  intros x p' i' Hx. now apply visitor_tidy with (h := h) (n := x).
Qed.

End VisitorTidy.

Lemma tidy_returns {A} (k : nat) (m : M A) (this this' : Compiler) (a : A) :
  tidy k m -> m this = Ok a this' -> keeps this this' /\ restores this this'.
Proof. intros H E. specialize (H this). now rewrite E in H. Qed.

Lemma tidy_throws {A} (k : nat) (m : M A) (this this' : Compiler) (e : exn) :
  tidy k m -> m this = Throw e this' -> keeps this this' /\ exnWithin k e.
Proof. intros H E. specialize (H this). now rewrite E in H. Qed.

Section IndentProperties.

Variable toConstant : string -> option jsval.

Lemma tidy_children (h : nat) :
  forall x p i, (Node.height x <= h)%nat ->
                tidy h (visitNode toConstant x p i).
Proof. intros x p i Hx. now apply visitor_tidy with (h := h) (n := x). Qed.

(** C10.  A call of [visit] that returns leaves [this.indents] as it found
    it, on every node and at every depth; so do [visitBlock],
    [visitPipelessTextBlock] and [visitCode] called on a node directly.
    The loop of [visitBlock] over the children leaves the depth as it
    found it after each child: the siblings are all visited at one
    depth. *)
Theorem indents_restored (n : Node.t) (parent : option Node.t)
  (inline noEscape : bool) (this this' : Compiler) :
  (visit (visitNode toConstant) (Some n) parent inline this = Ok tt this' ->
   indents this' = indents this)
  /\ (visitBlock (visitNode toConstant) n inline parent this = Ok tt this' ->
      indents this' = indents this)
  /\ (visitPipelessTextBlock (visitNode toConstant) (Some n) noEscape this
        = Ok tt this' ->
      indents this' = indents this)
  /\ (visitCode toConstant n inline parent this = Ok tt this' ->
      indents this' = indents this)
  /\ (forall siblings prevLine first,
        visitBlockEach (visitNode toConstant) n inline prevLine first
                       siblings this = Ok tt this' ->
        indents this' = indents this).
Proof.
  repeat split.
  - intros E. eapply tidy_returns in E; [apply E|].
    apply tidy_visit_all with (h := Node.height n). now intros x [= <-].
  - intros E. eapply tidy_returns in E; [apply E|].
    apply tidy_visitBlock with (k := Node.height n);
      [apply tidy_children|lia].
  - intros E. eapply tidy_returns in E; [apply E|].
    apply tidy_visitPipelessTextBlock with (k := Node.height n);
      [apply tidy_children|]. intros b [= <-]. lia.
  - intros E. eapply tidy_returns in E; [apply E|].
    apply visitor_tidy with (h := Node.height n) (n := n). lia.
  - intros siblings prevLine first E.
    eapply tidy_returns in E; [apply E|].
    apply tidy_visitBlockEach with (k := Node.heights siblings);
      [apply tidy_children|]. apply heights_In.
Qed.

(** [visit] on any node, and [compile], leave the tree of the compiler,
    and its options, as they found them, whether they return or throw. *)
Lemma visit_keeps_tree (on parent : option Node.t) (inline : bool)
  (this : Compiler) :
  match visit (visitNode toConstant) on parent inline this with
  | Ok _ this' | Throw _ this' =>
      node this' = node this /\ options this' = options this
  end.
Proof.
  pose (h := match on with Some x => Node.height x | None => O end).
  assert (T : tidy h (visit (visitNode toConstant) on parent inline)).
  { apply tidy_visit_all. intros x ->. apply le_n. }
  specialize (T this).
  destruct (visit _ _ _ _ _) as [a this'|e this'];
    destruct T as [(Ho & Hn & _) _]; auto.
Qed.

Lemma compile_keeps_tree (this : Compiler) :
  match compile toConstant this with
  | Ok _ this' | Throw _ this' =>
      node this' = node this /\ options this' = options this
  end.
Proof.
  unfold compile.
  pose proof (visit_keeps_tree (Some (node this)) None false (setBuf [] this))
    as H.
  destruct (visit _ _ _ _ _) as [a this'|e this']; exact H.
Qed.

End IndentProperties.

(** ** Filters *)

Lemma malformedFilter_dec (filter : Node.t) :
  malformedFilter filter \/ ~ malformedFilter filter.
Proof.
  unfold malformedFilter.
  destruct (Node.block filter) as [b|] eqn:Eb;
    [|right; intros (b & f & s & r & H & _); discriminate].
  destruct (Node.nodes b) as [[|first [|second rest]]|] eqn:En;
    try (right; intros (b' & f & s & r & H1 & H2 & _);
         injection H1 as <-; congruence).
  destruct (strIs (Node.type first) "Filter") eqn:Ef.
  - left. exists b, first, second, rest. auto.
  - right. intros (b' & f & s & r & H1 & H2 & H3).
    injection H1 as <-. rewrite En in H2. injection H2 as <- <- <-.
    congruence.
Qed.

Lemma appendLast_snoc (s x : string) (l : list string) :
  appendLast s (l ++ [x]) = (l ++ [(x ++ s)%string])%list.
Proof.
  induction l as [|y l IH]; [reflexivity|].
  simpl. rewrite IH. destruct (l ++ [x])%list eqn:E; [|reflexivity].
  destruct l; discriminate.
Qed.


(** ** [cleanUpAST] *)

Lemma children_height (n x : Node.t) :
  In x (children n) -> (Node.height x < Node.height n)%nat.
Proof.
  unfold children, optList. rewrite !in_app_iff. intros H.
  destruct (Node.nodes n) as [l|] eqn:En;
  destruct (Node.code n) eqn:E1; destruct (Node.block n) eqn:E2;
  destruct (Node.consequent n) eqn:E3; destruct (Node.alternate n) eqn:E4;
  destruct (Node.alternative n) eqn:E5; destruct (Node.file n) eqn:E6;
  simpl in H;
  repeat match goal with
         | H : _ \/ _ |- _ => destruct H
         | H : False |- _ => destruct H
         end; subst; height_facts; lia.
Qed.

Lemma everywhere_eq (p : Node.t -> bool) (n : Node.t) :
  everywhere p n = (p n && forallb (everywhere p) (children n))%bool.
Proof.
  destruct n as [? ? ? nodes ? ? ? ? ? ? ? ? ? ? ? ? ? ? ? ? ? ?
                 code block consequent alternate alternative file].
  unfold children. cbn [everywhere Node.nodes Node.code Node.block
    Node.consequent Node.alternate Node.alternative Node.file].
  rewrite !forallb_app.
  assert (E : forall l,
    (fix all (l : list Node.t) : bool :=
       match l with
       | [] => true
       | x :: r => (everywhere p x && all r)%bool
       end) l = forallb (everywhere p) l).
  { induction l as [|x l IH]; simpl; [reflexivity|now rewrite IH]. }
  destruct nodes as [l|]; [rewrite E|];
    destruct code, block, consequent, alternate, alternative, file;
    cbn [optList forallb];
    repeat rewrite <- andb_assoc; cbn [andb];
    repeat rewrite andb_true_r; reflexivity.
Qed.

Lemma everywhere_child (p : Node.t -> bool) (n x : Node.t) :
  everywhere p n = true -> In x (children n) -> everywhere p x = true.
Proof.
  rewrite everywhere_eq. intros H Hin. apply andb_true_iff in H.
  destruct H as [_ H]. rewrite forallb_forall in H. now apply H.
Qed.

Lemma everywhere_here (p : Node.t -> bool) (n : Node.t) :
  everywhere p n = true -> p n = true.
Proof.
  rewrite everywhere_eq. intros H. now apply andb_true_iff in H.
Qed.

Lemma everywhere_weaken (p q : Node.t -> bool) :
  (forall m, p m = true -> q m = true) ->
  forall h n, (Node.height n <= h)%nat ->
    everywhere p n = true -> everywhere q n = true.
Proof.
  intros Hpq. induction h as [|h IH]; intros n Hn.
  - pose proof (height_pos n). lia.
  - rewrite !everywhere_eq. intros H. apply andb_true_iff in H.
    destruct H as [H1 H2]. apply andb_true_iff. split; [now apply Hpq|].
    rewrite forallb_forall in *. intros x Hx. apply IH; [|now apply H2].
    pose proof (children_height n x Hx). lia.
Qed.

Lemma clean_flat (n : Node.t) : clean n = true -> flat n = true.
Proof.
  apply everywhere_weaken with (h := Node.height n); [|lia].
  intros m H. now apply andb_true_iff in H.
Qed.

Lemma clean_wellFormed (n : Node.t) : clean n = true -> wellFormed n = true.
Proof.
  apply everywhere_weaken with (h := Node.height n); [|lia].
  intros m H. now apply andb_true_iff in H.
Qed.

Lemma mapC_ext {A B} (f g : A -> completion B) (l : list A) :
  (forall x, In x l -> f x = g x) -> mapC f l = mapC g l.
Proof.
  induction l as [|x l IH]; intros H; simpl; [reflexivity|].
  rewrite (H x) by now left. rewrite IH; [reflexivity|].
  intros y Hy. apply H. now right.
Qed.

Lemma mapC_id (f : Node.t -> completion Node.t) (l : list Node.t) :
  (forall x, In x l -> f x = Normal x) -> mapC f l = Normal l.
Proof.
  induction l as [|x l IH]; intros H; simpl; [reflexivity|].
  rewrite (H x) by now left. simpl. rewrite IH; [reflexivity|].
  intros y Hy. apply H. now right.
Qed.

(** What [mapC] gives when every call gives what [R] and [E] allow. *)
Lemma mapC_outcome {A B} (f : A -> completion B) (R : A -> B -> Prop)
  (E : A -> exn -> Prop) (l : list A) :
  (forall x, In x l ->
     match f x with Normal y => R x y | Abrupt e => E x e end) ->
  match mapC f l with
  | Normal l' => Forall2 R l l'
  | Abrupt e => exists x, In x l /\ E x e
  end.
Proof.
  induction l as [|x l IH]; intros H; simpl; [constructor|].
  pose proof (H x (or_introl eq_refl)) as Hx.
  destruct (f x) as [y|e]; simpl; [|eauto].
  assert (Hl : forall z, In z l ->
            match f z with Normal y => R z y | Abrupt e => E z e end)
    by (intros z Hz; apply H; now right).
  specialize (IH Hl). destruct (mapC f l) as [l'|e]; simpl.
  - now constructor.
  - destruct IH as (z & Hz & He). eauto.
Qed.

Lemma Forall2_heights (l l' : list Node.t) :
  Forall2 (fun x y => (Node.height y <= Node.height x)%nat) l l' ->
  (Node.heights l' <= Node.heights l)%nat.
Proof. induction 1; simpl; lia. Qed.

Lemma with_nodes_same (n : Node.t) : Node.with_nodes (Node.nodes n) n = n.
Proof. destruct n; reflexivity. Qed.

(** *** The callback is a flat map *)

Lemma skipn_snoc {A} (n : nat) (l : list A) (x : A) :
  (n <= List.length l)%nat -> skipn n (l ++ [x]) = (skipn n l ++ [x])%list.
Proof. intros H. rewrite skipn_app. f_equal.
  replace (n - List.length l)%nat with O by lia. reflexivity. Qed.

Lemma slice_prefix {A} (pre rest : list A) (lastIdx : nat) :
  (lastIdx <= List.length pre)%nat ->
  slice lastIdx (List.length pre) (pre ++ rest) = skipn lastIdx pre.
Proof.
  intros H. unfold slice. rewrite skipn_app, firstn_app, length_skipn.
  replace (lastIdx - List.length pre)%nat with O by lia.
  replace (List.length pre - lastIdx - (List.length pre - lastIdx))%nat
    with O by lia.
  cbn [skipn firstn]. rewrite app_nil_r.
  apply firstn_all2. rewrite length_skipn. lia.
Qed.

Lemma flattenEach_flatMap (walk : Node.t -> completion Node.t)
  (l : list Node.t) :
  forall (pre newNodes : list Node.t) (lastIdx : nat),
  (lastIdx <= List.length pre)%nat ->
  andThen (flattenEach walk (pre ++ l) (List.length pre) lastIdx newNodes l)
          (fun r => let '(lastIdx', newNodes') := r in
                    Normal (newNodes' ++ skipn lastIdx' (pre ++ l))%list)
  = andThen (flatMapC walk l)
            (fun t => Normal (newNodes ++ skipn lastIdx pre ++ t)%list).
Proof.
  induction l as [|c r IH]; intros pre newNodes lastIdx Hlast.
  - simpl. now rewrite !app_nil_r.
  - assert (Epre : (pre ++ c :: r = (pre ++ [c]) ++ r)%list)
      by now rewrite <- app_assoc.
    assert (Elen : S (List.length pre) = List.length (pre ++ [c]))
      by (rewrite length_app; simpl; lia).
    cbn [flattenEach flatMapC]. destruct (isNestedBlock c) eqn:Ec.
    + unfold isNestedBlock in Ec. rewrite Ec.
      destruct (walk c) as [c'|e]; [|reflexivity]. cbn [andThen].
      destruct (Node.nodes c') as [inner|]; [|reflexivity].
      rewrite Epre, Elen, IH by lia.
      destruct (flatMapC walk r) as [t|e]; [|reflexivity]. cbn [andThen].
      f_equal. rewrite skipn_all. cbn [app].
      assert (Es : (if Nat.ltb 0 (List.length pre)
                    then (newNodes
                          ++ slice lastIdx (List.length pre)
                                   ((pre ++ [c]) ++ r))%list
                    else newNodes)
                   = (newNodes ++ skipn lastIdx pre)%list).
      { destruct (Nat.ltb 0 (List.length pre)) eqn:E0.
        - rewrite <- app_assoc. now rewrite slice_prefix.
        - apply Nat.ltb_ge in E0. destruct pre; [|simpl in E0; lia].
          simpl in Hlast. replace lastIdx with O by lia.
          simpl. now rewrite app_nil_r. }
      rewrite Es. now rewrite <- !app_assoc.
    + unfold isNestedBlock in Ec. rewrite Ec.
      rewrite Epre, Elen, IH by (rewrite <- Elen; lia).
      destruct (flatMapC walk r) as [t|e]; [|reflexivity]. cbn [andThen].
      f_equal. rewrite skipn_snoc by lia. now rewrite <- !app_assoc.
Qed.

Lemma flattenBlock_flatMap (walk : Node.t -> completion Node.t)
  (n : Node.t) :
  flattenBlock walk n =
    if strIs (Node.type n) "Block" then
      match Node.nodes n with
      | None => Abrupt NativeTypeError
      | Some l =>
          andThen (flatMapC walk l)
                  (fun t => Normal (Node.with_nodes (Some t) n))
      end
    else Normal n.
Proof.
  unfold flattenBlock. destruct (strIs (Node.type n) "Block"); [|reflexivity].
  destruct (Node.nodes n) as [l|]; [|reflexivity].
  pose proof (@flattenEach_flatMap walk l [] [] O (le_n _)) as H.
  cbn [app List.length skipn] in H.
  destruct (flattenEach walk l 0 0 [] l) as [[lastIdx newNodes]|e];
    destruct (flatMapC walk l) as [t|e']; cbn [andThen] in *;
    congruence.
Qed.

(** *** The walk of the children *)

Lemma children_iff (n x : Node.t) :
  In x (children n) <->
  (exists l, Node.nodes n = Some l /\ In x l)
  \/ Node.code n = Some x \/ Node.block n = Some x
  \/ Node.consequent n = Some x \/ Node.alternate n = Some x
  \/ Node.alternative n = Some x \/ Node.file n = Some x.
Proof.
  unfold children, optList. rewrite !in_app_iff.
  destruct (Node.nodes n) as [l|]; destruct (Node.code n);
    destruct (Node.block n); destruct (Node.consequent n);
    destruct (Node.alternate n); destruct (Node.alternative n);
    destruct (Node.file n); simpl; split; intros H;
    repeat match goal with
           | H : _ \/ _ |- _ => destruct H
           | H : False |- _ => destruct H
           | H : exists _, _ |- _ => destruct H as (? & ? & ?)
           | H : Some _ = Some _ |- _ => injection H as H
           | H : None = Some _ |- _ => discriminate H
           end; subst; eauto 12.
Qed.

Section WalkChildren.

Variable f : Node.t -> completion Node.t.
Variable n : Node.t.

Lemma optC_ext_child (g : Node.t -> completion Node.t) (o : option Node.t) :
  (forall x, o = Some x -> f x = g x) -> optC f o = optC g o.
Proof. destruct o as [x|]; intros H; simpl; [now rewrite (H x)|reflexivity]. Qed.

Lemma walkChildren_ext (g : Node.t -> completion Node.t) :
  (forall x, In x (children n) -> f x = g x) ->
  walkChildren f n = walkChildren g n.
Proof.
  intros H. unfold walkChildren.
  assert (En : optC (mapC f) (Node.nodes n) = optC (mapC g) (Node.nodes n)).
  { destruct (Node.nodes n) as [l|] eqn:E; [|reflexivity]. simpl.
    rewrite (@mapC_ext _ _ f g l); [reflexivity|].
    intros x Hx. apply H, children_iff. eauto. }
  rewrite En.
  rewrite (@optC_ext_child g (Node.code n)),
          (@optC_ext_child g (Node.block n)),
          (@optC_ext_child g (Node.consequent n)),
          (@optC_ext_child g (Node.alternate n)),
          (@optC_ext_child g (Node.alternative n)),
          (@optC_ext_child g (Node.file n));
    try reflexivity; intros x Hx; apply H, children_iff; tauto.
Qed.

Lemma walkChildren_id :
  (forall x, In x (children n) -> f x = Normal x) ->
  walkChildren f n = Normal n.
Proof.
  intros H. unfold walkChildren.
  assert (En : optC (mapC f) (Node.nodes n) = Normal (Node.nodes n)).
  { destruct (Node.nodes n) as [l|] eqn:E; [|reflexivity]. simpl.
    rewrite mapC_id; [reflexivity|].
    intros x Hx. apply H, children_iff. eauto. }
  assert (Eo : forall o, (forall x, o = Some x -> In x (children n)) ->
                         optC f o = Normal o).
  { intros [x|] Ho; simpl; [|reflexivity]. now rewrite H by now apply Ho. }
  rewrite En. cbn [andThen].
  rewrite !Eo by (intros x Hx; apply children_iff; tauto). cbn [andThen].
  destruct n; reflexivity.
Qed.

(** What the walk gives when every call on a child gives what [R] and
    [E] allow. *)
Lemma walkChildren_outcome (R : Node.t -> Node.t -> Prop)
  (E : Node.t -> exn -> Prop) :
  (forall x, In x (children n) ->
     match f x with Normal y => R x y | Abrupt e => E x e end) ->
  match walkChildren f n with
  | Normal n' =>
      Forall2 R (children n) (children n')
      /\ Node.type n' = Node.type n /\ Node.yield n' = Node.yield n
      /\ match Node.nodes n, Node.nodes n' with
         | Some l, Some l' => Forall2 R l l'
         | None, None => True
         | _, _ => False
         end
  | Abrupt e => exists x, In x (children n) /\ E x e
  end.
Proof.
  intros H. unfold walkChildren.
  assert (Hn : match optC (mapC f) (Node.nodes n) with
               | Normal o' =>
                   match Node.nodes n, o' with
                   | Some l, Some l' => Forall2 R l l'
                   | None, None => True
                   | _, _ => False
                   end
               | Abrupt e => exists x, In x (children n) /\ E x e
               end).
  { destruct (Node.nodes n) as [l|] eqn:En; [|exact I]. simpl.
    assert (Hl : forall x, In x l ->
              match f x with Normal y => R x y | Abrupt e => E x e end)
      by (intros x Hx; apply H, children_iff; eauto).
    pose proof (mapC_outcome f R E l Hl) as Hm.
    destruct (mapC f l); simpl; [exact Hm|].
    destruct Hm as (x & Hx & He). exists x. split; [|assumption].
    apply children_iff; eauto. }
  assert (Ho : forall o, (forall x, o = Some x -> In x (children n)) ->
               match optC f o with
               | Normal o' => Forall2 R (optList o) (optList o')
               | Abrupt e => exists x, In x (children n) /\ E x e
               end).
  { intros [x|] Hx; simpl; [|constructor].
    specialize (H x (Hx x eq_refl)).
    destruct (f x); simpl; [now repeat constructor|eauto]. }
  destruct (optC (mapC f) (Node.nodes n)) as [nodes'|e]; [|exact Hn].
  cbn [andThen].
  pose proof (Ho (Node.code n)) as H1.
  destruct (optC f (Node.code n)) as [code'|e];
    [|apply H1; intros x Hx; apply children_iff; tauto].
  cbn [andThen].
  pose proof (Ho (Node.block n)) as H2.
  destruct (optC f (Node.block n)) as [block'|e];
    [|apply H2; intros x Hx; apply children_iff; tauto].
  cbn [andThen].
  pose proof (Ho (Node.consequent n)) as H3.
  destruct (optC f (Node.consequent n)) as [consequent'|e];
    [|apply H3; intros x Hx; apply children_iff; tauto].
  cbn [andThen].
  pose proof (Ho (Node.alternate n)) as H4.
  destruct (optC f (Node.alternate n)) as [alternate'|e];
    [|apply H4; intros x Hx; apply children_iff; tauto].
  cbn [andThen].
  pose proof (Ho (Node.alternative n)) as H5.
  destruct (optC f (Node.alternative n)) as [alternative'|e];
    [|apply H5; intros x Hx; apply children_iff; tauto].
  cbn [andThen].
  pose proof (Ho (Node.file n)) as H6.
  destruct (optC f (Node.file n)) as [file'|e];
    [|apply H6; intros x Hx; apply children_iff; tauto].
  cbn [andThen].
  split; [|split; [reflexivity|split; [reflexivity|exact Hn]]].
  unfold children.
  cbn [Node.nodes Node.code Node.block Node.consequent Node.alternate
       Node.alternative Node.file Node.with_nodes Node.with_code
       Node.with_block Node.with_consequent Node.with_alternate
       Node.with_alternative Node.with_file].
  repeat apply Forall2_app;
    try (first [apply H1|apply H2|apply H3|apply H4|apply H5|apply H6];
         intros x Hx; apply children_iff; tauto).
  destruct (Node.nodes n), nodes'; try tauto. constructor.
Qed.

End WalkChildren.

(** *** One step of the clean-up *)

Lemma heights_app (l1 l2 : list Node.t) :
  Node.heights (l1 ++ l2) = Nat.max (Node.heights l1) (Node.heights l2).
Proof. induction l1 as [|x l IH]; simpl; [reflexivity|]. rewrite IH. lia. Qed.

Lemma heights_bound (l : list Node.t) (b : nat) :
  (forall y, In y l -> (Node.height y <= b)%nat) ->
  (Node.heights l <= b)%nat.
Proof.
  induction l as [|x l IH]; intros H; simpl; [lia|].
  pose proof (H x (or_introl eq_refl)).
  assert (Node.heights l <= b)%nat by (apply IH; intros; apply H; now right).
  lia.
Qed.

Lemma height_children (n : Node.t) :
  Node.height n = S (Node.heights (children n)).
Proof.
  rewrite height_eq. unfold children, optList. rewrite !heights_app.
  destruct (Node.nodes n), (Node.code n), (Node.block n),
    (Node.consequent n), (Node.alternate n), (Node.alternative n),
    (Node.file n); simpl; lia.
Qed.

Lemma Forall2_in_r {A B} (R : A -> B -> Prop) (l : list A) (l' : list B)
  (y : B) :
  Forall2 R l l' -> In y l' -> exists x, In x l /\ R x y.
Proof.
  induction 1 as [|a b l l' Hab _ IH]; simpl; [tauto|].
  intros [<-|Hy]; [eauto|]. destruct (IH Hy) as (x & Hx & Hr). eauto.
Qed.

Lemma isNestedBlock_shell (x y : Node.t) :
  Node.type y = Node.type x -> Node.yield y = Node.yield x ->
  isNestedBlock y = isNestedBlock x.
Proof. unfold isNestedBlock. now intros -> ->. Qed.

Lemma wellFormed_child_false (n x : Node.t) :
  In x (children n) -> wellFormed x = false -> wellFormed n = false.
Proof.
  intros Hin Hx. destruct (wellFormed n) eqn:E; [|reflexivity].
  pose proof (@everywhere_child _ n x E Hin). unfold wellFormed in Hx. congruence.
Qed.

Lemma clean_block_nodes (n : Node.t) :
  clean n = true -> strIs (Node.type n) "Block" = true ->
  exists l, Node.nodes n = Some l
            /\ forall y, In y l -> isNestedBlock y = false /\ clean y = true.
Proof.
  intros Hc Ht. pose proof (@everywhere_here _ n Hc) as Hp.
  apply andb_true_iff in Hp. destruct Hp as [Hno Hhas].
  unfold noBlockChild in Hno. unfold blockHasNodes in Hhas.
  rewrite Ht in *. destruct (Node.nodes n) as [l|] eqn:En; [|discriminate].
  exists l. split; [reflexivity|]. intros y Hy. split.
  - rewrite forallb_forall in Hno. specialize (Hno y Hy).
    now apply negb_true_iff in Hno.
  - apply (@everywhere_child _ n _ Hc). apply children_iff. eauto.
Qed.

Section Step.

Variable f : Node.t -> completion Node.t.

Lemma flatMapC_ext (g : Node.t -> completion Node.t) (l : list Node.t) :
  (forall x, In x l -> g x = f x) -> flatMapC g l = flatMapC f l.
Proof.
  induction l as [|c r IH]; intros H; simpl; [reflexivity|].
  rewrite (H c) by now left. rewrite IH; [reflexivity|].
  intros y Hy. apply H. now right.
Qed.

Lemma flatMapC_none (l : list Node.t) :
  (forall x, In x l -> isNestedBlock x = false) -> flatMapC f l = Normal l.
Proof.
  induction l as [|c r IH]; intros H; simpl; [reflexivity|].
  rewrite (H c) by now left. rewrite IH; [reflexivity|].
  intros y Hy. apply H. now right.
Qed.

Lemma flatMapC_outcome (l : list Node.t) :
  (forall x, In x l -> cleanedFrom x (f x)) ->
  match flatMapC f l with
  | Normal t =>
      forall y, In y t ->
        isNestedBlock y = false
        /\ (In y l \/ clean y = true)
        /\ (Node.height y <= Node.heights l)%nat
  | Abrupt e =>
      e = NativeTypeError /\ exists x, In x l /\ wellFormed x = false
  end.
Proof.
  induction l as [|c r IH]; intros H; simpl; [tauto|].
  assert (Hr : forall x, In x r -> cleanedFrom x (f x))
    by (intros x Hx; apply H; now right).
  specialize (IH Hr). destruct (isNestedBlock c) eqn:Ec.
  - pose proof (H c (or_introl eq_refl)) as Hc.
    destruct (f c) as [c'|e]; simpl in *.
    + destruct Hc as (Hclean & Hh & Ht & Hy).
      assert (Hb : strIs (Node.type c') "Block" = true).
      { rewrite Ht. unfold isNestedBlock in Ec.
        now apply andb_true_iff in Ec. }
      destruct (clean_block_nodes c' Hclean Hb) as (inner & En & Hin).
      rewrite En. destruct (flatMapC f r) as [t|e]; simpl.
      * intros y Hy'. apply in_app_iff in Hy'. destruct Hy' as [Hy'|Hy'].
        -- destruct (Hin y Hy') as [H1 H2]. repeat split; auto.
           pose proof (height_nodes c' y En Hy'). lia.
        -- destruct (IH y Hy') as (H1 & H2 & H3).
           repeat split; [assumption|tauto|lia].
      * destruct IH as (-> & x & Hx & Hw). split; eauto.
    + destruct Hc as [-> Hw]. split; eauto.
  - destruct (flatMapC f r) as [t|e]; simpl.
    + intros y [<-|Hy'].
      * repeat split; [assumption|tauto|lia].
      * destruct (IH y Hy') as (H1 & H2 & H3).
        repeat split; [assumption|tauto|lia].
    + destruct IH as (-> & x & Hx & Hw). split; eauto.
Qed.

Lemma children_with_nodes (n : Node.t) (t : list Node.t) (y : Node.t) :
  In y (children (Node.with_nodes (Some t) n)) ->
  In y t \/ In y (children n).
Proof.
  rewrite !children_iff. cbn. intros [(l & [= <-] & Hy)|H]; [tauto|].
  right. tauto.
Qed.

(** What the callback gives. *)
Lemma flattenBlock_outcome (n : Node.t) :
  (forall x, In x (children n) -> cleanedFrom x (f x)) ->
  match flattenBlock f n with
  | Normal n1 =>
      Node.type n1 = Node.type n /\ Node.yield n1 = Node.yield n
      /\ (forall y, In y (children n1) ->
            (Node.height y < Node.height n)%nat
            /\ (In y (children n) \/ clean y = true))
      /\ (strIs (Node.type n) "Block" = true ->
          exists t, Node.nodes n1 = Some t
                    /\ forall y, In y t -> isNestedBlock y = false)
  | Abrupt e => e = NativeTypeError /\ wellFormed n = false
  end.
Proof.
  intros H. rewrite flattenBlock_flatMap.
  destruct (strIs (Node.type n) "Block") eqn:Et.
  - destruct (Node.nodes n) as [l|] eqn:En.
    + assert (Hl : forall x, In x l -> cleanedFrom x (f x))
        by (intros x Hx; apply H, children_iff; eauto).
      pose proof (flatMapC_outcome l Hl) as Ho.
      destruct (flatMapC f l) as [t|e]; simpl.
      * repeat split; try reflexivity.
        -- destruct (children_with_nodes _ _ _ H0) as [Hy|Hy].
           ++ destruct (Ho y Hy) as (_ & _ & Hh).
              rewrite (height_eq n), En. lia.
           ++ now apply children_height.
        -- destruct (children_with_nodes _ _ _ H0) as [Hy|Hy]; [|tauto].
           destruct (Ho y Hy) as (_ & [Hy'|Hy'] & _); [|tauto].
           left. apply children_iff. eauto.
        -- intros _. exists t. split; [reflexivity|].
           intros y Hy. now apply Ho.
      * destruct Ho as (-> & x & Hx & Hw). split; [reflexivity|].
        apply wellFormed_child_false with (x := x); [|assumption].
        apply children_iff. eauto.
    + split; [reflexivity|]. unfold wellFormed. rewrite everywhere_eq.
      unfold blockHasNodes. now rewrite Et, En.
  - repeat split; try discriminate; try tauto. now apply children_height.
Qed.

(** One step: the callback, then the walk of the children. *)
Lemma step_outcome (n : Node.t) :
  (forall x, (Node.height x < Node.height n)%nat -> cleanedFrom x (f x)) ->
  cleanedFrom n (andThen (flattenBlock f n) (walkChildren f)).
Proof.
  intros H.
  assert (Hc : forall x, In x (children n) -> cleanedFrom x (f x))
    by (intros x Hx; apply H; now apply children_height).
  pose proof (flattenBlock_outcome n Hc) as Hf.
  destruct (flattenBlock f n) as [n1|e]; [|exact Hf]. cbn [andThen].
  destruct Hf as (Ht1 & Hy1 & Hkids & Hblock).
  assert (Hw : forall x, In x (children n1) ->
             match f x with
             | Normal y => cleanedFrom x (Normal y)
             | Abrupt e => cleanedFrom x (Abrupt e)
             end).
  { intros x Hx. destruct (Hkids x Hx) as [Hh _].
    specialize (H x Hh). now destruct (f x). }
  pose proof (@walkChildren_outcome f n1
                (fun x y => cleanedFrom x (Normal y))
                (fun x e => cleanedFrom x (Abrupt e)) Hw) as Ho.
  destruct (walkChildren f n1) as [n'|e].
  - destruct Ho as (Hall & Ht & Hy & Hnodes). simpl.
    assert (Hchild : forall y', In y' (children n') ->
              clean y' = true /\ (Node.height y' < Node.height n)%nat).
    { intros y' Hy'. destruct (Forall2_in_r y' Hall Hy') as (x & Hx & Hr).
      simpl in Hr. destruct (Hkids x Hx). split; [tauto|lia]. }
    repeat split; try congruence.
    + unfold clean. rewrite everywhere_eq. apply andb_true_iff. split.
      * unfold noBlockChild, blockHasNodes. rewrite Ht, Ht1.
        destruct (strIs (Node.type n) "Block") eqn:Eb; [|reflexivity].
        destruct (Hblock eq_refl) as (t & En1 & Hflat). rewrite En1 in Hnodes.
        destruct (Node.nodes n') as [t'|]; [|contradiction].
        rewrite andb_true_r. apply forallb_forall. intros y' Hy'.
        destruct (Forall2_in_r y' Hnodes Hy') as (x & Hx & Hr). simpl in Hr.
        destruct Hr as (_ & _ & Htx & Hyx).
        rewrite (isNestedBlock_shell x y' Htx Hyx), (Hflat x Hx).
        reflexivity.
      * apply forallb_forall. intros y' Hy'. now apply Hchild.
    + rewrite (height_children n'). apply Nat.le_succ_l.
      pose proof (height_pos n).
      assert (Node.heights (children n') <= Node.height n - 1)%nat; [|lia].
      apply heights_bound. intros y' Hy'. destruct (Hchild y' Hy'). lia.
  - destruct Ho as (x & Hx & He). simpl in He. destruct He as [-> Hwf].
    simpl. split; [reflexivity|].
    destruct (Hkids x Hx) as [_ [Hin|Hcl]].
    + now apply wellFormed_child_false with (x := x).
    + apply clean_wellFormed in Hcl. congruence.
Qed.

(** A step with another function that agrees with [f] below [n]. *)
Lemma step_ext (g : Node.t -> completion Node.t) (n : Node.t) :
  (forall x, (Node.height x < Node.height n)%nat -> cleanedFrom x (f x)) ->
  (forall x, (Node.height x < Node.height n)%nat -> g x = f x) ->
  andThen (flattenBlock g n) (walkChildren g)
  = andThen (flattenBlock f n) (walkChildren f).
Proof.
  intros H Hg.
  assert (Hc : forall x, In x (children n) -> cleanedFrom x (f x))
    by (intros x Hx; apply H; now apply children_height).
  assert (Ef : flattenBlock g n = flattenBlock f n).
  { rewrite !flattenBlock_flatMap.
    destruct (strIs (Node.type n) "Block"); [|reflexivity].
    destruct (Node.nodes n) as [l|] eqn:En; [|reflexivity].
    rewrite (flatMapC_ext g l); [reflexivity|].
    intros x Hx. apply Hg, children_height, children_iff. eauto. }
  rewrite Ef. pose proof (flattenBlock_outcome n Hc) as Hf.
  destruct (flattenBlock f n) as [n1|e]; [|reflexivity]. cbn [andThen].
  apply walkChildren_ext. intros x Hx. apply Hg.
  now apply Hf.
Qed.

(** A step on a clean tree. *)
Lemma step_clean (n : Node.t) :
  clean n = true ->
  (forall x, (Node.height x < Node.height n)%nat -> clean x = true ->
             f x = Normal x) ->
  andThen (flattenBlock f n) (walkChildren f) = Normal n.
Proof.
  intros Hc H.
  assert (Ef : flattenBlock f n = Normal n).
  { rewrite flattenBlock_flatMap.
    destruct (strIs (Node.type n) "Block") eqn:Et; [|reflexivity].
    destruct (clean_block_nodes n Hc Et) as (l & En & Hl). rewrite En.
    rewrite flatMapC_none by (intros x Hx; now apply Hl). simpl.
    now rewrite <- En, with_nodes_same. }
  rewrite Ef. cbn [andThen]. apply walkChildren_id.
  intros x Hx. apply H; [now apply children_height|].
  now apply (@everywhere_child _ n _ Hc).
Qed.

End Step.

(** *** The clean-up *)

Lemma cleanUpASTWithin_outcome (depth : nat) :
  forall n, (Node.height n < depth)%nat ->
            cleanedFrom n (cleanUpASTWithin depth n).
Proof.
  induction depth as [|depth IH]; intros n Hn; [lia|].
  simpl. apply step_outcome. intros x Hx. apply IH. lia.
Qed.

(** A stack deeper than the tree is high is enough: the result is that of
    [cleanUpAST], which is no overflow of the stack. *)
Lemma cleanUpASTWithin_agree (depth : nat) :
  forall depth' n,
    (Node.height n < depth)%nat -> (Node.height n < depth')%nat ->
    cleanUpASTWithin depth' n = cleanUpASTWithin depth n.
Proof.
  induction depth as [|depth IH]; intros depth' n Hn Hn'; [lia|].
  destruct depth' as [|depth']; [lia|]. simpl.
  apply step_ext.
  - intros x Hx. apply cleanUpASTWithin_outcome. lia.
  - intros x Hx. apply IH; lia.
Qed.

Lemma cleanUpASTWithin_enough (depth : nat) (n : Node.t) :
  (Node.height n < depth)%nat ->
  cleanUpASTWithin depth n = cleanUpAST n.
Proof.
  intros H. unfold cleanUpAST. apply cleanUpASTWithin_agree; lia.
Qed.

Lemma cleanUpAST_outcome (n : Node.t) : cleanedFrom n (cleanUpAST n).
Proof. unfold cleanUpAST. apply cleanUpASTWithin_outcome. lia. Qed.

Lemma cleanUpASTWithin_clean (depth : nat) :
  forall n, (Node.height n < depth)%nat -> clean n = true ->
            cleanUpASTWithin depth n = Normal n.
Proof.
  induction depth as [|depth IH]; intros n Hn Hc; [lia|].
  simpl. apply step_clean; [assumption|].
  intros x Hx Hcx. apply IH; [lia|assumption].
Qed.

(** [cleanUpAST] returns on every tree whose blocks have their array of
    children, and never for want of stack. *)
Lemma cleanUpAST_returns (n : Node.t) :
  wellFormed n = true -> exists n', cleanUpAST n = Normal n'.
Proof.
  intros Hw. pose proof (cleanUpAST_outcome n) as H.
  destruct (cleanUpAST n) as [n'|e]; [eauto|].
  simpl in H. destruct H as [_ H]. congruence.
Qed.

(** C1.  [cleanUpAST] is idempotent: on the tree a clean-up returns, a
    second clean-up returns the same tree; in that tree no [Block] has a
    child that is a block and no [yield], which is why the second pass
    changes nothing. *)
Theorem cleanUpAST_idempotent (t t' : Node.t) :
  cleanUpAST t = Normal t' ->
  cleanUpAST t' = Normal t' /\ flat t' = true.
Proof.
  intros E. pose proof (cleanUpAST_outcome t) as H. rewrite E in H.
  destruct H as (Hc & _). split; [|now apply clean_flat].
  unfold cleanUpAST. apply cleanUpASTWithin_clean; [lia|assumption].
Qed.

(** *** The order of the children of a cleaned block *)

Lemma Forall2_same (f : Node.t -> completion Node.t) (l l' : list Node.t) :
  (forall x, In x l -> f x = Normal x) ->
  Forall2 (fun x y => f x = Normal y) l l' -> l' = l.
Proof.
  intros H F. induction F as [|x y l l' Hxy _ IH]; [reflexivity|].
  rewrite (H x) in Hxy by now left. injection Hxy as <-.
  rewrite IH; [reflexivity|]. intros z Hz. apply H. now right.
Qed.


(** * Further properties *)

(** ** The escaping of interpolation openers *)

Lemma string_strong_ind (P : string -> Prop) :
  (forall s, (forall t, (String.length t < String.length s)%nat -> P t) -> P s) ->
  forall s, P s.
Proof.
  intros H s.
  assert (G : forall n t, (String.length t < n)%nat -> P t).
  { induction n as [|n IH]; intros t Ht; [lia|].
    apply H. intros u Hu. apply IH. lia. }
  apply (G (S (String.length s))). lia.
Qed.

Lemma opening_not_hash (c : ascii) : isOpening c = true -> Ascii.eqb c "#" = false.
Proof.
  unfold isOpening. intros H. apply orb_true_iff in H.
  destruct H as [H|H]; apply Ascii.eqb_eq in H; subst c; reflexivity.
Qed.

Lemma opening_not_backslash (c : ascii) :
  isOpening c = true -> Ascii.eqb c BS = false.
Proof.
  unfold isOpening. intros H. apply orb_true_iff in H.
  destruct H as [H|H]; apply Ascii.eqb_eq in H; subst c; reflexivity.
Qed.

Lemma startsOpener_inv (s : string) :
  startsOpener s = true ->
  exists b u, s = String "#" (String b u) /\ isOpening b = true.
Proof.
  destruct s as [|a [|b u]]; simpl; try discriminate.
  intros H. apply andb_true_iff in H. destruct H as [Ha Hb].
  apply Ascii.eqb_eq in Ha. subst a. eauto.
Qed.

(** The three cases of the scan of [escapeOpeners]. *)
Lemma escapeOpeners_escaped (t : string) :
  startsOpener t = true ->
  exists c r, t = String "#" (String c r) /\ isOpening c = true
    /\ escapeOpeners (String BS t)
       = String BS (String "#" (String c (escapeOpeners r))).
Proof.
  intros H. destruct (startsOpener_inv t H) as (c & r & -> & Hc).
  exists c, r. repeat split; [assumption|].
  cbn [escapeOpeners]. rewrite Hc. reflexivity.
Qed.

Lemma escapeOpeners_bare (s : string) :
  startsOpener s = true ->
  exists b u, s = String "#" (String b u) /\ isOpening b = true
    /\ escapeOpeners s = String BS (String "#" (String b (escapeOpeners u))).
Proof.
  intros H. destruct (startsOpener_inv s H) as (b & u & -> & Hb).
  exists b, u. repeat split; [assumption|].
  cbn [escapeOpeners]. destruct u as [|c r]; rewrite Hb; reflexivity.
Qed.

Lemma escapeOpeners_plain (a : ascii) (t : string) :
  startsOpener (String a t) = false ->
  (Ascii.eqb a BS && startsOpener t)%bool = false ->
  escapeOpeners (String a t) = String a (escapeOpeners t).
Proof.
  intros H1 H2. destruct t as [|b [|c r]]; cbn [escapeOpeners].
  - reflexivity.
  - simpl in H1. now rewrite H1.
  - simpl in H1, H2. rewrite H1.
    replace (Ascii.eqb a BS && Ascii.eqb b "#" && isOpening c)%bool
      with false by (now rewrite <- andb_assoc, H2).
    reflexivity.
Qed.

Lemma escapeOpeners_head (t : string) (c : ascii) (r' : string) :
  escapeOpeners t = String c r' -> c = BS \/ exists r, t = String c r.
Proof.
  destruct t as [|a t]; [discriminate|].
  destruct (Ascii.eqb a BS && startsOpener t)%bool eqn:E1.
  - apply andb_true_iff in E1. destruct E1 as [Ea Et].
    apply Ascii.eqb_eq in Ea. subst a.
    destruct (escapeOpeners_escaped t Et) as (d & r & -> & _ & ->).
    intros [= <- _]. now left.
  - destruct (startsOpener (String a t)) eqn:E2.
    + destruct (escapeOpeners_bare _ E2) as (b & u & _ & _ & ->).
      intros [= <- _]. now left.
    + rewrite escapeOpeners_plain by assumption. intros [= <- _]. eauto.
Qed.

Lemma openersEscaped_weaken (s : string) :
  openersEscaped false s = true -> openersEscaped true s = true.
Proof.
  destruct s as [|a t]; cbn [openersEscaped]; [reflexivity|].
  destruct (startsOpener (String a t)); cbn [andb]; [discriminate|auto].
Qed.

Lemma openersEscaped_strengthen (s : string) :
  startsOpener s = false ->
  openersEscaped true s = true -> openersEscaped false s = true.
Proof.
  destruct s as [|a t]; [reflexivity|]. intros H.
  cbn [openersEscaped]. now rewrite H.
Qed.

Lemma openersEscaped_any (b : bool) (s : string) :
  openersEscaped false s = true -> openersEscaped b s = true.
Proof. destruct b; [apply openersEscaped_weaken|auto]. Qed.

Lemma startsOpener_after (c : ascii) (t : string) :
  isOpening c = true -> startsOpener (String c t) = false.
Proof.
  intros Hc. destruct t as [|d t]; [reflexivity|].
  cbn [startsOpener]. now rewrite (opening_not_hash c Hc).
Qed.

Lemma openersEscaped_backslash (b : bool) (t : string) :
  openersEscaped b (String BS t) = openersEscaped true t.
Proof. destruct t as [|d t]; reflexivity. Qed.

Lemma openersEscaped_opener (c : ascii) (t : string) :
  isOpening c = true ->
  openersEscaped true (String "#" (String c t)) = openersEscaped false t.
Proof.
  intros Hc.
  change (openersEscaped true (String "#" (String c t)))
    with ((if startsOpener (String "#" (String c t)) then true else true)
          && ((if startsOpener (String c t) then false else true)
              && openersEscaped (Ascii.eqb c BS) t))%bool.
  rewrite (@startsOpener_after c t Hc), (opening_not_backslash c Hc).
  now destruct (startsOpener (String "#" (String c t))).
Qed.

Lemma escapeOpeners_escapes (s : string) :
  openersEscaped false (escapeOpeners s) = true.
Proof.
  induction s as [s IH] using string_strong_ind.
  destruct s as [|a t]; [reflexivity|].
  destruct (Ascii.eqb a BS && startsOpener t)%bool eqn:E1.
  - apply andb_true_iff in E1. destruct E1 as [Ea Et].
    apply Ascii.eqb_eq in Ea. subst a.
    destruct (escapeOpeners_escaped t Et) as (c & r & -> & Hc & ->).
    rewrite openersEscaped_backslash, openersEscaped_opener by assumption.
    apply IH. simpl. lia.
  - destruct (startsOpener (String a t)) eqn:E2.
    + destruct (escapeOpeners_bare _ E2) as (b & u & E & Hb & ->).
      injection E as -> ->.
      rewrite openersEscaped_backslash, openersEscaped_opener by assumption.
      apply IH. simpl. lia.
    + rewrite escapeOpeners_plain by assumption.
      cbn [openersEscaped].
      assert (Hs : startsOpener (String a (escapeOpeners t)) = false).
      { destruct (startsOpener (String a (escapeOpeners t))) eqn:Es;
          [|reflexivity].
        destruct (startsOpener_inv _ Es) as (b & u & E & Hb).
        injection E as -> Eu.
        destruct (escapeOpeners_head t Eu) as [->|(r & ->)];
          [discriminate|].
        simpl in E2. now rewrite Hb in E2. }
      rewrite Hs. cbn [andb].
      apply openersEscaped_any, IH. simpl. lia.
Qed.

Lemma escapeOpeners_keeps (s : string) :
  openersEscaped false s = true -> escapeOpeners s = s.
Proof.
  induction s as [s IH] using string_strong_ind. intros Hs.
  destruct s as [|a t]; [reflexivity|].
  destruct (Ascii.eqb a BS && startsOpener t)%bool eqn:E1.
  - apply andb_true_iff in E1. destruct E1 as [Ea Et].
    apply Ascii.eqb_eq in Ea. subst a.
    destruct (escapeOpeners_escaped t Et) as (c & r & -> & Hc & ->).
    do 3 f_equal. apply IH; [simpl; lia|].
    rewrite openersEscaped_backslash, openersEscaped_opener in Hs
      by assumption.
    exact Hs.
  - destruct (startsOpener (String a t)) eqn:E2.
    + cbn [openersEscaped] in Hs. rewrite E2 in Hs. discriminate.
    + rewrite escapeOpeners_plain by assumption. f_equal.
      apply IH; [simpl; lia|].
      cbn [openersEscaped] in Hs. rewrite E2 in Hs. cbn [andb] in Hs.
      destruct (Ascii.eqb a BS); [|assumption].
      apply openersEscaped_strengthen; assumption.
Qed.

(** X1.  The text put on the current line, and the pipeless text, are
    escaped once.  In what [escapeOpeners] returns every interpolation
    opener has a backslash before it; [escapeOpeners] leaves a text as it
    is exactly when that holds of it already; so a second escaping changes
    nothing. *)
Theorem escapeOpeners_once (s : string) :
  openersEscaped false (escapeOpeners s) = true
  /\ (escapeOpeners s = s <-> openersEscaped false s = true)
  /\ escapeOpeners (escapeOpeners s) = escapeOpeners s.
Proof.
  split; [apply escapeOpeners_escapes|]. split.
  - split; [|apply escapeOpeners_keeps].
    intros E. rewrite <- E. apply escapeOpeners_escapes.
  - apply escapeOpeners_keeps, escapeOpeners_escapes.
Qed.

Lemma escapeBareOpeners_bare (s : string) :
  startsOpener s = true ->
  exists b u, s = String "#" (String b u) /\ isOpening b = true
    /\ escapeBareOpeners s
       = String BS (String "#" (String b (escapeBareOpeners u))).
Proof.
  intros H. destruct (startsOpener_inv s H) as (b & u & -> & Hb).
  exists b, u. repeat split; [assumption|].
  cbn [escapeBareOpeners]. now rewrite Hb.
Qed.

Lemma escapeBareOpeners_plain (a : ascii) (t : string) :
  startsOpener (String a t) = false ->
  escapeBareOpeners (String a t) = String a (escapeBareOpeners t).
Proof.
  intros H. destruct t as [|b u]; cbn [escapeBareOpeners]; [reflexivity|].
  simpl in H. now rewrite H.
Qed.

Lemma escapeBareOpeners_head (t : string) (c : ascii) (r' : string) :
  escapeBareOpeners t = String c r' -> c = BS \/ exists r, t = String c r.
Proof.
  destruct t as [|a t]; [discriminate|].
  destruct (startsOpener (String a t)) eqn:E2.
  - destruct (escapeBareOpeners_bare _ E2) as (b & u & _ & _ & ->).
    intros [= <- _]. now left.
  - rewrite escapeBareOpeners_plain by assumption. intros [= <- _]. eauto.
Qed.

Lemma escapeBareOpeners_escapes (s : string) :
  openersEscaped false (escapeBareOpeners s) = true.
Proof.
  induction s as [s IH] using string_strong_ind.
  destruct s as [|a t]; [reflexivity|].
  destruct (startsOpener (String a t)) eqn:E2.
  - destruct (escapeBareOpeners_bare _ E2) as (b & u & E & Hb & ->).
    injection E as -> ->.
    rewrite openersEscaped_backslash, openersEscaped_opener by assumption.
    apply IH. simpl. lia.
  - rewrite escapeBareOpeners_plain by assumption.
    cbn [openersEscaped].
    assert (Hs : startsOpener (String a (escapeBareOpeners t)) = false).
    { destruct (startsOpener (String a (escapeBareOpeners t))) eqn:Es;
        [|reflexivity].
      destruct (startsOpener_inv _ Es) as (b & u & E & Hb).
      injection E as -> Eu.
      destruct (escapeBareOpeners_head t Eu) as [->|(r & ->)];
        [discriminate|].
      simpl in E2. now rewrite Hb in E2. }
    rewrite Hs. cbn [andb].
    apply openersEscaped_any, IH. simpl. lia.
Qed.

Lemma hasEscapedOpener_bare (b : ascii) (u : string) :
  isOpening b = true ->
  hasEscapedOpener (String "#" (String b u)) = hasEscapedOpener u.
Proof.
  intros Hb. cbn [hasEscapedOpener].
  now rewrite (opening_not_backslash b Hb).
Qed.

Lemma escapeBareOpeners_length (s : string) :
  (String.length s <= String.length (escapeBareOpeners s))%nat
  /\ (hasOpener s = true ->
      (String.length s < String.length (escapeBareOpeners s))%nat).
Proof.
  induction s as [s IH] using string_strong_ind.
  destruct s as [|a t]; [split; [apply Nat.le_refl|discriminate]|].
  destruct (startsOpener (String a t)) eqn:E2.
  - destruct (escapeBareOpeners_bare _ E2) as (b & u & E & Hb & ->).
    injection E as -> ->.
    destruct (IH u) as [H1 _]; [simpl; lia|].
    cbn [String.length]. split; intros; lia.
  - rewrite escapeBareOpeners_plain by assumption.
    destruct (IH t) as [H1 H2]; [simpl; lia|].
    cbn [String.length hasOpener]. rewrite E2. cbn [orb].
    split; [lia|]. intros H. specialize (H2 H). lia.
Qed.

Lemma escapeBareOpeners_keeps (s : string) :
  hasOpener s = false -> escapeBareOpeners s = s.
Proof.
  induction s as [|a t IH]; [reflexivity|].
  cbn [hasOpener]. intros H. apply orb_false_iff in H. destruct H as [H1 H2].
  rewrite escapeBareOpeners_plain by assumption. f_equal. auto.
Qed.

Lemma escapes_length (s : string) :
  (String.length (escapeOpeners s)
   <= String.length (escapeBareOpeners s))%nat
  /\ (hasEscapedOpener s = true ->
      (String.length (escapeOpeners s)
       < String.length (escapeBareOpeners s))%nat).
Proof.
  induction s as [s IH] using string_strong_ind.
  destruct s as [|a t]; [split; [apply Nat.le_refl|discriminate]|].
  destruct (Ascii.eqb a BS && startsOpener t)%bool eqn:E1.
  - apply andb_true_iff in E1. destruct E1 as [Ea Et].
    apply Ascii.eqb_eq in Ea. subst a.
    destruct (escapeOpeners_escaped t Et) as (c & r & -> & Hc & ->).
    rewrite escapeBareOpeners_plain by reflexivity.
    destruct (escapeBareOpeners_bare _ Et) as (b & u & E & _ & ->).
    injection E as <- <-.
    destruct (IH r) as [H1 _]; [simpl; lia|].
    cbn [String.length]. split; intros; lia.
  - destruct (startsOpener (String a t)) eqn:E2.
    + destruct (escapeOpeners_bare _ E2) as (b & u & E & Hb & ->).
      destruct (escapeBareOpeners_bare _ E2) as (b' & u' & E' & _ & ->).
      rewrite E in E'. injection E' as <- <-. injection E as -> ->.
      rewrite hasEscapedOpener_bare by assumption.
      destruct (IH u) as [H1 H2]; [simpl; lia|].
      cbn [String.length]. split; [lia|]. intros H. specialize (H2 H). lia.
    + rewrite escapeOpeners_plain, escapeBareOpeners_plain by assumption.
      destruct (IH t) as [H1 H2]; [simpl; lia|].
      cbn [String.length hasEscapedOpener]. rewrite E1. cbn [orb].
      split; [lia|]. intros H. specialize (H2 H). lia.
Qed.

Lemma escapes_agree (s : string) :
  hasEscapedOpener s = false -> escapeBareOpeners s = escapeOpeners s.
Proof.
  induction s as [s IH] using string_strong_ind. intros Hs.
  destruct s as [|a t]; [reflexivity|].
  cbn [hasEscapedOpener] in Hs. apply orb_false_iff in Hs.
  destruct Hs as [E1 Ht].
  destruct (startsOpener (String a t)) eqn:E2.
  - destruct (escapeOpeners_bare _ E2) as (b & u & E & Hb & ->).
    destruct (escapeBareOpeners_bare _ E2) as (b' & u' & E' & _ & ->).
    rewrite E in E'. injection E' as <- <-. injection E as -> ->.
    do 3 f_equal. apply IH; [simpl; lia|].
    cbn [hasEscapedOpener] in Ht. apply orb_false_iff in Ht. apply Ht.
  - rewrite escapeOpeners_plain, escapeBareOpeners_plain by assumption.
    f_equal. apply IH; [simpl; lia|assumption].
Qed.

(** X2.  A text on a line of its own is escaped by another rule than a text
    put on the current line.  What [escapeBareOpeners] returns has a
    backslash before every interpolation opener too; but it leaves a text
    as it is only when the text has no opener at all, and it agrees with
    [escapeOpeners] exactly on the texts none of whose openers has a
    backslash before it already: such an opener gets a second backslash. *)
Theorem escapeBareOpeners_doubles (s : string) :
  openersEscaped false (escapeBareOpeners s) = true
  /\ (escapeBareOpeners s = s <-> hasOpener s = false)
  /\ (escapeBareOpeners s = escapeOpeners s <-> hasEscapedOpener s = false).
Proof.
  split; [apply escapeBareOpeners_escapes|]. split.
  - split; [|apply escapeBareOpeners_keeps].
    intros E. destruct (hasOpener s) eqn:H; [|reflexivity].
    destruct (escapeBareOpeners_length s) as [_ L].
    specialize (L H). rewrite E in L. lia.
  - split; [|apply escapes_agree].
    intros E. destruct (hasEscapedOpener s) eqn:H; [|reflexivity].
    destruct (escapes_length s) as [_ L].
    specialize (L H). rewrite E in L. lia.
Qed.

(** ** [attrs] on any list *)

Section AttrsFurther.

Variable toConstant : string -> option jsval.

(** Once an id is kept, an attribute that is no class shorthand goes
    between the parentheses, whether it qualifies as id or not. *)
Lemma attrsEach_taken (this : Compiler) (st : attrsState) (a : Attr.t)
  (v : jsval) :
  classShorthand toConstant a = false ->
  id_ st = Some v -> jsTruthy v = true ->
  attrsEach toConstant this st a =
    mkAttrsState (regularAttrs st ++ [regularAttr toConstant this a])
                 (classes st) (id_ st).
Proof.
  intros Hc Hst Hv. unfold attrsEach, regularAttr.
  unfold classShorthand, constOf in Hc. rewrite Hc.
  rewrite Hst, Hv. cbn [negb]. rewrite andb_false_r. cbn [andb].
  unfold constOf.
  destruct (jsIsTrue match toConstant (Attr.val a) with
                     | Some v => v | None => JString "" end);
    [now rewrite append_nil_r|reflexivity].
Qed.

Lemma attrs_loop_taken (this : Compiler) (l : list Attr.t) (st : attrsState)
  (v : jsval) :
  id_ st = Some v -> jsTruthy v = true ->
  fold_left (attrsEach toConstant this) l st =
    mkAttrsState
      (regularAttrs st
       ++ map (regularAttr toConstant this)
              (List.filter (fun a => negb (classShorthand toConstant a)) l))
      (classes st ++ classesOf toConstant l)
      (id_ st).
Proof.
  revert st. induction l as [|a l IH]; intros st Hst Hv.
  - simpl. unfold classesOf; simpl.
    rewrite app_nil_r, append_nil_r. destruct st; reflexivity.
  - simpl fold_left. rewrite (@classesOf_cons toConstant). simpl List.filter.
    destruct (classShorthand toConstant a) eqn:Ec.
    + rewrite (@attrsEach_class toConstant) by assumption.
      rewrite IH by assumption. simpl.
      f_equal. now rewrite !append_assoc.
    + rewrite (@attrsEach_taken this st a v) by assumption.
      rewrite IH by assumption. simpl.
      f_equal. now rewrite <- app_assoc.
Qed.

Lemma classesOf_app (l1 l2 : list Attr.t) :
  classesOf toConstant (l1 ++ l2)%list
  = classesOf toConstant l1 ++ classesOf toConstant l2.
Proof.
  induction l1 as [|a l1 IH]; [reflexivity|].
  simpl app. rewrite !(@classesOf_cons toConstant), IH.
  now rewrite append_assoc.
Qed.

Lemma idShorthand_truthy (i : Attr.t) :
  idShorthand toConstant i = true -> jsTruthy (constOf toConstant i) = true.
Proof.
  unfold idShorthand. intros H.
  apply andb_true_iff in H. destruct H as [H _].
  apply andb_true_iff in H. now destruct H as [_ H].
Qed.

Lemma attrsOut_id (r : list string) (c : string) (v : jsval) :
  jsTruthy v = true ->
  attrsOut (mkAttrsState r c (Some v))
  = "#" ++ jsToString v ++ c ++ parenthesised r.
Proof.
  intros Hv. unfold attrsOut, parenthesised. cbn [regularAttrs classes id_].
  rewrite Hv.
  destruct r; cbn [append]; rewrite ?append_nil_r, ?append_assoc;
    reflexivity.
Qed.

Lemma attrsOut_no_id (r : list string) (c : string) :
  attrsOut (mkAttrsState r c None) = c ++ parenthesised r.
Proof.
  unfold attrsOut, parenthesised. cbn [regularAttrs classes id_].
  destruct r; cbn [append]; rewrite ?append_nil_r; reflexivity.
Qed.

(** X3.  Of several attributes that qualify for the id shorthand, [attrs]
    takes the first.  The classes come after it, in their order and from
    anywhere in the list; between the parentheses stand, in their order,
    the attributes before the id that qualify for no shorthand and the
    attributes after it that are no class shorthand: a later id stays
    there, as any other attribute. *)
Theorem attrs_first_id (this : Compiler) (pre post : list Attr.t)
  (i : Attr.t) :
  List.filter (idShorthand toConstant) pre = [] ->
  idShorthand toConstant i = true ->
  attrs toConstant (Some (pre ++ i :: post)%list) this =
    Normal ("#" ++ jsToString (constOf toConstant i)
            ++ classesOf toConstant (pre ++ post)%list
            ++ parenthesised
                 (map (regularAttr toConstant this)
                      (List.filter (noShorthand toConstant) pre
                       ++ List.filter
                            (fun a => negb (classShorthand toConstant a))
                            post)%list)).
Proof.
  intros Hpre Hi. unfold attrs. f_equal.
  assert (Ec : classShorthand toConstant i = false).
  { destruct (classShorthand toConstant i) eqn:E; auto.
    apply classShorthand_not_id in E. congruence. }
  rewrite fold_left_app. cbn [fold_left].
  rewrite (@attrs_loop_no_id toConstant this pre) by assumption.
  cbn [regularAttrs classes id_].
  rewrite (@attrsEach_id toConstant) by (assumption || reflexivity).
  rewrite (@attrs_loop_taken this post _ (constOf toConstant i))
    by (reflexivity || now apply idShorthand_truthy).
  cbn [regularAttrs classes id_].
  rewrite attrsOut_id by now apply idShorthand_truthy.
  rewrite classesOf_app, map_app. reflexivity.
Qed.

(** X4.  An attribute that is escaped, or whose value is no constant, never
    becomes a shorthand: a list of such attributes is written between the
    parentheses as it is, every attribute in its place, with nothing
    before the parentheses. *)
Theorem attrs_no_shorthand (this : Compiler) (l : list Attr.t) :
  Forall (fun a => Attr.escaped a = true \/ toConstant (Attr.val a) = None)
         l ->
  attrs toConstant (Some l) this
  = Normal (parenthesised (map (regularAttr toConstant this) l)).
Proof.
  intros H.
  assert (Hc : forall a, In a l -> classShorthand toConstant a = false).
  { intros a Ha. rewrite Forall_forall in H. unfold classShorthand, constOf.
    destruct (H a Ha) as [->| ->]; cbn; now rewrite ?andb_false_r. }
  assert (Hi : forall a, In a l -> idShorthand toConstant a = false).
  { intros a Ha. rewrite Forall_forall in H. unfold idShorthand, constOf.
    destruct (H a Ha) as [->| ->]; cbn; now rewrite ?andb_false_r. }
  clear H.
  assert (Hn : List.filter (noShorthand toConstant) l = l).
  { induction l as [|a l IH]; [reflexivity|].
    cbn [List.filter]. unfold noShorthand at 1.
    rewrite Hc, Hi by now left.
    cbn [negb andb]. f_equal. apply IH; intros; [apply Hc|apply Hi];
      now right. }
  assert (Hcs : List.filter (classShorthand toConstant) l = []).
  { clear Hn Hi. induction l as [|a l IH]; [reflexivity|].
    cbn [List.filter]. rewrite Hc by now left.
    apply IH. intros; apply Hc; now right. }
  assert (His : List.filter (idShorthand toConstant) l = []).
  { clear Hn Hc Hcs. induction l as [|a l IH]; [reflexivity|].
    cbn [List.filter]. rewrite Hi by now left.
    apply IH. intros; apply Hi; now right. }
  unfold attrs. f_equal.
  rewrite (@attrs_loop_no_id toConstant this l) by assumption.
  cbn [regularAttrs classes id_ app]. rewrite attrsOut_no_id.
  unfold classesOf. rewrite Hcs, Hn. reflexivity.
Qed.

End AttrsFurther.



(** ** The text is only added to *)

Lemma extends_refl (this : Compiler) : extends this this.
Proof. exists "". now rewrite append_nil_r. Qed.

Lemma extends_trans (a b c : Compiler) :
  extends a b -> extends b c -> extends a c.
Proof.
  intros [m1 H1] [m2 H2]. exists (m1 ++ m2).
  now rewrite H2, H1, append_assoc.
Qed.

Lemma join_snoc (sep : string) (l : list string) (x : string) :
  l <> [] -> join sep (l ++ [x]) = join sep l ++ sep ++ x.
Proof.
  induction l as [|y l IH]; [congruence|]. intros _.
  destruct l as [|z l]; [reflexivity|].
  change (join sep ((y :: z :: l) ++ [x]))
    with (y ++ sep ++ join sep ((z :: l) ++ [x])).
  rewrite IH by discriminate.
  change (join sep (y :: z :: l)) with (y ++ sep ++ join sep (z :: l)).
  now rewrite !append_assoc.
Qed.

Lemma join_appendLast (sep s : string) (l : list string) :
  l <> [] -> join sep (appendLast s l) = join sep l ++ s.
Proof.
  induction l as [|y l IH]; [congruence|]. intros _.
  destruct l as [|z l]; [reflexivity|].
  change (appendLast s (y :: z :: l)) with (y :: appendLast s (z :: l)).
  assert (E : exists z' l', appendLast s (z :: l) = z' :: l').
  { destruct l as [|w l]; simpl; eauto. }
  destruct E as (z' & l' & E).
  specialize (IH ltac:(discriminate)). rewrite E in *.
  change (join sep (y :: z' :: l')) with (y ++ sep ++ join sep (z' :: l')).
  rewrite IH.
  change (join sep (y :: z :: l)) with (y ++ sep ++ join sep (z :: l)).
  now rewrite !append_assoc.
Qed.

Lemma extends_buffer (s : string) (this : Compiler) :
  extends this (setBuf (appendLast s (buf this)) this).
Proof.
  unfold extends, written. cbn [buf setBuf].
  destruct (buf this) as [|y l] eqn:E.
  - exists "". reflexivity.
  - exists s. now apply join_appendLast.
Qed.

Lemma extends_bufLine (line : string) (this : Compiler) :
  extends this (setBuf (buf this ++ [line]) this).
Proof.
  unfold extends, written. cbn [buf setBuf].
  destruct (buf this) as [|y l] eqn:E.
  - exists line. reflexivity.
  - exists (str1 NL ++ line). now apply join_snoc.
Qed.

Section AppendsRules.

Lemma appends_ret {A} (a : A) : appends (ret a).
Proof. intros this. apply extends_refl. Qed.

Lemma appends_throw {A} (e : exn) : appends (@throw A e).
Proof. intros this. apply extends_refl. Qed.

Lemma appends_bind {A B} (m : M A) (f : A -> M B) :
  appends m -> (forall a, appends (f a)) -> appends (bind m f).
Proof.
  intros Hm Hf this. unfold bind. specialize (Hm this).
  destruct (m this) as [a this1|e this1]; [|assumption].
  eapply extends_trans; [exact Hm|]. apply Hf.
Qed.

Lemma appends_lift {A} (m : completion A) : appends (lift m).
Proof. intros this. unfold lift. destruct m; apply extends_refl. Qed.

Lemma appends_liftR {A} (f : Compiler -> completion A) : appends (liftR f).
Proof. intros this. unfold liftR. apply appends_lift. Qed.

Lemma appends_read {A} (f : Compiler -> A) : appends (read f).
Proof. intros this. apply extends_refl. Qed.

Lemma appends_write (f : Compiler -> Compiler) :
  (forall this, buf (f this) = buf this) -> appends (write f).
Proof.
  intros H this. exists "". unfold written. cbn [stateOf write].
  now rewrite H, append_nil_r.
Qed.

Lemma appends_buffer (content : option string) : appends (buffer content).
Proof.
  intros this. unfold buffer. destruct content; cbn [stateOf];
    [apply extends_buffer|apply extends_refl].
Qed.

Lemma appends_bufLine (content : option string) (add : option Z) :
  appends (bufLine content add).
Proof. intros this. unfold bufLine. cbn [stateOf]. apply extends_bufLine. Qed.

Lemma appends_when (b : bool) (m : M unit) : appends m -> appends (when b m).
Proof. intros H. destruct b; simpl; [assumption|apply appends_ret]. Qed.

Lemma appends_unlessNested (m : M unit) :
  appends m -> appends (unlessNested m).
Proof.
  intros H. unfold unlessNested. apply appends_bind; [apply appends_read|].
  intros a. now apply appends_when.
Qed.

Lemma appends_forEach {A} (f : A -> M unit) (l : list A) :
  (forall x, In x l -> appends (f x)) -> appends (forEach f l).
Proof.
  induction l as [|x l IH]; intros H; simpl; [apply appends_ret|].
  apply appends_bind; [apply H; now left|].
  intros _. apply IH. intros y Hy. apply H. now right.
Qed.

Lemma appends_visitPipelessText (val : option string) (noEscape : bool) :
  appends (visitPipelessText val noEscape).
Proof.
  intros this. unfold visitPipelessText. destruct val as [v|].
  - apply (appends_buffer (Some _)).
  - apply extends_refl.
Qed.

End AppendsRules.

Section HandlersAppend.

Variable toConstant : string -> option jsval.
Variable visitNode : Node.t -> option Node.t -> bool -> M unit.
Variable visitCode : Node.t -> bool -> option Node.t -> M unit.
Variable visitConditional : Node.t -> M unit.
Variable visitFilter : Node.t -> bool -> option Node.t -> M unit.

(** The calls on the children, of height [k] at most, only add to the
    text. *)
Variable k : nat.
Hypothesis appends_visitNode :
  forall x p i, (Node.height x <= k)%nat -> appends (visitNode x p i).
Hypothesis appends_visitCode :
  forall x i p, (Node.height x <= k)%nat -> appends (visitCode x i p).
Hypothesis appends_visitConditional :
  forall x, (Node.height x <= k)%nat -> appends (visitConditional x).
Hypothesis appends_visitFilter :
  forall x i p, (Node.height x <= k)%nat -> appends (visitFilter x i p).

Lemma appends_visit (on parent : option Node.t) (inline : bool) :
  (forall x, on = Some x -> (Node.height x <= k)%nat) ->
  appends (visit visitNode on parent inline).
Proof.
  intros H. unfold visit. destruct on as [x|].
  - apply appends_visitNode. now apply H.
  - apply appends_throw.
Qed.

Ltac appends_step :=
  first
    [ apply appends_ret
    | apply appends_buffer
    | apply appends_bufLine
    | apply appends_read
    | apply appends_visitPipelessText
    | apply appends_throw
    | apply appends_lift
    | apply appends_liftR
    | apply appends_write; intros ?; reflexivity
    | apply appends_when
    | apply appends_unlessNested
    | apply appends_visit; height_tac
    | apply appends_visitCode; height_tac
    | apply appends_visitConditional; height_tac
    | apply appends_visitFilter; height_tac
    | apply appends_bind; [|intros ?]
    | match goal with
      | |- appends (if ?b then _ else _) => destruct b eqn:?
      | |- appends (match ?x with _ => _ end) => destruct x eqn:?
      | |- appends (let _ := _ in _) => cbv zeta
      end ].

Ltac appends_auto := repeat appends_step.

Lemma appends_visitPipelessTextBlock (block : option Node.t)
  (noEscape : bool) :
  (forall b, block = Some b -> (Node.height b <= S k)%nat) ->
  appends (visitPipelessTextBlock visitNode block noEscape).
Proof.
  intros H. unfold visitPipelessTextBlock.
  apply appends_bind; [appends_auto|]. intros origIndents.
  apply appends_bind; [appends_auto|]. intros _.
  apply appends_bind; [appends_auto|]. intros _.
  apply appends_bind; [|intros _; appends_auto].
  destruct block as [b|] eqn:Eb; [|appends_auto].
  specialize (H b eq_refl).
  destruct (Node.nodes b) as [nodes|] eqn:En; [|appends_auto].
  apply appends_forEach. intros x Hx.
  pose proof (height_nodes b x En Hx).
  appends_auto.
Qed.

Lemma appends_visitBlockEach (block : Node.t) (inline : bool)
  (l : list Node.t) :
  forall prevLine first,
  (forall x, In x l -> (Node.height x <= k)%nat) ->
  appends (visitBlockEach visitNode block inline prevLine first l).
Proof.
  induction l as [|x l IH]; intros prevLine first H; simpl;
    [apply appends_ret|].
  apply appends_bind.
  - apply appends_visitNode. apply H. now left.
  - intros _. apply IH. intros y Hy. apply H. now right.
Qed.

Lemma appends_visitBlock (block : Node.t) (inline : bool)
  (parent : option Node.t) :
  (Node.height block <= S k)%nat ->
  appends (visitBlock visitNode block inline parent).
Proof.
  intros H. unfold visitBlock.
  destruct (Node.yield block); [appends_auto|].
  apply appends_bind; [appends_auto|]. intros dot. destruct dot.
  - apply appends_bind; [appends_auto|]. intros _.
    apply appends_visitPipelessTextBlock. now intros b [= <-].
  - apply appends_bind; [appends_auto|]. intros colon. destruct colon.
    + apply appends_bind; [appends_auto|]. intros _.
      apply appends_bind; [appends_auto|]. intros originalNested.
      apply appends_bind; [appends_auto|]. intros _.
      apply appends_bind; [|intros _; appends_auto].
      destruct (Node.nodes block) as [[|x l]|] eqn:En; appends_auto.
      apply appends_visit. intros y [= <-].
      pose proof (height_nodes block x En (or_introl eq_refl)). lia.
    + apply appends_bind; [appends_auto|]. intros _.
      apply appends_bind; [|intros _; appends_auto].
      destruct (Node.nodes block) as [l|] eqn:En; [|appends_auto].
      apply appends_visitBlockEach. intros x Hx.
      pose proof (height_nodes block x En Hx). lia.
Qed.

Lemma appends_visitFilterBody (filter : Node.t) (inline : bool)
  (parent : option Node.t) :
  (Node.height filter <= S k)%nat ->
  appends (visitFilterBody toConstant visitNode visitFilter
                           filter inline parent).
Proof.
  intros H. unfold visitFilterBody.
  apply appends_bind; [appends_auto|]. intros a.
  apply appends_bind; [appends_auto|]. intros _.
  apply appends_bind; [appends_auto|]. intros _.
  apply appends_bind; [|intros _; appends_auto].
  destruct (Node.block filter) as [b|] eqn:Eb; [|appends_auto].
  destruct (Node.nodes b) as [[|first rest]|] eqn:En; [appends_auto| |appends_auto].
  pose proof (height_nodes b first En (or_introl eq_refl)).
  destruct (strIs (Node.type first) "Filter") eqn:Ef.
  - destruct rest as [|second rest]; [|appends_auto].
    appends_auto.
  - destruct inline.
    + appends_auto.
    + apply appends_visitPipelessTextBlock. height_tac.
Qed.

Lemma appends_dispatch (n : Node.t) (parent : option Node.t)
  (inline : bool) :
  (Node.height n <= S k)%nat ->
  appends (dispatch toConstant visitNode visitCode visitConditional
                    visitFilter n parent inline).
Proof.
  intros H. unfold dispatch.
  repeat match goal with
         | |- appends (if ?b then _ else _) => destruct b
         end.
  all: try apply appends_throw.
  all: try (now apply appends_visitFilterBody).
  all: try (now apply appends_visitBlock).
  all: try (apply appends_visitPipelessTextBlock; now intros b [= <-]).
  all: try (unfold visitNamedBlock; apply appends_bind;
            [appends_auto|intros _; now apply appends_visitBlock]).
  all: try (unfold visitBlockComment; apply appends_bind;
            [appends_auto
            |intros _; apply appends_visitPipelessTextBlock; height_tac]).
  all: unfold visitCase, visitWhen, visitMixinBlock, visitDoctype, visitMixin,
         visitChildBlock, visitTag, visitText, visitComment, visitCodeBody,
         visitConditionalBody, visitWhile, visitEach, visitExtends,
         visitFileReference, visitInclude; appends_auto.
Qed.

End HandlersAppend.

Section VisitorAppends.

Variable toConstant : string -> option jsval.

Lemma visitor_appends (h : nat) :
  forall n, (Node.height n <= h)%nat ->
    (forall p i, appends (visitNode toConstant n p i))
    /\ (forall i p, appends (visitCode toConstant n i p))
    /\ appends (visitConditional toConstant n)
    /\ (forall i p, appends (visitFilter toConstant n i p)).
Proof.
  induction h as [|h IH]; intros n Hn.
  - pose proof (height_pos n). lia.
  - assert (Hnode : forall x p i, (Node.height x <= h)%nat ->
                                  appends (visitNode toConstant x p i))
      by (intros x p i Hx; now apply (IH x Hx)).
    assert (Hcode : forall x i p, (Node.height x <= h)%nat ->
                                  appends (visitCode toConstant x i p))
      by (intros x i p Hx; now apply (IH x Hx)).
    assert (Hcond : forall x, (Node.height x <= h)%nat ->
                              appends (visitConditional toConstant x))
      by (intros x Hx; now apply (IH x Hx)).
    assert (Hfilter : forall x i p, (Node.height x <= h)%nat ->
                                    appends (visitFilter toConstant x i p))
      by (intros x i p Hx; now apply (IH x Hx)).
    repeat split; intros.
    + rewrite visitNode_eq. now apply appends_dispatch with (k := h).
    + rewrite visitCode_eq. unfold visitCodeBody.
      pose proof (@appends_visit (visitNode toConstant) h Hnode) as Hv.
      repeat first
        [ apply appends_ret | apply appends_buffer | apply appends_bufLine
        | apply appends_read | apply appends_visitPipelessText
        | apply appends_throw | apply appends_lift
        | apply appends_write; intros ?; reflexivity
        | apply appends_when
        | apply Hv; height_tac
        | apply appends_bind; [|intros ?]
        | match goal with
          | |- appends (if ?b then _ else _) => destruct b eqn:?
          | |- appends (match ?x with _ => _ end) => destruct x eqn:?
          end ].
    + rewrite visitConditional_eq. unfold visitConditionalBody.
      pose proof (@appends_visit (visitNode toConstant) h Hnode) as Hv.
      repeat first
        [ apply appends_ret | apply appends_bufLine
        | apply appends_throw
        | apply Hv; height_tac
        | apply Hcond; height_tac
        | apply appends_bind; [|intros ?]
        | match goal with
          | |- appends (if ?b then _ else _) => destruct b eqn:?
          | |- appends (match ?x with _ => _ end) => destruct x eqn:?
          end ].
    + rewrite visitFilter_eq.
      now apply appends_visitFilterBody with (k := h).
Qed.

(** X5.  A visit only adds to the text.  Whatever the node, its parent and
    the state of the compiler, the text written when [visit] returns or
    throws begins with the text that was written when it was called: no
    handler takes back or rewrites what was written before it. *)
Theorem visit_appends (on parent : option Node.t) (inline : bool)
  (this : Compiler) :
  exists more,
    written (stateOf (visit (visitNode toConstant) on parent inline this))
    = written this ++ more.
Proof.
  pose (h := match on with Some x => Node.height x | None => O end).
  apply (@appends_visit (visitNode toConstant) h).
  - intros x p i Hx. now apply visitor_appends with (h := h) (n := x).
  - intros x ->. apply le_n.
Qed.

End VisitorAppends.

(** ** What a visit leaves of [nested] and [inline] *)

Section NestedProperties.

Variable toConstant : string -> option jsval.

(** X6.  [nested], which the block expansion and the chained filters set,
    is put back: a call of [visit] that returns leaves it as it found it,
    and so do [visitBlock] and [visitFilter] called on a node directly.
    [inline] is never written, whether [visit] returns or throws. *)
Theorem nested_restored (n : Node.t) (parent : option Node.t)
  (i : bool) (this : Compiler) :
  inline (stateOf (visit (visitNode toConstant) (Some n) parent i this))
  = inline this
  /\ (forall this',
        visit (visitNode toConstant) (Some n) parent i this = Ok tt this' ->
        nested this' = nested this)
  /\ (forall this',
        visitBlock (visitNode toConstant) n i parent this = Ok tt this' ->
        nested this' = nested this)
  /\ (forall this',
        visitFilter toConstant n i parent this = Ok tt this' ->
        nested this' = nested this).
Proof.
  assert (T : tidy (Node.height n)
                   (visit (visitNode toConstant) (Some n) parent i)).
  { apply tidy_visit_all. now intros x [= <-]. }
  repeat split.
  - specialize (T this).
    destruct (visit _ _ _ _ _) as [a this'|e this']; apply T.
  - intros this' E. eapply tidy_returns in E; [apply E|exact T].
  - intros this' E. eapply tidy_returns in E; [apply E|].
    apply tidy_visitBlock with (k := Node.height n); [|lia].
    intros x p j Hx.
    now apply visitor_tidy with (h := Node.height n) (n := x).
  - intros this' E. eapply tidy_returns in E; [apply E|].
    apply visitor_tidy with (h := Node.height n) (n := n). lia.
Qed.

End NestedProperties.

(** ** A child that is not there *)

Ltac decide_types :=
  cbn [strIs];
  repeat match goal with
         | |- context [String.eqb ?a ?b] =>
             let v := eval vm_compute in (String.eqb a b) in
             change (String.eqb a b) with v
         end;
  cbv iota.

Section MissingChild.

Variable toConstant : string -> option jsval.

(** X7.  A [Case], a [While] or an [Each] with no block.  The head of the
    statement is written, on a line of its own at the depth of the visit,
    and then [visit] throws a [TypeError] for the block that is not there:
    the message names the statement by its type and gives its place, file
    name or [Jade] and line.  Nothing else is written, and nothing else of
    the compiler changes. *)
Theorem missing_block (n : Node.t) (parent : option Node.t) (i : bool)
  (this : Compiler) :
  Node.block n = None ->
  let thrown line :=
    Throw (TypeError (missingChildOf n))
          (setBuf (buf this ++ [indent None this ++ line]) this) in
  (Node.type n = Some "Case" ->
   visit (visitNode toConstant) (Some n) parent i this
   = thrown ("case " ++ str (Node.expr n)))
  /\ (Node.type n = Some "While" ->
      visit (visitNode toConstant) (Some n) parent i this
      = thrown ("while " ++ str (Node.test n)))
  /\ (Node.type n = Some "Each" ->
      visit (visitNode toConstant) (Some n) parent i this
      = thrown ("each " ++ str (Node.val n)
                ++ (if truthy (Node.key n) then ", " ++ str (Node.key n)
                    else "")
                ++ " in " ++ str (Node.obj n))).
Proof.
  intros Hb thrown. subst thrown. cbv beta.
  assert (M : forall this0,
             visit (visitNode toConstant) (Node.block n) (Some n) false this0
             = Throw (TypeError (missingChildOf n)) this0).
  { intros this0. rewrite Hb. unfold visit, throw, missingChildOf, location.
    do 2 f_equal. now rewrite !append_assoc. }
  repeat split; intros Ht; unfold visit; rewrite visitNode_eq;
    unfold dispatch; rewrite Ht; decide_types.
  - unfold visitCase, bind, bufLine. now rewrite M.
  - unfold visitWhile, bind, bufLine. now rewrite M.
  - unfold visitEach, bind, bufLine. now rewrite M.
Qed.

(** X8.  An [Extends] or an [Include] with no file.  Its head is written,
    on a line of its own at the depth of the visit ([extends ], and
    [include ] when the [Include] has no filter), and [visit] throws; but
    the file is visited with no parent, and the message speaks of a node
    at the top of the tree, with no type and no place.  Nothing else is
    written, and nothing else of the compiler changes. *)
Theorem missing_file (n : Node.t) (parent : option Node.t) (i : bool)
  (this : Compiler) :
  Node.file n = None ->
  let thrown line :=
    Throw (TypeError
             "A top-level node is undefined, expected a Jade AST Node.")
          (setBuf (buf this ++ [indent None this ++ line]) this) in
  (Node.type n = Some "Extends" ->
   visit (visitNode toConstant) (Some n) parent i this = thrown "extends ")
  /\ (Node.type n = Some "Include" -> truthy (Node.filter n) = false ->
      visit (visitNode toConstant) (Some n) parent i this
      = thrown "include ").
Proof.
  intros Hf thrown. subst thrown. cbv beta.
  split; intros Ht; unfold visit; rewrite visitNode_eq;
    unfold dispatch; rewrite Ht; decide_types.
  - unfold visitExtends, bind, bufLine. rewrite Hf. reflexivity.
  - intros Hfl. unfold visitInclude, bind, bufLine. rewrite Hfl, Hf.
    cbn [ret buffer visit throw].
    unfold setBuf. cbn [buf options node indents nested inline].
    rewrite appendLast_snoc, append_assoc. reflexivity.
Qed.

End MissingChild.

(** ** Pipeless text *)



Section PipelessText.

Variable toConstant : string -> option jsval.


End PipelessText.

(** ** [generateCode] on a tree that is clean already *)

(** X11.  To clean a tree before it is handed to [generateCode] changes
    nothing: [generateCode] gives for the cleaned tree what it gives for
    the tree, the text or the exception. *)
Theorem generateCode_cleaned (toConstant : string -> option jsval)
  (ast ast' : Node.t) (options : Options.t) :
  cleanUpAST ast = Normal ast' ->
  generateCode toConstant ast' options = generateCode toConstant ast options.
Proof.
  intros E. unfold generateCode, newCompiler.
  pose proof (cleanUpAST_outcome ast) as Ho. rewrite E in Ho.
  cbn in Ho. destruct Ho as (Hc & _).
  assert (E' : cleanUpAST ast' = Normal ast').
  { unfold cleanUpAST. apply cleanUpASTWithin_clean; [lia|assumption]. }
  rewrite E, E'. reflexivity.
Qed.

(** ** The depth of the lines a visit adds *)

Lemma appendLast_empty (l : list string) : appendLast "" l = l.
Proof.
  induction l as [|x l IH]; [reflexivity|].
  destruct l as [|y l]; cbn [appendLast]; [now rewrite append_nil_r|].
  cbn [appendLast] in IH. now rewrite IH.
Qed.

Lemma appendLast_cons (s x y : string) (l : list string) :
  appendLast s (x :: y :: l) = x :: appendLast s (y :: l).
Proof. reflexivity. Qed.

Lemma appendLast_app (s : string) (l more : list string) :
  more <> [] -> appendLast s (l ++ more) = (l ++ appendLast s more)%list.
Proof.
  intros H. induction l as [|x l IH]; [reflexivity|].
  cbn [app]. destruct (l ++ more)%list as [|y r] eqn:E.
  - destruct l; [cbn in E; congruence|discriminate].
  - rewrite appendLast_cons. now rewrite IH.
Qed.

Lemma appendLast_twice (s s' : string) (l : list string) :
  appendLast s' (appendLast s l) = appendLast (s ++ s') l.
Proof.
  induction l as [|x l IH]; [reflexivity|].
  destruct l as [|y l]; [cbn; now rewrite append_assoc|].
  rewrite !appendLast_cons.
  assert (E : exists z r, appendLast s (y :: l) = z :: r).
  { destruct l as [|w l]; cbn; eauto. }
  destruct E as (z & r & E). rewrite <- IH, E. apply appendLast_cons.
Qed.

Lemma startsAt_append (c : string) (d : Z) (line s : string) :
  startsAt c d line -> startsAt c d (line ++ s).
Proof. intros [rest ->]. exists (rest ++ s). now rewrite append_assoc. Qed.

Lemma Forall_appendLast (c : string) (d : Z) (s : string)
  (l : list string) :
  Forall (startsAt c d) l -> Forall (startsAt c d) (appendLast s l).
Proof.
  induction 1 as [|x l Hx Hl IH]; [constructor|].
  destruct l as [|y l].
  - constructor; [now apply startsAt_append|constructor].
  - rewrite appendLast_cons. now constructor.
Qed.

Lemma repeatNat_add (c : string) (a b : nat) :
  repeatNat c (a + b) = repeatNat c a ++ repeatNat c b.
Proof.
  induction a as [|a IH]; [reflexivity|].
  cbn [Nat.add repeatNat]. now rewrite IH, append_assoc.
Qed.

Lemma startsAt_deeper (c : string) (d e : Z) (x : string) :
  (d <= e)%Z -> startsAt c d (repeat c e ++ x).
Proof.
  intros H. unfold startsAt, repeat.
  replace (Z.to_nat e) with (Z.to_nat d + (Z.to_nat e - Z.to_nat d))%nat
    by lia.
  rewrite repeatNat_add. eexists. now rewrite append_assoc.
Qed.

Lemma under_refl (c : string) (d : Z) (this : Compiler) :
  Options.indentChar (options this) = c -> under c d this this.
Proof.
  intros H. split; [assumption|]. exists "", [].
  now rewrite app_nil_r, appendLast_empty.
Qed.

Lemma under_trans (c : string) (d : Z) (x y z : Compiler) :
  under c d x y -> under c d y z -> under c d x z.
Proof.
  intros [_ (s1 & m1 & E1 & F1)] [Hc (s2 & m2 & E2 & F2)].
  split; [assumption|]. rewrite E1 in E2.
  destruct m1 as [|l1 m1].
  - rewrite app_nil_r, appendLast_twice in E2. eauto.
  - rewrite appendLast_app in E2 by discriminate.
    rewrite <- app_assoc in E2.
    exists s1, (appendLast s2 (l1 :: m1) ++ m2)%list.
    split; [assumption|]. apply Forall_app. split; [|assumption].
    now apply Forall_appendLast.
Qed.

Section NestsRules.

Variable c : string.
Variable d : Z.

Lemma nests_ret {A} (a : A) : nests c d (ret a).
Proof. intros this Hc Hd. cbn. split; [reflexivity|now apply under_refl]. Qed.

Lemma nests_throw {A} (e : exn) : nests c d (@throw A e).
Proof. intros this Hc Hd. cbn. now apply under_refl. Qed.

Lemma nests_bind {A B} (m : M A) (f : A -> M B) :
  nests c d m -> (forall a, nests c d (f a)) -> nests c d (bind m f).
Proof.
  intros Hm Hf this Hc Hd. unfold bind. specialize (Hm this Hc Hd).
  destruct (m this) as [a this1|e this1]; [|assumption].
  destruct Hm as [Hi Hu].
  assert (Hc1 : Options.indentChar (options this1) = c) by apply Hu.
  specialize (Hf a this1 Hc1 ltac:(lia)).
  destruct (f a this1) as [b this2|e this2].
  - destruct Hf as [Hi2 Hu2]. split; [congruence|].
    eapply under_trans; eauto.
  - eapply under_trans; eauto.
Qed.

Lemma nests_lift {A} (m : completion A) : nests c d (lift m).
Proof.
  intros this Hc Hd. unfold lift.
  destruct m; [split; [reflexivity|]|]; now apply under_refl.
Qed.

Lemma nests_liftR {A} (f : Compiler -> completion A) : nests c d (liftR f).
Proof. intros this. unfold liftR. apply nests_lift. Qed.

Lemma nests_read {A} (f : Compiler -> A) : nests c d (read f).
Proof. intros this Hc Hd. cbn. split; [reflexivity|now apply under_refl]. Qed.

Lemma nests_setNested (b : bool) : nests c d (write (setNested b)).
Proof.
  intros this Hc Hd. cbn. split; [reflexivity|].
  split; [assumption|]. exists "", [].
  cbn. now rewrite app_nil_r, appendLast_empty.
Qed.

Lemma nests_buffer (content : option string) : nests c d (buffer content).
Proof.
  intros this Hc Hd. unfold buffer. destruct content as [s|].
  - split; [reflexivity|]. split; [assumption|]. exists s, [].
    cbn. now rewrite app_nil_r.
  - split; [reflexivity|now apply under_refl].
Qed.

Lemma nests_bufLine (content : option string) (add : option Z) :
  match add with Some a => (0 <= a)%Z | None => True end ->
  nests c d (bufLine content add).
Proof.
  intros Ha this Hc Hd. unfold bufLine. split; [reflexivity|].
  split; [assumption|]. exists "". eexists. cbn [buf setBuf].
  rewrite appendLast_empty. split; [reflexivity|].
  constructor; [|constructor]. unfold indent. rewrite Hc.
  apply startsAt_deeper. destruct add; lia.
Qed.

Lemma nests_when (b : bool) (m : M unit) :
  nests c d m -> nests c d (when b m).
Proof. intros H. destruct b; simpl; [assumption|apply nests_ret]. Qed.

Lemma nests_unlessNested (m : M unit) :
  nests c d m -> nests c d (unlessNested m).
Proof.
  intros H. unfold unlessNested. apply nests_bind; [apply nests_read|].
  intros a. now apply nests_when.
Qed.

Lemma nests_forEach {A} (f : A -> M unit) (l : list A) :
  (forall x, In x l -> nests c d (f x)) -> nests c d (forEach f l).
Proof.
  induction l as [|x l IH]; intros H; simpl; [apply nests_ret|].
  apply nests_bind; [apply H; now left|].
  intros _. apply IH. intros y Hy. apply H. now right.
Qed.

Lemma nests_visitPipelessText (val : option string) (noEscape : bool) :
  nests c d (visitPipelessText val noEscape).
Proof.
  intros this. unfold visitPipelessText. destruct val as [v|].
  - apply (nests_buffer (Some _)).
  - intros Hc Hd. now apply under_refl.
Qed.

Lemma under_to_setIndents (i : Z) (this this' : Compiler) :
  under c d this this' -> under c d this (setIndents i this').
Proof. intros H. exact H. Qed.

(** [this.indents++], a body, [this.indents--]. *)
Lemma nests_indented (m : M unit) :
  nests c d m ->
  nests c d (write (fun this => setIndents (indents this + 1) this) ;;;
             m ;;;
             write (fun this => setIndents (indents this - 1) this)).
Proof.
  intros H this Hc Hd. unfold bind, write.
  specialize (H (setIndents (indents this + 1) this) Hc).
  cbn [indents setIndents] in H. specialize (H ltac:(lia)).
  destruct (m _) as [a this1|e this1].
  - destruct H as [Hi Hu]. split; [cbn; lia|].
    apply under_to_setIndents. exact Hu.
  - exact H.
Qed.

(** The depth saved, made deeper, two bodies, the depth put back. *)
Lemma nests_saved_indents (f : Compiler -> Z) (m1 m2 : M unit) :
  (forall this, (indents this <= f this)%Z) ->
  nests c d m1 -> nests c d m2 ->
  nests c d (origIndents <- read indents ;;
             write (fun this => setIndents (f this) this) ;;;
             m1 ;;; m2 ;;;
             write (setIndents origIndents)).
Proof.
  intros Hf H1 H2 this Hc Hd. unfold bind, write, read.
  specialize (H1 (setIndents (f this) this) Hc).
  cbn [indents setIndents] in H1. specialize (Hf this).
  specialize (H1 ltac:(lia)).
  destruct (m1 _) as [a this1|e this1]; [|exact H1].
  destruct H1 as [Hi1 Hu1].
  assert (Hc1 : Options.indentChar (options this1) = c) by apply Hu1.
  specialize (H2 this1 Hc1 ltac:(lia)).
  destruct (m2 _) as [b this2|e this2].
  - destruct H2 as [Hi2 Hu2]. split; [reflexivity|].
    apply under_to_setIndents.
    apply under_trans with (y := this1); assumption.
  - apply under_trans with (y := this1); assumption.
Qed.

End NestsRules.

Section HandlersNest.

Variable toConstant : string -> option jsval.
Variable visitNode : Node.t -> option Node.t -> bool -> M unit.
Variable visitCode : Node.t -> bool -> option Node.t -> M unit.
Variable visitConditional : Node.t -> M unit.
Variable visitFilter : Node.t -> bool -> option Node.t -> M unit.

Variable c : string.
Variable d : Z.

(** The calls on the children, of height [k] at most, add lines at depth
    [d] or deeper only. *)
Variable k : nat.
Hypothesis nests_visitNode :
  forall x p i, (Node.height x <= k)%nat -> nests c d (visitNode x p i).
Hypothesis nests_visitCode :
  forall x i p, (Node.height x <= k)%nat -> nests c d (visitCode x i p).
Hypothesis nests_visitConditional :
  forall x, (Node.height x <= k)%nat -> nests c d (visitConditional x).
Hypothesis nests_visitFilter :
  forall x i p, (Node.height x <= k)%nat -> nests c d (visitFilter x i p).

Lemma nests_visit (on parent : option Node.t) (inline : bool) :
  (forall x, on = Some x -> (Node.height x <= k)%nat) ->
  nests c d (visit visitNode on parent inline).
Proof.
  intros H. unfold visit. destruct on as [x|].
  - apply nests_visitNode. now apply H.
  - apply nests_throw.
Qed.

Ltac nests_step :=
  first
    [ apply nests_ret
    | apply nests_buffer
    | apply nests_bufLine; first [exact I | cbn; lia]
    | apply nests_read
    | apply nests_visitPipelessText
    | apply nests_throw
    | apply nests_lift
    | apply nests_liftR
    | apply nests_setNested
    | apply nests_indented
    | apply nests_saved_indents;
        [intros ?; cbv zeta; try destruct (_ =? _)%Z; lia| |]
    | apply nests_when
    | apply nests_unlessNested
    | apply nests_visit; height_tac
    | apply nests_visitCode; height_tac
    | apply nests_visitConditional; height_tac
    | apply nests_visitFilter; height_tac
    | apply nests_bind; [|intros ?]
    | match goal with
      | |- nests _ _ (if ?b then _ else _) => destruct b eqn:?
      | |- nests _ _ (match ?x with _ => _ end) => destruct x eqn:?
      | |- nests _ _ (let _ := _ in _) => cbv zeta
      end ].

Ltac nests_auto := repeat nests_step.

Lemma nests_visitPipelessTextBlock (block : option Node.t)
  (noEscape : bool) :
  (forall b, block = Some b -> (Node.height b <= S k)%nat) ->
  nests c d (visitPipelessTextBlock visitNode block noEscape).
Proof.
  intros H. unfold visitPipelessTextBlock.
  apply nests_saved_indents;
    [intros ?; cbv zeta; destruct (_ =? _)%Z; lia
    |apply nests_bufLine; exact I|].
  destruct block as [b|] eqn:Eb; [|nests_auto].
  specialize (H b eq_refl).
  destruct (Node.nodes b) as [nodes|] eqn:En; [|nests_auto].
  apply nests_forEach. intros x Hx.
  pose proof (height_nodes b x En Hx).
  nests_auto.
Qed.

Lemma nests_visitBlockEach (block : Node.t) (inline : bool)
  (l : list Node.t) :
  forall prevLine first,
  (forall x, In x l -> (Node.height x <= k)%nat) ->
  nests c d (visitBlockEach visitNode block inline prevLine first l).
Proof.
  induction l as [|x l IH]; intros prevLine first H; simpl;
    [apply nests_ret|].
  apply nests_bind.
  - apply nests_visitNode. apply H. now left.
  - intros _. apply IH. intros y Hy. apply H. now right.
Qed.

Lemma nests_visitBlock (block : Node.t) (inline : bool)
  (parent : option Node.t) :
  (Node.height block <= S k)%nat ->
  nests c d (visitBlock visitNode block inline parent).
Proof.
  intros H. unfold visitBlock.
  destruct (Node.yield block); [nests_auto|].
  apply nests_bind; [nests_auto|]. intros dot. destruct dot.
  - apply nests_bind; [nests_auto|]. intros _.
    apply nests_visitPipelessTextBlock. now intros b [= <-].
  - apply nests_bind; [nests_auto|]. intros colon. destruct colon.
    + apply nests_bind; [nests_auto|]. intros _.
      apply nests_bind; [nests_auto|]. intros originalNested.
      apply nests_bind; [nests_auto|]. intros _.
      apply nests_bind; [|intros _; nests_auto].
      destruct (Node.nodes block) as [[|x l]|] eqn:En; nests_auto.
      apply nests_visit. intros y [= <-].
      pose proof (height_nodes block x En (or_introl eq_refl)). lia.
    + apply nests_indented.
      destruct (Node.nodes block) as [l|] eqn:En; [|nests_auto].
      apply nests_visitBlockEach. intros x Hx.
      pose proof (height_nodes block x En Hx). lia.
Qed.

Lemma nests_visitFilterBody (filter : Node.t) (inline : bool)
  (parent : option Node.t) :
  (Node.height filter <= S k)%nat ->
  nests c d (visitFilterBody toConstant visitNode visitFilter
                             filter inline parent).
Proof.
  intros H. unfold visitFilterBody.
  apply nests_bind; [nests_auto|]. intros a.
  apply nests_bind; [nests_auto|]. intros _.
  apply nests_bind; [nests_auto|]. intros _.
  apply nests_bind; [|intros _; nests_auto].
  destruct (Node.block filter) as [b|] eqn:Eb; [|nests_auto].
  destruct (Node.nodes b) as [[|first rest]|] eqn:En;
    [nests_auto| |nests_auto].
  pose proof (height_nodes b first En (or_introl eq_refl)).
  destruct (strIs (Node.type first) "Filter") eqn:Ef.
  - destruct rest as [|second rest]; [|nests_auto].
    nests_auto.
  - destruct inline.
    + nests_auto.
    + apply nests_visitPipelessTextBlock. height_tac.
Qed.

(** Once its head is written, a filter adds to the line of the head and
    writes lines at depth [d] or deeper. *)
Lemma under_visitFilterBody (filter : Node.t) (inline : bool)
  (parent : option Node.t) (this : Compiler) (a : string) :
  (Node.height filter <= S k)%nat ->
  attrs toConstant (Node.attrs filter) this = Normal a ->
  Options.indentChar (options this) = c -> (d <= indents this)%Z ->
  under c d (filterBegun filter inline a this)
        (stateOf (visitFilterBody toConstant visitNode visitFilter
                                  filter inline parent this)).
Proof.
  intros H Ha Hc Hd. unfold visitFilterBody.
  unfold bind at 1. unfold liftR, lift. rewrite Ha. cbv zeta.
  match goal with
  | |- under _ _ _ (stateOf (bind _ (fun _ => bind _ (fun _ => ?t)) _)) =>
      set (tail := t)
  end.
  assert (N : nests c d tail).
  { subst tail. apply nests_bind; [|intros _; nests_auto].
    destruct (Node.block filter) as [b|] eqn:Eb; [|nests_auto].
    destruct (Node.nodes b) as [[|first rest]|] eqn:En;
      [nests_auto| |nests_auto].
    pose proof (height_nodes b first En (or_introl eq_refl)).
    destruct (strIs (Node.type first) "Filter") eqn:Ef.
    - destruct rest as [|second rest]; [|nests_auto].
      nests_auto.
    - destruct inline.
      + nests_auto.
      + apply nests_visitPipelessTextBlock. height_tac. }
  assert (B : forall t, Options.indentChar (options t) = c ->
                        (d <= indents t)%Z ->
                        under c d t (stateOf (tail t))) by
    (intros t Hct Hdt; specialize (N t Hct Hdt);
     destruct (tail t); [apply N|exact N]).
  clearbody tail. unfold bind at 1.
  unfold filterBegun. destruct inline; cbn [when ret buffer orb].
  - unfold bind at 1. cbn [read]. cbn [orb buffer].
    apply B; assumption.
  - unfold bind at 1. unfold bind at 1. cbn [read].
    destruct (nested this); cbn [orb buffer bufLine]; apply B; assumption.
Qed.

Lemma nests_visitCodeBody (code : Node.t) (inline : bool)
  (parent : option Node.t) :
  (Node.height code <= S k)%nat ->
  nests c d (visitCodeBody visitNode code inline parent).
Proof. intros H. unfold visitCodeBody. nests_auto. Qed.

Lemma nests_visitConditionalBody (cond : Node.t) :
  (Node.height cond <= S k)%nat ->
  nests c d (visitConditionalBody visitNode visitConditional cond).
Proof. intros H. unfold visitConditionalBody. nests_auto. Qed.

Lemma nests_dispatch (n : Node.t) (parent : option Node.t)
  (inline : bool) :
  (Node.height n <= S k)%nat ->
  nests c d (dispatch toConstant visitNode visitCode visitConditional
                      visitFilter n parent inline).
Proof.
  intros H. unfold dispatch.
  repeat match goal with
         | |- nests _ _ (if ?b then _ else _) => destruct b
         end.
  all: try apply nests_throw.
  all: try (now apply nests_visitFilterBody).
  all: try (now apply nests_visitBlock).
  all: try (now apply nests_visitCodeBody).
  all: try (now apply nests_visitConditionalBody).
  all: try (apply nests_visitPipelessTextBlock; now intros b [= <-]).
  all: try (unfold visitNamedBlock; apply nests_bind;
            [nests_auto|intros _; now apply nests_visitBlock]).
  all: try (unfold visitBlockComment; apply nests_bind;
            [nests_auto
            |intros _; apply nests_visitPipelessTextBlock; height_tac]).
  all: unfold visitCase, visitWhen, visitMixinBlock, visitDoctype, visitMixin,
         visitChildBlock, visitTag, visitText, visitComment,
         visitWhile, visitEach, visitExtends,
         visitFileReference, visitInclude; nests_auto.
Qed.

End HandlersNest.

Section VisitorNests.

Variable toConstant : string -> option jsval.
Variable c : string.
Variable d : Z.

Lemma visitor_nests (h : nat) :
  forall n, (Node.height n <= h)%nat ->
    (forall p i, nests c d (visitNode toConstant n p i))
    /\ (forall i p, nests c d (visitCode toConstant n i p))
    /\ nests c d (visitConditional toConstant n)
    /\ (forall i p, nests c d (visitFilter toConstant n i p)).
Proof.
  induction h as [|h IH]; intros n Hn.
  - pose proof (height_pos n). lia.
  - assert (Hnode : forall x p i, (Node.height x <= h)%nat ->
                                  nests c d (visitNode toConstant x p i))
      by (intros x p i Hx; now apply (IH x Hx)).
    assert (Hcode : forall x i p, (Node.height x <= h)%nat ->
                                  nests c d (visitCode toConstant x i p))
      by (intros x i p Hx; now apply (IH x Hx)).
    assert (Hcond : forall x, (Node.height x <= h)%nat ->
                              nests c d (visitConditional toConstant x))
      by (intros x Hx; now apply (IH x Hx)).
    assert (Hfilter : forall x i p, (Node.height x <= h)%nat ->
                                    nests c d (visitFilter toConstant x i p))
      by (intros x i p Hx; now apply (IH x Hx)).
    repeat split; intros.
    + rewrite visitNode_eq. now apply nests_dispatch with (k := h).
    + rewrite visitCode_eq. now apply nests_visitCodeBody with (k := h).
    + rewrite visitConditional_eq.
      now apply nests_visitConditionalBody with (k := h).
    + rewrite visitFilter_eq. now apply nests_visitFilterBody with (k := h).
Qed.

Lemma under_visitFilter (n : Node.t) (inline : bool)
  (parent : option Node.t) (this : Compiler) (a : string) :
  attrs toConstant (Node.attrs n) this = Normal a ->
  Options.indentChar (options this) = c -> (d <= indents this)%Z ->
  under c d (filterBegun n inline a this)
        (stateOf (visitFilter toConstant n inline parent this)).
Proof.
  intros Ha Hc Hd. rewrite visitFilter_eq.
  apply under_visitFilterBody
    with (k := Node.height n) (visitCode := visitCode toConstant)
         (visitConditional := visitConditional toConstant);
    try assumption; try lia.
  all: intros; now apply visitor_nests with (h := Node.height n) (n := x).
Qed.

End VisitorNests.

(** X13.  The lines a visit adds are at the depth of the visit, or deeper.
    Whatever the node and the state of the compiler, when [visit] returns
    or throws the lines are those it found, the last of them maybe longer,
    and then new lines, each of which begins with the indentation of the
    depth at which [visit] was called: what a node writes stays under the
    line of its parent. *)
Theorem visit_nests (toConstant : string -> option jsval)
  (on parent : option Node.t) (i : bool) (this : Compiler) :
  exists s more,
    buf (stateOf (visit (visitNode toConstant) on parent i this))
    = (appendLast s (buf this) ++ more)%list
    /\ Forall (startsAt (Options.indentChar (options this)) (indents this))
              more.
Proof.
  pose (h := match on with Some x => Node.height x | None => O end).
  assert (N : nests (Options.indentChar (options this)) (indents this)
                    (visit (visitNode toConstant) on parent i)).
  { apply nests_visit with (k := h).
    - intros x p j Hx. now apply visitor_nests with (h := h) (n := x).
    - intros x ->. apply le_n. }
  specialize (N this eq_refl (Z.le_refl _)).
  destruct (visit _ _ _ _ _) as [a this'|e this']; cbn [stateOf].
  - apply N.
  - apply N.
Qed.

(** * Filters on filters *)

Section BlamesRules.

Lemma blames_ret {A} (a : A) : blames (ret a).
Proof. intros this this' x E. discriminate. Qed.

Lemma blames_throw {A} (e : exn) : blamed e -> blames (@throw A e).
Proof.
  intros H this this' x E. unfold throw in E. injection E as -> _.
  now apply H.
Qed.

Lemma blames_bind {A B} (m : M A) (f : A -> M B) :
  blames m -> (forall a, blames (f a)) -> blames (bind m f).
Proof.
  intros Hm Hf this this' x E. unfold bind in E.
  destruct (m this) as [a this1|e this1] eqn:Em.
  - exact (Hf a this1 this' x E).
  - apply (Hm this this' x). congruence.
Qed.

Lemma blames_lift {A} (m : completion A) : harmless m -> blames (lift m).
Proof.
  intros H this this' x E. unfold lift in E.
  destruct m as [a|e]; [discriminate|]. injection E as -> _.
  destruct H.
Qed.

Lemma blames_liftR {A} (f : Compiler -> completion A) :
  (forall this, harmless (f this)) -> blames (liftR f).
Proof. intros H this. unfold liftR. apply blames_lift, H. Qed.

Lemma blames_read {A} (f : Compiler -> A) : blames (read f).
Proof. intros this this' x E. discriminate. Qed.

Lemma blames_write (f : Compiler -> Compiler) : blames (write f).
Proof. intros this this' x E. discriminate. Qed.

Lemma blames_buffer (content : option string) : blames (buffer content).
Proof.
  intros this this' x E. unfold buffer in E. destruct content; discriminate.
Qed.

Lemma blames_bufLine (content : option string) (add : option Z) :
  blames (bufLine content add).
Proof. intros this this' x E. discriminate. Qed.

Lemma blames_when (b : bool) (m : M unit) : blames m -> blames (when b m).
Proof. intros H. destruct b; simpl; [assumption|apply blames_ret]. Qed.

Lemma blames_unlessNested (m : M unit) : blames m -> blames (unlessNested m).
Proof.
  intros H. unfold unlessNested. apply blames_bind; [apply blames_read|].
  intros a. now apply blames_when.
Qed.

Lemma blames_forEach {A} (f : A -> M unit) (l : list A) :
  (forall x, In x l -> blames (f x)) -> blames (forEach f l).
Proof.
  induction l as [|x l IH]; intros H; simpl; [apply blames_ret|].
  apply blames_bind; [apply H; now left|].
  intros _. apply IH. intros y Hy. apply H. now right.
Qed.

Lemma blames_visitPipelessText (val : option string) (noEscape : bool) :
  blames (visitPipelessText val noEscape).
Proof.
  intros this this' x E. unfold visitPipelessText, buffer in E.
  destruct val; discriminate.
Qed.

End BlamesRules.

Section HandlersBlame.

Variable toConstant : string -> option jsval.
Variable visitNode : Node.t -> option Node.t -> bool -> M unit.
Variable visitCode : Node.t -> bool -> option Node.t -> M unit.
Variable visitConditional : Node.t -> M unit.
Variable visitFilter : Node.t -> bool -> option Node.t -> M unit.

(** The calls on the children, of height [k] at most, blame malformed
    filters only. *)
Variable k : nat.
Hypothesis blames_visitNode :
  forall x p i, (Node.height x <= k)%nat -> blames (visitNode x p i).
Hypothesis blames_visitCode :
  forall x i p, (Node.height x <= k)%nat -> blames (visitCode x i p).
Hypothesis blames_visitConditional :
  forall x, (Node.height x <= k)%nat -> blames (visitConditional x).
Hypothesis blames_visitFilter :
  forall x i p, (Node.height x <= k)%nat -> blames (visitFilter x i p).

Lemma blames_visit (on parent : option Node.t) (inline : bool) :
  (forall x, on = Some x -> (Node.height x <= k)%nat) ->
  blames (visit visitNode on parent inline).
Proof.
  intros H. unfold visit. destruct on as [x|].
  - apply blames_visitNode. now apply H.
  - now apply blames_throw.
Qed.

Ltac blames_step :=
  first
    [ apply blames_ret
    | apply blames_buffer
    | apply blames_bufLine
    | apply blames_read
    | apply blames_write
    | apply blames_visitPipelessText
    | apply blames_throw; first [exact I | cbn; intros; discriminate]
    | apply blames_lift;
        first [ apply harmless_useDot | apply harmless_attributeBlocks
              | apply harmless_getBlock
              | match goal with
                | |- harmless (match ?p with _ => _ end) =>
                    destruct p; [apply harmless_getBlock|exact I]
                end ]
    | apply blames_liftR; intros ?;
        first [ apply harmless_useColon | apply harmless_attrs ]
    | apply blames_when
    | apply blames_unlessNested
    | apply blames_visit; height_tac
    | apply blames_visitCode; height_tac
    | apply blames_visitConditional; height_tac
    | apply blames_visitFilter; height_tac
    | apply blames_bind; [|intros ?]
    | match goal with
      | |- blames (if ?b then _ else _) => destruct b eqn:?
      | |- blames (match ?x with _ => _ end) => destruct x eqn:?
      | |- blames (let _ := _ in _) => cbv zeta
      end ].

Ltac blames_auto := repeat blames_step.

Lemma blames_visitPipelessTextBlock (block : option Node.t)
  (noEscape : bool) :
  (forall b, block = Some b -> (Node.height b <= S k)%nat) ->
  blames (visitPipelessTextBlock visitNode block noEscape).
Proof.
  intros H. unfold visitPipelessTextBlock.
  apply blames_bind; [blames_auto|]. intros origIndents.
  apply blames_bind; [blames_auto|]. intros _.
  apply blames_bind; [blames_auto|]. intros _.
  apply blames_bind; [|intros _; blames_auto].
  destruct block as [b|] eqn:Eb; [|blames_auto].
  specialize (H b eq_refl).
  destruct (Node.nodes b) as [nodes|] eqn:En; [|blames_auto].
  apply blames_forEach. intros x Hx.
  pose proof (height_nodes b x En Hx).
  blames_auto.
Qed.

Lemma blames_visitBlockEach (block : Node.t) (inline : bool)
  (l : list Node.t) :
  forall prevLine first,
  (forall x, In x l -> (Node.height x <= k)%nat) ->
  blames (visitBlockEach visitNode block inline prevLine first l).
Proof.
  induction l as [|x l IH]; intros prevLine first H; simpl;
    [apply blames_ret|].
  apply blames_bind.
  - apply blames_visitNode. apply H. now left.
  - intros _. apply IH. intros y Hy. apply H. now right.
Qed.

Lemma blames_visitBlock (block : Node.t) (inline : bool)
  (parent : option Node.t) :
  (Node.height block <= S k)%nat ->
  blames (visitBlock visitNode block inline parent).
Proof.
  intros H. unfold visitBlock.
  destruct (Node.yield block); [blames_auto|].
  apply blames_bind; [blames_auto|]. intros dot. destruct dot.
  - apply blames_bind; [blames_auto|]. intros _.
    apply blames_visitPipelessTextBlock. now intros b [= <-].
  - apply blames_bind; [blames_auto|]. intros colon. destruct colon.
    + apply blames_bind; [blames_auto|]. intros _.
      apply blames_bind; [blames_auto|]. intros originalNested.
      apply blames_bind; [blames_auto|]. intros _.
      apply blames_bind; [|intros _; blames_auto].
      destruct (Node.nodes block) as [[|x l]|] eqn:En; blames_auto.
      apply blames_visit. intros y [= <-].
      pose proof (height_nodes block x En (or_introl eq_refl)). lia.
    + apply blames_bind; [blames_auto|]. intros _.
      apply blames_bind; [|intros _; blames_auto].
      destruct (Node.nodes block) as [l|] eqn:En; [|blames_auto].
      apply blames_visitBlockEach. intros x Hx.
      pose proof (height_nodes block x En Hx). lia.
Qed.

Lemma blames_visitFilterBody (filter : Node.t) (inline : bool)
  (parent : option Node.t) :
  (Node.height filter <= S k)%nat ->
  blames (visitFilterBody toConstant visitNode visitFilter
                          filter inline parent).
Proof.
  intros H. unfold visitFilterBody.
  apply blames_bind; [blames_auto|]. intros a.
  apply blames_bind; [blames_auto|]. intros _.
  apply blames_bind; [blames_auto|]. intros _.
  apply blames_bind; [|intros _; blames_auto].
  destruct (Node.block filter) as [b|] eqn:Eb; [|blames_auto].
  destruct (Node.nodes b) as [[|first rest]|] eqn:En;
    [blames_auto| |blames_auto].
  pose proof (height_nodes b first En (or_introl eq_refl)).
  destruct (strIs (Node.type first) "Filter") eqn:Ef.
  - destruct rest as [|second rest]; [blames_auto|].
    apply blames_throw. intros _.
    exists b, first, second, rest. auto.
  - destruct inline.
    + blames_auto.
    + apply blames_visitPipelessTextBlock. height_tac.
Qed.

Lemma blames_dispatch (n : Node.t) (parent : option Node.t)
  (inline : bool) :
  (Node.height n <= S k)%nat ->
  blames (dispatch toConstant visitNode visitCode visitConditional
                   visitFilter n parent inline).
Proof.
  intros H. unfold dispatch.
  repeat match goal with
         | |- blames (if ?b then _ else _) => destruct b
         end.
  all: try (apply blames_throw; exact I).
  all: try (now apply blames_visitFilterBody).
  all: try (now apply blames_visitBlock).
  all: try (apply blames_visitPipelessTextBlock; now intros b [= <-]).
  all: try (unfold visitNamedBlock; apply blames_bind;
            [blames_auto|intros _; now apply blames_visitBlock]).
  all: try (unfold visitBlockComment; apply blames_bind;
            [blames_auto
            |intros _; apply blames_visitPipelessTextBlock; height_tac]).
  all: unfold visitCase, visitWhen, visitMixinBlock, visitDoctype, visitMixin,
         visitChildBlock, visitTag, visitText, visitComment, visitCodeBody,
         visitConditionalBody, visitWhile, visitEach, visitExtends,
         visitFileReference, visitInclude; blames_auto.
Qed.

End HandlersBlame.

Section VisitorBlames.

Variable toConstant : string -> option jsval.

Lemma visitor_blames (h : nat) :
  forall n, (Node.height n <= h)%nat ->
    (forall p i, blames (visitNode toConstant n p i))
    /\ (forall i p, blames (visitCode toConstant n i p))
    /\ blames (visitConditional toConstant n)
    /\ (forall i p, blames (visitFilter toConstant n i p)).
Proof.
  induction h as [|h IH]; intros n Hn.
  - pose proof (height_pos n). lia.
  - assert (Hnode : forall x p i, (Node.height x <= h)%nat ->
                                  blames (visitNode toConstant x p i))
      by (intros x p i Hx; now apply (IH x Hx)).
    assert (Hcode : forall x i p, (Node.height x <= h)%nat ->
                                  blames (visitCode toConstant x i p))
      by (intros x i p Hx; now apply (IH x Hx)).
    assert (Hcond : forall x, (Node.height x <= h)%nat ->
                              blames (visitConditional toConstant x))
      by (intros x Hx; now apply (IH x Hx)).
    assert (Hfilter : forall x i p, (Node.height x <= h)%nat ->
                                    blames (visitFilter toConstant x i p))
      by (intros x i p Hx; now apply (IH x Hx)).
    pose proof (@blames_dispatch toConstant _ _ _ _ h
                  Hnode Hcode Hcond Hfilter) as Hd.
    repeat split; intros.
    + rewrite visitNode_eq. now apply Hd.
    + rewrite visitCode_eq. unfold visitCodeBody.
      pose proof (@blames_visit (visitNode toConstant) h Hnode) as Hv.
      repeat first
        [ apply blames_ret | apply blames_buffer | apply blames_bufLine
        | apply blames_read | apply blames_write
        | apply blames_visitPipelessText
        | apply blames_throw; exact I
        | apply blames_lift;
            first [ apply harmless_getBlock
                  | match goal with
                    | |- harmless (match ?p with _ => _ end) =>
                        destruct p; [apply harmless_getBlock|exact I]
                    end ]
        | apply blames_when
        | apply Hv; height_tac
        | apply blames_bind; [|intros ?]
        | match goal with
          | |- blames (if ?b then _ else _) => destruct b eqn:?
          | |- blames (match ?x with _ => _ end) => destruct x eqn:?
          | |- blames (let _ := _ in _) => cbv zeta
          end ].
    + rewrite visitConditional_eq. unfold visitConditionalBody.
      pose proof (@blames_visit (visitNode toConstant) h Hnode) as Hv.
      repeat first
        [ apply blames_ret | apply blames_bufLine
        | apply blames_throw; exact I
        | apply Hv; height_tac
        | apply Hcond; height_tac
        | apply blames_bind; [|intros ?]
        | match goal with
          | |- blames (if ?b then _ else _) => destruct b eqn:?
          | |- blames (match ?x with _ => _ end) => destruct x eqn:?
          end ].
    + rewrite visitFilter_eq.
      now apply blames_visitFilterBody with (k := h).
Qed.

End VisitorBlames.

Section FilterProperties.

Variable toConstant : string -> option jsval.

Lemma attrsEach_options (this t : Compiler) (st : attrsState) (a : Attr.t) :
  options t = options this ->
  attrsEach toConstant t st a = attrsEach toConstant this st a.
Proof. intros H. unfold attrsEach, quote. now rewrite H. Qed.

Lemma attrs_options (l : option (list Attr.t)) (this t : Compiler) :
  options t = options this ->
  attrs toConstant l t = attrs toConstant l this.
Proof.
  intros H. unfold attrs. destruct l as [l|]; [|reflexivity]. do 2 f_equal.
  generalize (mkAttrsState [] "" None).
  induction l as [|x l IH]; intros st; [reflexivity|].
  cbn [fold_left]. rewrite (@attrsEach_options this t st x H). apply IH.
Qed.

(** A filter whose block is not malformed is never the filter an error
    shows. *)
Lemma visitFilter_not_shown (filter : Node.t) (inline : bool)
  (parent : option Node.t) (this : Compiler) :
  ~ malformedFilter filter ->
  forall msg this',
    visitFilter toConstant filter inline parent this <>
      Throw (ErrorAbout msg filter) this'.
Proof.
  intros Hm msg this' E.
  pose proof (height_pos filter) as Hpos.
  assert (T : tidy (pred (Node.height filter))
                   (visitFilter toConstant filter inline parent)).
  { rewrite visitFilter_eq.
    apply tidy_visitFilterBody with (k := pred (Node.height filter));
      try lia; try tauto.
    - intros x p i Hx. now apply visitor_tidy with (n := x).
    - intros x i p Hx. now apply visitor_tidy with (n := x). }
  eapply tidy_throws in E; [|exact T].
  destruct E as [_ E]. simpl in E. lia.
Qed.

(** A filter on one filter, not inline: the head of the outer filter is
    written, the inner filter is visited with [nested] set, and what the
    inner filter does is what the outer filter does. *)
Lemma visitFilter_chain (filter b inner : Node.t) (parent : option Node.t)
  (this : Compiler) (a : string) :
  attrs toConstant (Node.attrs filter) this = Normal a ->
  Node.block filter = Some b -> Node.nodes b = Some [inner] ->
  strIs (Node.type inner) "Filter" = true ->
  visitFilter toConstant filter false parent this
  = match visitFilter toConstant inner false (Some filter)
            (setNested true (filterBegun filter false a this)) with
    | Ok _ t => Ok tt (setNested (nested this) t)
    | Throw e t => Throw e t
    end.
Proof.
  intros Ha Eb En Ef. rewrite (visitFilter_eq toConstant filter).
  unfold visitFilterBody.
  unfold bind at 1. unfold liftR, lift. rewrite Ha. cbv zeta.
  rewrite Eb, En, Ef. unfold filterBegun.
  unfold bind, when, read, write, ret. cbn [orb andb].
  destruct (nested this) eqn:Hn; cbn [buffer bufLine nested setBuf setNested];
    destruct (visitFilter toConstant inner false (Some filter) _)
      as [[] t|e t]; rewrite ?Hn; reflexivity.
Qed.

(** C8, as the generator has it.  On a filter whose attributes are there,
    [visitFilter] throws the error that shows that filter exactly when its
    block has a filter for its first child and more children; and whatever
    [visitFilter] is called on, an error of that kind shows a filter whose
    own block is so: a filter that is well formed throws it when a filter
    below it is not.  When a filter is the only child and the outer filter
    is not inline, the head of the inner filter, its colon, name and
    attributes, is written right after the head of the outer one, on the
    same line, whatever the attributes, the body of the inner filter and
    [nested]; what follows is added after it; the outer filter returns
    when the inner one does, and no error shows the outer filter.  When
    the first child is no filter, no error shows the filter either,
    whatever stands further down its block. *)
Theorem filter_chain_error (filter : Node.t) (inline : bool)
  (parent : option Node.t) (this : Compiler) :
  Node.attrs filter <> None ->
  (malformedFilter filter <->
   exists this',
     visitFilter toConstant filter inline parent this =
       Throw (ErrorAbout chainError filter) this')
  /\ (forall x this',
        visitFilter toConstant filter inline parent this =
          Throw (ErrorAbout chainError x) this' ->
        malformedFilter x)
  /\ (forall b inner a a',
        Node.block filter = Some b -> Node.nodes b = Some [inner] ->
        strIs (Node.type inner) "Filter" = true ->
        attrs toConstant (Node.attrs filter) this = Normal a ->
        attrs toConstant (Node.attrs inner) this = Normal a' ->
        inline = false ->
        let heads :=
          ":" ++ str (Node.name filter) ++ a
          ++ ":" ++ str (Node.name inner) ++ a' in
        let begun :=
          if nested this then appendLast heads (buf this)
          else (buf this ++ [(indent None this ++ heads)%string])%list in
        (exists s more,
           buf (stateOf (visitFilter toConstant filter inline parent this))
           = (appendLast s begun ++ more)%list)
        /\ (forall t,
              visitFilter toConstant inner false (Some filter)
                (setNested true (filterBegun filter false a this))
              = Ok tt t ->
              visitFilter toConstant filter inline parent this
              = Ok tt (setNested (nested this) t))
        /\ (forall msg this',
              visitFilter toConstant filter inline parent this <>
                Throw (ErrorAbout msg filter) this'))
  /\ (forall b first rest msg this',
        Node.block filter = Some b -> Node.nodes b = Some (first :: rest) ->
        strIs (Node.type first) "Filter" = false ->
        visitFilter toConstant filter inline parent this <>
          Throw (ErrorAbout msg filter) this').
Proof.
  intros Ha.
  split; [split|split; [|split]].
  - intros (b & first & second & rest & Eb & En & Ef).
    destruct (Node.attrs filter) as [l|] eqn:El; [|congruence].
    rewrite visitFilter_eq. unfold visitFilterBody.
    unfold bind, liftR, lift, when, read, attrs. rewrite El, Eb, En, Ef.
    destruct inline; simpl; destruct (nested this); simpl; eauto.
  - intros (this' & E).
    destruct (malformedFilter_dec filter) as [Hm|Hm]; [assumption|].
    exfalso. exact (@visitFilter_not_shown filter inline parent this Hm
                      _ _ E).
  - intros x this' E.
    destruct (@visitor_blames toConstant (Node.height filter) filter
                (Nat.le_refl _)) as (_ & _ & _ & H).
    exact (H inline parent this this' x E).
  - intros b inner a a' Eb En Ef Ea Ea' -> heads begun.
    assert (Hm : ~ malformedFilter filter).
    { intros (b0 & f & s & r & H1 & H2 & _).
      rewrite Eb in H1. injection H1 as <-. congruence. }
    rewrite (@visitFilter_chain filter b inner parent this a Ea Eb En Ef).
    split; [|split].
    + set (t1 := setNested true (filterBegun filter false a this)).
      assert (Ea1 : attrs toConstant (Node.attrs inner) t1 = Normal a').
      { rewrite <- Ea'. apply attrs_options. subst t1. unfold filterBegun.
        cbn. destruct (nested this); reflexivity. }
      pose proof (@under_visitFilter toConstant
                    (Options.indentChar (options t1)) (indents t1)
                    inner false (Some filter) t1 a' Ea1 eq_refl
                    (Z.le_refl _)) as (_ & s & more & E & _).
      exists s, more.
      replace (buf (stateOf match visitFilter toConstant inner false
                                    (Some filter) t1 with
                           | Ok _ t => Ok tt (setNested (nested this) t)
                           | Throw e t => Throw e t
                           end))
        with (buf (stateOf (visitFilter toConstant inner false
                                        (Some filter) t1)))
        by (destruct (visitFilter toConstant inner false (Some filter) t1);
            reflexivity).
      rewrite E. do 2 f_equal. subst t1 begun heads.
      unfold filterBegun. cbn [orb nested setNested buf setBuf].
      destruct (nested this); cbn [buf setBuf nested setNested].
      * rewrite appendLast_twice. now rewrite !append_assoc.
      * rewrite appendLast_snoc. now rewrite !append_assoc.
    + intros t E. now rewrite E.
    + intros msg this' E.
      rewrite <- (@visitFilter_chain filter b inner parent this a
                    Ea Eb En Ef) in E.
      exact (@visitFilter_not_shown filter false parent this Hm _ _ E).
  - intros b first rest msg this' Eb En Ef. apply visitFilter_not_shown.
    intros (b0 & f & s & r & H1 & H2 & H3).
    rewrite Eb in H1. injection H1 as <-. rewrite En in H2.
    injection H2 as <- _. congruence.
Qed.

End FilterProperties.

(** * What the visitor leaves of the tree *)

Section KeepsNodeRules.

Lemma keepsNode_ret {A} (a : A) : keepsNode (ret a).
Proof. intros this. reflexivity. Qed.

Lemma keepsNode_throw {A} (e : exn) : keepsNode (@throw A e).
Proof. intros this. reflexivity. Qed.

Lemma keepsNode_bind {A B} (m : M A) (f : A -> M B) :
  keepsNode m -> (forall a, keepsNode (f a)) -> keepsNode (bind m f).
Proof.
  intros Hm Hf this. unfold bind. specialize (Hm this).
  destruct (m this) as [a this1|e this1]; [|exact Hm].
  cbn [stateOf] in Hm. rewrite <- Hm. apply Hf.
Qed.

Lemma keepsNode_lift {A} (m : completion A) : keepsNode (lift m).
Proof. intros this. unfold lift. destruct m; reflexivity. Qed.

Lemma keepsNode_liftR {A} (f : Compiler -> completion A) :
  keepsNode (liftR f).
Proof. intros this. unfold liftR. apply keepsNode_lift. Qed.

Lemma keepsNode_read {A} (f : Compiler -> A) : keepsNode (read f).
Proof. intros this. reflexivity. Qed.

Lemma keepsNode_write (f : Compiler -> Compiler) :
  (forall this, node (f this) = node this) -> keepsNode (write f).
Proof. intros H this. apply H. Qed.

Lemma keepsNode_object (r : Ref) : keepsNode (object r).
Proof. apply keepsNode_read. Qed.

Lemma keepsNode_objectOf (r : option Ref) : keepsNode (objectOf r).
Proof. intros this. destruct r; reflexivity. Qed.

Lemma keepsNode_buffer (content : option string) :
  keepsNode (buffer content).
Proof. intros this. unfold buffer. destruct content; reflexivity. Qed.

Lemma keepsNode_bufLine (content : option string) (add : option Z) :
  keepsNode (bufLine content add).
Proof. intros this. reflexivity. Qed.

Lemma keepsNode_when (b : bool) (m : M unit) :
  keepsNode m -> keepsNode (when b m).
Proof. intros H. destruct b; simpl; [assumption|apply keepsNode_ret]. Qed.

Lemma keepsNode_unlessNested (m : M unit) :
  keepsNode m -> keepsNode (unlessNested m).
Proof.
  intros H. unfold unlessNested.
  apply keepsNode_bind; [apply keepsNode_read|].
  intros a. now apply keepsNode_when.
Qed.

Lemma keepsNode_forEach {A} (f : A -> M unit) (l : list A) :
  (forall x, keepsNode (f x)) -> keepsNode (forEach f l).
Proof.
  intros H. induction l as [|x l IH]; simpl; [apply keepsNode_ret|].
  apply keepsNode_bind; [apply H|]. intros _. exact IH.
Qed.

Lemma keepsNode_visitPipelessText (val : option string) (noEscape : bool) :
  keepsNode (visitPipelessText val noEscape).
Proof.
  intros this. unfold visitPipelessText, buffer. destruct val; reflexivity.
Qed.

End KeepsNodeRules.

Section HandlersKeepNode.

Variable toConstant : string -> option jsval.
Variable visitNodeAt : Ref -> option Ref -> bool -> M unit.
Variable visitCodeAt : Ref -> bool -> option Ref -> M unit.
Variable visitConditionalAt : Ref -> M unit.
Variable visitFilterAt : Ref -> bool -> option Ref -> M unit.

Hypothesis keepsNode_visitNodeAt :
  forall r p i, keepsNode (visitNodeAt r p i).
Hypothesis keepsNode_visitCodeAt :
  forall r i p, keepsNode (visitCodeAt r i p).
Hypothesis keepsNode_visitConditionalAt :
  forall r, keepsNode (visitConditionalAt r).
Hypothesis keepsNode_visitFilterAt :
  forall r i p, keepsNode (visitFilterAt r i p).

Ltac keepsNode_step :=
  first
    [ apply keepsNode_ret
    | apply keepsNode_buffer
    | apply keepsNode_bufLine
    | apply keepsNode_object
    | apply keepsNode_objectOf
    | apply keepsNode_read
    | apply keepsNode_visitPipelessText
    | apply keepsNode_throw
    | apply keepsNode_lift
    | apply keepsNode_liftR
    | apply keepsNode_write; intros ?; reflexivity
    | apply keepsNode_when
    | apply keepsNode_unlessNested
    | apply keepsNode_visitNodeAt
    | apply keepsNode_visitCodeAt
    | apply keepsNode_visitConditionalAt
    | apply keepsNode_visitFilterAt
    | apply keepsNode_forEach; intros ?
    | apply keepsNode_bind; [|intros ?]
    | match goal with
      | |- keepsNode (if ?b then _ else _) => destruct b
      | |- keepsNode (match ?x with _ => _ end) => destruct x
      | |- keepsNode (let _ := _ in _) => cbv zeta
      end ].

Ltac keepsNode_auto := repeat keepsNode_step.

Lemma keepsNode_visitAt (on parent : option Ref) (inline : bool) :
  keepsNode (visitAt visitNodeAt on parent inline).
Proof. unfold visitAt. keepsNode_auto. Qed.

Lemma keepsNode_visitPipelessTextBlockAt (block : option Ref)
  (noEscape : bool) :
  keepsNode (visitPipelessTextBlockAt visitNodeAt block noEscape).
Proof.
  unfold visitPipelessTextBlockAt. keepsNode_auto.
  all: apply keepsNode_visitAt.
Qed.

Lemma keepsNode_visitBlockEachAt (block : Ref) (inline : bool)
  (l : list Ref) :
  forall prevLine first,
    keepsNode (visitBlockEachAt visitNodeAt block inline prevLine first l).
Proof.
  induction l as [|x l IH]; intros prevLine first; cbn [visitBlockEachAt];
    [apply keepsNode_ret|].
  apply keepsNode_bind; [apply keepsNode_object|]. intros n.
  apply keepsNode_bind; [apply keepsNode_visitAt|]. intros _.
  apply keepsNode_bind; [apply keepsNode_object|]. intros n'. apply IH.
Qed.

Lemma keepsNode_visitBlockAt (block : Ref) (inline : bool)
  (parent : option Ref) :
  keepsNode (visitBlockAt visitNodeAt block inline parent).
Proof.
  unfold visitBlockAt.
  repeat first
    [ apply keepsNode_visitAt
    | apply keepsNode_visitPipelessTextBlockAt
    | apply keepsNode_visitBlockEachAt
    | keepsNode_step ].
Qed.

Lemma keepsNode_visitChildBlockAt (owner : Ref) (first : Node.t)
  (rest : list Node.t) (block : Ref) :
  keepsNode (visitChildBlockAt visitNodeAt owner first rest block).
Proof.
  unfold visitChildBlockAt.
  repeat first [ apply keepsNode_visitAt | keepsNode_step ].
Qed.

Lemma keepsNode_visitCodeBodyAt (r : Ref) (inline : bool)
  (parent : option Ref) :
  keepsNode (visitCodeBodyAt visitNodeAt r inline parent).
Proof.
  unfold visitCodeBodyAt.
  repeat first [ apply keepsNode_visitAt | keepsNode_step ].
Qed.

Lemma keepsNode_visitConditionalBodyAt (r : Ref) :
  keepsNode (visitConditionalBodyAt visitNodeAt visitConditionalAt r).
Proof.
  unfold visitConditionalBodyAt.
  repeat first [ apply keepsNode_visitAt | keepsNode_step ].
Qed.

Lemma keepsNode_visitFilterBodyAt (r : Ref) (inline : bool)
  (parent : option Ref) :
  keepsNode (visitFilterBodyAt toConstant visitNodeAt visitFilterAt
                               r inline parent).
Proof.
  unfold visitFilterBodyAt.
  repeat first
    [ apply keepsNode_visitAt
    | apply keepsNode_visitPipelessTextBlockAt
    | keepsNode_step ].
Qed.

Lemma keepsNode_dispatchAt (r : Ref) (parent : option Ref) (inline : bool) :
  keepsNode (dispatchAt toConstant visitNodeAt visitCodeAt
                        visitConditionalAt visitFilterAt r parent inline).
Proof.
  unfold dispatchAt.
  apply keepsNode_bind; [apply keepsNode_object|]. intros n. cbv zeta.
  repeat match goal with
         | |- keepsNode (if ?b then _ else _) => destruct b
         end.
  all: try apply keepsNode_visitFilterBodyAt.
  all: try apply keepsNode_visitCodeBodyAt.
  all: try apply keepsNode_visitConditionalBodyAt.
  all: try apply keepsNode_visitBlockAt.
  all: try apply keepsNode_visitPipelessTextBlockAt.
  all: unfold visitCaseAt, visitWhenAt, visitNamedBlockAt, visitMixinBlockAt,
         visitDoctypeAt, visitMixinAt, visitTagAt, visitTextAt,
         visitCommentAt, visitBlockCommentAt, visitWhileAt, visitEachAt,
         visitExtendsAt, visitFileReferenceAt, visitIncludeAt.
  all: repeat first
         [ apply keepsNode_visitAt
         | apply keepsNode_visitBlockAt
         | apply keepsNode_visitPipelessTextBlockAt
         | apply keepsNode_visitChildBlockAt
         | keepsNode_step ].
Qed.

End HandlersKeepNode.

Section TreeProperties.

Variable toConstant : string -> option jsval.

Lemma visitor_keepsNode (depth : nat) :
  (forall r p i, keepsNode (visitNodeAt toConstant depth r p i))
  /\ (forall r i p, keepsNode (visitCodeAt toConstant depth r i p))
  /\ (forall r, keepsNode (visitConditionalAt toConstant depth r))
  /\ (forall r i p, keepsNode (visitFilterAt toConstant depth r i p)).
Proof.
  induction depth as [|d (Hn & Hc & Hco & Hf)].
  - repeat split; intros; apply keepsNode_throw.
  - repeat split; intros; cbn [visitNodeAt visitCodeAt visitConditionalAt
                                 visitFilterAt].
    + now apply keepsNode_dispatchAt.
    + now apply keepsNode_visitCodeBodyAt.
    + now apply keepsNode_visitConditionalBodyAt.
    + now apply keepsNode_visitFilterBodyAt.
Qed.

Lemma keepsNode_visit (depth : nat) (on parent : option Ref)
  (i : bool) :
  keepsNode (visitAt (visitNodeAt toConstant depth) on parent i).
Proof. apply keepsNode_visitAt. apply visitor_keepsNode. Qed.

Lemma keepsNode_compileAt (depth : nat) :
  keepsNode (compileAt toConstant depth).
Proof.
  unfold compileAt.
  apply keepsNode_bind; [apply keepsNode_write; reflexivity|]. intros _.
  apply keepsNode_bind; [apply keepsNode_visit|]. intros _.
  apply keepsNode_read.
Qed.

(** The tree that [generateAt] leaves is the one its clean-up wrote. *)
Lemma generateAt_node (depth : nat) (this : Compiler) (n' : Node.t) :
  cleanUpAST (node this) = Normal n' ->
  node (stateOf (generateAt toConstant depth this)) = n'.
Proof.
  intros E. unfold generateAt, normalize, bind. rewrite E.
  apply keepsNode_compileAt.
Qed.

(** The children of a block, once the callback has run over them and the
    walk has cleaned what the callback left: the pieces that stand for the
    children, one after the other. *)
Lemma flatMapC_pieces (f : Node.t -> completion Node.t) (h : nat) :
  (forall x, (Node.height x < h)%nat -> f x = cleanUpAST x) ->
  forall l t l',
    (forall x, In x l -> (Node.height x < h)%nat) ->
    flatMapC f l = Normal t ->
    Forall2 (fun x y => f x = Normal y) t l' ->
    exists ps, Forall2 replacedBy l ps /\ l' = List.concat ps.
Proof.
  intros Hf l. induction l as [|c r IH]; intros t l' Hl E F.
  - injection E as <-. inversion F; subst. exists []. split; constructor.
  - cbn [flatMapC] in E.
    assert (Hc : (Node.height c < h)%nat) by (apply Hl; now left).
    assert (Hr : forall x, In x r -> (Node.height x < h)%nat)
      by (intros x Hx; apply Hl; now right).
    destruct (isNestedBlock c) eqn:Eb.
    + rewrite (Hf c Hc) in E.
      pose proof (cleanUpAST_outcome c) as Hoc.
      destruct (cleanUpAST c) as [c'|e] eqn:Ec; [|discriminate].
      cbn [andThen] in E.
      destruct (Node.nodes c') as [inner|] eqn:En; [|discriminate].
      destruct (flatMapC f r) as [t'|e] eqn:Er; [|discriminate].
      cbn [andThen] in E. injection E as <-.
      apply Forall2_app_inv_l in F.
      destruct F as (inner' & l'' & F1 & F2 & ->).
      destruct Hoc as (Hclean & Hh & _).
      assert (Ei : inner' = inner).
      { apply (Forall2_same f); [|assumption].
        intros x Hx.
        assert (Hxh : (Node.height x < h)%nat)
          by (pose proof (height_nodes c' x En Hx); lia).
        rewrite (Hf x Hxh). unfold cleanUpAST.
        apply cleanUpASTWithin_clean; [lia|].
        apply (@everywhere_child _ c' _ Hclean), children_iff. eauto. }
      subst inner'.
      destruct (IH t' l'' Hr eq_refl F2) as (ps & Fp & ->).
      exists (inner :: ps). split; [|reflexivity].
      constructor; [|assumption].
      exists c'. rewrite Eb. split; [exact Ec|exact En].
    + destruct (flatMapC f r) as [t'|e] eqn:Er; [|discriminate].
      cbn [andThen] in E. injection E as <-.
      inversion F as [|x y lx ly Hxy F2]; subst.
      destruct (IH t' ly Hr eq_refl F2) as (ps & Fp & ->).
      exists ([y] :: ps). split; [|reflexivity].
      constructor; [|assumption].
      exists y. rewrite Eb. split; [|reflexivity].
      now rewrite <- (Hf c Hc).
Qed.

(** The clean-up of a block: each child gives way to its piece, and the
    pieces keep the order of the children. *)
Lemma cleanUpAST_pieces (n n' : Node.t) (l : list Node.t) :
  strIs (Node.type n) "Block" = true ->
  Node.nodes n = Some l ->
  cleanUpAST n = Normal n' ->
  exists ps, Forall2 replacedBy l ps /\ Node.nodes n' = Some (List.concat ps).
Proof.
  intros Et En E.
  set (f := cleanUpASTWithin (Node.height n)).
  assert (Hf : forall x, (Node.height x < Node.height n)%nat ->
                         f x = cleanUpAST x)
    by (intros x Hx; now apply cleanUpASTWithin_enough).
  unfold cleanUpAST in E. simpl in E. fold f in E.
  rewrite flattenBlock_flatMap, Et, En in E.
  destruct (flatMapC f l) as [t|e] eqn:Ef; [|discriminate].
  cbn [andThen] in E.
  set (n1 := Node.with_nodes (Some t) n) in E.
  assert (Hw : forall x, In x (children n1) ->
             match f x with
             | Normal y => f x = Normal y
             | Abrupt e => True
             end)
    by (intros x _; now destruct (f x)).
  pose proof (@walkChildren_outcome f n1 (fun x y => f x = Normal y)
                (fun _ _ => True) Hw) as Ho.
  rewrite E in Ho. destruct Ho as (_ & _ & _ & Hn).
  change (Node.nodes n1) with (Some t) in Hn.
  destruct (Node.nodes n') as [l'|]; [|contradiction].
  destruct (@flatMapC_pieces f (Node.height n) Hf l t l') as (ps & Fp & ->);
    try assumption.
  - intros x Hx. exact (height_nodes n x En Hx).
  - exists ps. split; [assumption|reflexivity].
Qed.

End TreeProperties.

(** * The visitor on the held tree is the visitor on values

    The handlers that take references, run on a compiler that holds the
    tree [t], do what the handlers that take values do on the nodes the
    references name, when the stack has room for the height of the node:
    the same result, the same lines, the same compiler. *)

Lemma resolve_snoc (s : Link) (r : Ref) (t n : Node.t) :
  resolve r t = Some n -> resolve (r ++ [s])%list t = follow s n.
Proof.
  revert t. induction r as [|s' r IH]; intros t H; cbn in *.
  - injection H as ->. now destruct (follow s n).
  - destruct (follow s' t) as [c|]; [|discriminate]. now apply IH.
Qed.

Lemma follow_height (s : Link) (n x : Node.t) :
  follow s n = Some x -> (Node.height x < Node.height n)%nat.
Proof.
  destruct s as [i| | | | | |]; cbn [follow]; intros H.
  - destruct (Node.nodes n) as [l|] eqn:E; [|discriminate].
    apply (height_nodes n x E). now apply nth_error_In with (n := i).
  - now apply height_code.
  - now apply height_block.
  - now apply height_consequent.
  - now apply height_alternate.
  - now apply height_alternative.
  - now apply height_file.
Qed.

Section AgreeRules.

Variable t : Node.t.

Lemma agreeIn_refl {A} (m : M A) : agreeIn t m m.
Proof. intros this _. reflexivity. Qed.

Lemma agreeIn_bind {A B} (m1 m2 : M A) (f1 f2 : A -> M B) :
  agreeIn t m1 m2 -> keepsNode m1 ->
  (forall a, agreeIn t (f1 a) (f2 a)) ->
  agreeIn t (bind m1 f1) (bind m2 f2).
Proof.
  intros Hm Hk Hf this Ht. unfold bind. rewrite <- (Hm this Ht).
  specialize (Hk this).
  destruct (m1 this) as [a this1|e this1]; [|reflexivity].
  apply Hf. cbn [stateOf] in Hk. congruence.
Qed.

Lemma agreeIn_object {A} (r : Ref) (n : Node.t) (f : Node.t -> M A)
  (m : M A) :
  resolve r t = Some n -> agreeIn t (f n) m ->
  agreeIn t (bind (object r) f) m.
Proof.
  intros Hr H this Ht. unfold bind, object, read. rewrite Ht, Hr.
  now apply H.
Qed.

Lemma agreeIn_objectOf {A} (parent : option Ref) (p : option Node.t)
  (f : option Node.t -> M A) (m : M A) :
  parentIn t parent p -> agreeIn t (f p) m ->
  agreeIn t (bind (objectOf parent) f) m.
Proof.
  intros Hp H this Ht.
  destruct parent as [pr|], p as [pn|]; cbn in Hp; try contradiction.
  - unfold objectOf, bind, object, read, ret. rewrite Ht, Hp. now apply H.
  - unfold objectOf, bind, ret. now apply H.
Qed.

Lemma agreeIn_forEach {A B} (R : A -> B -> Prop) (f1 : A -> M unit)
  (f2 : B -> M unit) (l1 : list A) (l2 : list B) :
  Forall2 R l1 l2 ->
  (forall a b, R a b -> agreeIn t (f1 a) (f2 b)) ->
  (forall a, keepsNode (f1 a)) ->
  agreeIn t (forEach f1 l1) (forEach f2 l2).
Proof.
  intros F H K. induction F as [|a b l1 l2 Hab _ IH]; cbn [forEach].
  - apply agreeIn_refl.
  - apply agreeIn_bind; [now apply H|apply K|]. intros _. exact IH.
Qed.

Lemma childIn_held (s : Link) (r : Ref) (n : Node.t) (k : nat) :
  resolve r t = Some n -> (Node.height n <= S k)%nat ->
  childIn t k (held r s (follow s n)) (follow s n).
Proof.
  intros Hr Hh. destruct (follow s n) as [x|] eqn:E; cbn; [|exact I].
  split; [now rewrite (@resolve_snoc s _ _ _ Hr)|].
  pose proof (@follow_height s n x E). lia.
Qed.

Lemma childIn_snoc (s : Link) (r : Ref) (n x : Node.t) (k : nat) :
  resolve r t = Some n -> (Node.height n <= S k)%nat ->
  follow s n = Some x ->
  childIn t k (Some (r ++ [s])%list) (Some x).
Proof.
  intros Hr Hh E. split; [now rewrite (@resolve_snoc s _ _ _ Hr)|].
  pose proof (@follow_height s n x E). lia.
Qed.

(** The references to the elements of an array name its elements, one for
    one. *)
Lemma elements_resolve (br : Ref) (b : Node.t) (nodes : list Node.t) :
  resolve br t = Some b -> Node.nodes b = Some nodes ->
  Forall2 (fun r x => resolve r t = Some x /\ In x nodes)
          (elements br nodes) nodes.
Proof.
  intros Hr Hn. unfold elements.
  assert (G : forall l pre,
             nodes = (pre ++ l)%list ->
             Forall2 (fun r x => resolve r t = Some x /\ In x nodes)
                     (map (fun i => (br ++ [ViaNodes i])%list)
                          (seq (List.length pre) (List.length l))) l).
  { induction l as [|x l IH]; intros pre E; cbn [List.length seq map].
    - constructor.
    - constructor.
      + split.
        * rewrite (@resolve_snoc (ViaNodes (List.length pre)) _ _ _ Hr).
          cbn [follow]. rewrite Hn, E.
          rewrite nth_error_app2 by lia. now rewrite Nat.sub_diag.
        * rewrite E. apply in_app_iff. right. now left.
      + specialize (IH (pre ++ [x])%list).
        rewrite length_app in IH. cbn [List.length] in IH.
        rewrite Nat.add_1_r in IH. apply IH.
        now rewrite <- app_assoc. }
  exact (G nodes [] eq_refl).
Qed.

End AgreeRules.

Section Agreement.

Variable toConstant : string -> option jsval.

Lemma keepsNode_at_node (d : nat) (r : Ref) (p : option Ref) (i : bool) :
  keepsNode (visitNodeAt toConstant d r p i).
Proof. apply visitor_keepsNode. Qed.

Lemma keepsNode_at_code (d : nat) (r : Ref) (i : bool) (p : option Ref) :
  keepsNode (visitCodeAt toConstant d r i p).
Proof. apply visitor_keepsNode. Qed.

Lemma keepsNode_at_conditional (d : nat) (r : Ref) :
  keepsNode (visitConditionalAt toConstant d r).
Proof. apply visitor_keepsNode. Qed.

Lemma keepsNode_at_filter (d : nat) (r : Ref) (i : bool) (p : option Ref) :
  keepsNode (visitFilterAt toConstant d r i p).
Proof. apply visitor_keepsNode. Qed.

Ltac keeps :=
  repeat first
    [ apply keepsNode_ret
    | apply keepsNode_buffer
    | apply keepsNode_bufLine
    | apply keepsNode_object
    | apply keepsNode_objectOf
    | apply keepsNode_read
    | apply keepsNode_visitPipelessText
    | apply keepsNode_throw
    | apply keepsNode_lift
    | apply keepsNode_liftR
    | apply keepsNode_write; intros ?; reflexivity
    | apply keepsNode_when
    | apply keepsNode_unlessNested
    | apply keepsNode_at_node
    | apply keepsNode_at_code
    | apply keepsNode_at_conditional
    | apply keepsNode_at_filter
    | apply keepsNode_visitAt; intros; apply keepsNode_at_node
    | apply keepsNode_visitPipelessTextBlockAt; intros;
      apply keepsNode_at_node
    | apply keepsNode_visitBlockEachAt; intros; apply keepsNode_at_node
    | apply keepsNode_visitBlockAt; intros; apply keepsNode_at_node
    | apply keepsNode_visitChildBlockAt; intros; apply keepsNode_at_node
    | apply keepsNode_forEach; intros ?
    | apply keepsNode_bind; [|intros ?]
    | match goal with
      | |- keepsNode (if ?b then _ else _) => destruct b
      | |- keepsNode (match ?x with _ => _ end) => destruct x
      | |- keepsNode (let _ := _ in _) => cbv zeta
      end ].

Variable t : Node.t.
Variable d : nat.

Hypothesis agree_node :
  forall r n parent p i,
    resolve r t = Some n -> (Node.height n <= d)%nat ->
    parentIn t parent p ->
    agreeIn t (visitNodeAt toConstant d r parent i)
              (visitNode toConstant n p i).
Hypothesis agree_code :
  forall r n parent p i,
    resolve r t = Some n -> (Node.height n <= d)%nat ->
    parentIn t parent p ->
    agreeIn t (visitCodeAt toConstant d r i parent)
              (visitCode toConstant n i p).
Hypothesis agree_conditional :
  forall r n,
    resolve r t = Some n -> (Node.height n <= d)%nat ->
    agreeIn t (visitConditionalAt toConstant d r)
              (visitConditional toConstant n).
Hypothesis agree_filter :
  forall r n parent p i,
    resolve r t = Some n -> (Node.height n <= d)%nat ->
    parentIn t parent p ->
    agreeIn t (visitFilterAt toConstant d r i parent)
              (visitFilter toConstant n i p).

Lemma agree_visit (on : option Ref) (o : option Node.t)
  (parent : option Ref) (p : option Node.t) (i : bool) :
  childIn t d on o -> parentIn t parent p ->
  agreeIn t (visitAt (visitNodeAt toConstant d) on parent i)
            (visit (visitNode toConstant) o p i).
Proof.
  intros Ho Hp. destruct on as [r|], o as [n|]; cbn in Ho;
    try contradiction.
  - destruct Ho as [Hr Hh]. cbn [visitAt visit]. now apply agree_node.
  - unfold visitAt, visit. eapply agreeIn_objectOf; [eassumption|].
    apply agreeIn_refl.
Qed.

Ltac child :=
  first
    [ exact I
    | assumption
    | eapply childIn_held; [eassumption|assumption]
    | eapply childIn_snoc;
      [ eassumption
      | assumption
      | cbn [follow];
        first
          [ eassumption
          | match goal with
            | H : Node.nodes _ = Some _ |- _ => rewrite H; reflexivity
            end ] ] ].

Ltac named :=
  erewrite resolve_snoc by eassumption; cbn [follow]; assumption.

Ltac below :=
  match goal with
  | H : Node.code _ = Some ?x |- (Node.height ?x <= _)%nat =>
      pose proof (@height_code _ _ H); lia
  | H : Node.block _ = Some ?x |- (Node.height ?x <= _)%nat =>
      pose proof (@height_block _ _ H); lia
  | H : Node.consequent _ = Some ?x |- (Node.height ?x <= _)%nat =>
      pose proof (@height_consequent _ _ H); lia
  | H : Node.alternate _ = Some ?x |- (Node.height ?x <= _)%nat =>
      pose proof (@height_alternate _ _ H); lia
  | H : Node.alternative _ = Some ?x |- (Node.height ?x <= _)%nat =>
      pose proof (@height_alternative _ _ H); lia
  | H : Node.file _ = Some ?x |- (Node.height ?x <= _)%nat =>
      pose proof (@height_file _ _ H); lia
  end.

Ltac agree_step :=
  match goal with
  | |- agreeIn _ ?m ?m => apply agreeIn_refl
  | |- agreeIn _ (visitCodeAt _ _ _ _ _) (visitCode _ _ _ _) =>
      apply agree_code;
      [try named|try below|try first [assumption|exact I]]
  | |- agreeIn _ (visitConditionalAt _ _ _) (visitConditional _ _) =>
      apply agree_conditional; [try named|try below]
  | |- agreeIn _ (visitFilterAt _ _ _ _ _) (visitFilter _ _ _ _) =>
      apply agree_filter;
      [try named|try below|try first [assumption|exact I]]
  | |- agreeIn _ (bind (object _) _) _ =>
      eapply agreeIn_object; [eassumption|]; cbv beta
  | |- agreeIn _ (bind (objectOf _) _) _ =>
      eapply agreeIn_objectOf; [eassumption|]; cbv beta
  | |- agreeIn _ (visitAt _ _ _ _) (visit _ _ _ _) =>
      apply agree_visit; [try child|try first [assumption|exact I]]
  | |- agreeIn _ (bind _ _) (bind _ _) =>
      apply agreeIn_bind; [|solve [keeps]|intros ?]
  | |- agreeIn _ (if ?b then _ else _) (if ?b then _ else _) =>
      destruct b eqn:?
  | |- agreeIn _ (match ?x with _ => _ end) (match ?x with _ => _ end) =>
      destruct x eqn:?
  | |- agreeIn _ (let _ := _ in _) _ => cbv zeta
  end.

Ltac agree := repeat agree_step.

Lemma agree_visitCase (r : Ref) (n : Node.t) :
  resolve r t = Some n -> (Node.height n <= S d)%nat ->
  agreeIn t (visitCaseAt (visitNodeAt toConstant d) r)
            (visitCase (visitNode toConstant) n).
Proof.
  intros Hr Hh. unfold visitCaseAt, visitCase. agree.
Qed.

Lemma agree_visitPipelessTextBlock (block : option Ref)
  (bo : option Node.t) (noEscape : bool) :
  childIn t (S d) block bo ->
  agreeIn t (visitPipelessTextBlockAt (visitNodeAt toConstant d) block
                                      noEscape)
            (visitPipelessTextBlock (visitNode toConstant) bo noEscape).
Proof.
  intros Hb. unfold visitPipelessTextBlockAt, visitPipelessTextBlock.
  agree.
  destruct block as [br|], bo as [b|]; cbn in Hb; try contradiction;
    [|apply agreeIn_refl].
  destruct Hb as [Hr Hh]. agree.
  apply agreeIn_forEach
    with (R := fun r x => resolve r t = Some x /\ In x l).
  - now apply elements_resolve with (b := b).
  - intros r x [Hx Hin]. agree.
    split; [assumption|].
    pose proof (@height_nodes b l x ltac:(assumption) Hin). lia.
  - intros r. keeps.
Qed.

Lemma agree_visitWhen (r : Ref) (n : Node.t) :
  resolve r t = Some n -> (Node.height n <= S d)%nat ->
  agreeIn t (visitWhenAt (visitNodeAt toConstant d) r)
            (visitWhen (visitNode toConstant) n).
Proof.
  intros Hr Hh. unfold visitWhenAt, visitWhen. agree.
Qed.

Lemma agree_visitBlockEach (block : Ref) (b : Node.t) (nodes : list Node.t)
  (i : bool) (rs : list Ref) (l : list Node.t) :
  resolve block t = Some b -> (Node.height b <= S d)%nat ->
  Node.nodes b = Some nodes ->
  Forall2 (fun r x => resolve r t = Some x /\ In x nodes) rs l ->
  forall prevLine first,
    agreeIn t (visitBlockEachAt (visitNodeAt toConstant d) block i prevLine
                                first rs)
              (visitBlockEach (visitNode toConstant) b i prevLine first l).
Proof.
  intros Hr Hh Hn F. induction F as [|r x rs l [Hx Hin] _ IH];
    intros prevLine first; cbn [visitBlockEachAt visitBlockEach].
  - apply agreeIn_refl.
  - agree.
    + split; [assumption|].
      pose proof (@height_nodes b nodes x Hn Hin). lia.
    + apply IH.
Qed.

Lemma agree_visitBlock (r : Ref) (n : Node.t) (i : bool)
  (parent : option Ref) (p : option Node.t) :
  resolve r t = Some n -> (Node.height n <= S d)%nat ->
  parentIn t parent p ->
  agreeIn t (visitBlockAt (visitNodeAt toConstant d) r i parent)
            (visitBlock (visitNode toConstant) n i p).
Proof.
  intros Hr Hh Hp. unfold visitBlockAt, visitBlock. agree.
  - apply agree_visitPipelessTextBlock. now split.
  - apply agree_visitBlockEach with (nodes := l); try assumption.
    now apply elements_resolve with (b := n).
Qed.

Lemma agree_visitNamedBlock (r : Ref) (n : Node.t) :
  resolve r t = Some n -> (Node.height n <= S d)%nat ->
  agreeIn t (visitNamedBlockAt (visitNodeAt toConstant d) r)
            (visitNamedBlock (visitNode toConstant) n).
Proof.
  intros Hr Hh. unfold visitNamedBlockAt, visitNamedBlock. agree.
  all: now apply agree_visitBlock.
Qed.

Lemma agree_visitDoctype (r : Ref) (n : Node.t) :
  resolve r t = Some n ->
  agreeIn t (visitDoctypeAt r) (visitDoctype n).
Proof. intros Hr. unfold visitDoctypeAt, visitDoctype. agree. Qed.

Lemma agree_visitChildBlock (owner block : Ref) (o b first : Node.t)
  (rest : list Node.t) :
  resolve owner t = Some o -> resolve block t = Some b ->
  (Node.height b <= d)%nat ->
  agreeIn t (visitChildBlockAt (visitNodeAt toConstant d) owner first rest
                               block)
            (visitChildBlock (visitNode toConstant) o first rest b).
Proof.
  intros Ho Hb Hh. unfold visitChildBlockAt, visitChildBlock. agree.
  all: now split.
Qed.

Ltac child_block Hr :=
  apply agree_visitChildBlock;
  [ assumption
  | rewrite (@resolve_snoc ViaBlock _ _ _ Hr); assumption
  | match goal with
    | H : Node.block _ = Some _ |- _ =>
        pose proof (@height_block _ _ H); lia
    end ].

Lemma agree_visitMixin (r : Ref) (n : Node.t) (i : bool)
  (parent : option Ref) (p : option Node.t) :
  resolve r t = Some n -> (Node.height n <= S d)%nat ->
  agreeIn t (visitMixinAt toConstant (visitNodeAt toConstant d) r i parent)
            (visitMixin toConstant (visitNode toConstant) n i p).
Proof.
  intros Hr Hh. unfold visitMixinAt, visitMixin. agree.
  child_block Hr.
Qed.

Lemma agree_visitTag (r : Ref) (n : Node.t) (i : bool)
  (parent : option Ref) (p : option Node.t) :
  resolve r t = Some n -> (Node.height n <= S d)%nat ->
  agreeIn t (visitTagAt toConstant (visitNodeAt toConstant d)
                        (visitCodeAt toConstant d) r i parent)
            (visitTag toConstant (visitNode toConstant)
                      (visitCode toConstant) n i p).
Proof.
  intros Hr Hh. unfold visitTagAt, visitTag. agree.
  child_block Hr.
Qed.

Lemma agree_visitText (r : Ref) (n : Node.t) (i : bool) :
  resolve r t = Some n ->
  agreeIn t (visitTextAt r i) (visitText n i).
Proof. intros Hr. unfold visitTextAt, visitText. agree. Qed.

Lemma agree_visitComment (r : Ref) (n : Node.t) :
  resolve r t = Some n ->
  agreeIn t (visitCommentAt r) (visitComment n).
Proof. intros Hr. unfold visitCommentAt, visitComment. agree. Qed.

Lemma agree_visitBlockComment (r : Ref) (n : Node.t) :
  resolve r t = Some n -> (Node.height n <= S d)%nat ->
  agreeIn t (visitBlockCommentAt (visitNodeAt toConstant d) r)
            (visitBlockComment (visitNode toConstant) n).
Proof.
  intros Hr Hh. unfold visitBlockCommentAt, visitBlockComment. agree.
  apply agree_visitPipelessTextBlock.
  eapply childIn_held; [eassumption|lia].
Qed.

Lemma agree_visitCodeBody (r : Ref) (n : Node.t) (i : bool)
  (parent : option Ref) (p : option Node.t) :
  resolve r t = Some n -> (Node.height n <= S d)%nat ->
  parentIn t parent p ->
  agreeIn t (visitCodeBodyAt (visitNodeAt toConstant d) r i parent)
            (visitCodeBody (visitNode toConstant) n i p).
Proof.
  intros Hr Hh Hp. unfold visitCodeBodyAt, visitCodeBody. agree.
Qed.

Lemma agree_visitConditionalBody (r : Ref) (n : Node.t) :
  resolve r t = Some n -> (Node.height n <= S d)%nat ->
  agreeIn t (visitConditionalBodyAt (visitNodeAt toConstant d)
                                    (visitConditionalAt toConstant d) r)
            (visitConditionalBody (visitNode toConstant)
                                  (visitConditional toConstant) n).
Proof.
  intros Hr Hh. unfold visitConditionalBodyAt, visitConditionalBody.
  agree.
Qed.

Lemma agree_visitWhile (r : Ref) (n : Node.t) :
  resolve r t = Some n -> (Node.height n <= S d)%nat ->
  agreeIn t (visitWhileAt (visitNodeAt toConstant d) r)
            (visitWhile (visitNode toConstant) n).
Proof. intros Hr Hh. unfold visitWhileAt, visitWhile. agree. Qed.

Lemma agree_visitEach (r : Ref) (n : Node.t) :
  resolve r t = Some n -> (Node.height n <= S d)%nat ->
  agreeIn t (visitEachAt (visitNodeAt toConstant d) r)
            (visitEach (visitNode toConstant) n).
Proof. intros Hr Hh. unfold visitEachAt, visitEach. agree. Qed.

Lemma agree_visitExtends (r : Ref) (n : Node.t) :
  resolve r t = Some n -> (Node.height n <= S d)%nat ->
  agreeIn t (visitExtendsAt (visitNodeAt toConstant d) r)
            (visitExtends (visitNode toConstant) n).
Proof. intros Hr Hh. unfold visitExtendsAt, visitExtends. agree. Qed.

Lemma agree_visitFileReference (r : Ref) (n : Node.t) :
  resolve r t = Some n ->
  agreeIn t (visitFileReferenceAt r) (visitFileReference n).
Proof.
  intros Hr. unfold visitFileReferenceAt, visitFileReference. agree.
Qed.

Lemma agree_visitInclude (r : Ref) (n : Node.t) :
  resolve r t = Some n -> (Node.height n <= S d)%nat ->
  agreeIn t (visitIncludeAt toConstant (visitNodeAt toConstant d) r)
            (visitInclude toConstant (visitNode toConstant) n).
Proof. intros Hr Hh. unfold visitIncludeAt, visitInclude. agree. Qed.

Lemma agree_visitFilterBody (r : Ref) (n : Node.t) (i : bool)
  (parent : option Ref) (p : option Node.t) :
  resolve r t = Some n -> (Node.height n <= S d)%nat ->
  parentIn t parent p ->
  agreeIn t (visitFilterBodyAt toConstant (visitNodeAt toConstant d)
                               (visitFilterAt toConstant d) r i parent)
            (visitFilterBody toConstant (visitNode toConstant)
                             (visitFilter toConstant) n i p).
Proof.
  intros Hr Hh Hp. unfold visitFilterBodyAt, visitFilterBody. agree.
  - change (r ++ [ViaBlock; ViaNodes 0])%list
      with (r ++ [ViaBlock] ++ [ViaNodes 0])%list.
    rewrite app_assoc.
    assert (Hb : resolve (r ++ [ViaBlock])%list t = Some t0) by named.
    rewrite (@resolve_snoc (ViaNodes 0) _ _ _ Hb). cbn [follow].
    match goal with H : Node.nodes t0 = Some _ |- _ => now rewrite H end.
  - match goal with
    | H : Node.nodes t0 = Some _ |- _ =>
        pose proof (@height_nodes t0 _ t1 H ltac:(now left))
    end.
    match goal with
    | H : Node.block n = Some _ |- _ => pose proof (@height_block _ _ H)
    end.
    lia.
  - apply agree_visitPipelessTextBlock. split; [named|].
    match goal with
    | H : Node.block n = Some _ |- _ => pose proof (@height_block _ _ H)
    end.
    lia.
Qed.

Lemma agree_dispatch (r : Ref) (n : Node.t) (i : bool)
  (parent : option Ref) (p : option Node.t) :
  resolve r t = Some n -> (Node.height n <= S d)%nat ->
  parentIn t parent p ->
  agreeIn t (dispatchAt toConstant (visitNodeAt toConstant d)
                        (visitCodeAt toConstant d)
                        (visitConditionalAt toConstant d)
                        (visitFilterAt toConstant d) r parent i)
            (dispatch toConstant (visitNode toConstant)
                      (visitCode toConstant) (visitConditional toConstant)
                      (visitFilter toConstant) n p i).
Proof.
  intros Hr Hh Hp. unfold dispatchAt, dispatch.
  eapply agreeIn_object; [eassumption|]. cbv beta zeta.
  repeat match goal with
         | |- agreeIn _ (if ?b then _ else _) _ => destruct b
         end.
  all: try apply agreeIn_refl.
  - apply agree_visitPipelessTextBlock. now split.
  - now apply agree_visitCase.
  - now apply agree_visitWhen.
  - now apply agree_visitNamedBlock.
  - now apply agree_visitBlock.
  - now apply agree_visitDoctype.
  - now apply agree_visitMixin.
  - now apply agree_visitTag.
  - now apply agree_visitText.
  - now apply agree_visitComment.
  - now apply agree_visitBlockComment.
  - now apply agree_visitCodeBody.
  - now apply agree_visitConditionalBody.
  - now apply agree_visitWhile.
  - now apply agree_visitEach.
  - now apply agree_visitExtends.
  - now apply agree_visitFileReference.
  - now apply agree_visitInclude.
  - now apply agree_visitFilterBody.
  - eapply agreeIn_objectOf; [eassumption|]. apply agreeIn_refl.
Qed.

End Agreement.

Section VisitorAgrees.

Variable toConstant : string -> option jsval.

Lemma visitor_agrees (depth : nat) (t : Node.t) :
  (forall r n parent p i,
      resolve r t = Some n -> (Node.height n <= depth)%nat ->
      parentIn t parent p ->
      agreeIn t (visitNodeAt toConstant depth r parent i)
                (visitNode toConstant n p i))
  /\ (forall r n parent p i,
        resolve r t = Some n -> (Node.height n <= depth)%nat ->
        parentIn t parent p ->
        agreeIn t (visitCodeAt toConstant depth r i parent)
                  (visitCode toConstant n i p))
  /\ (forall r n,
        resolve r t = Some n -> (Node.height n <= depth)%nat ->
        agreeIn t (visitConditionalAt toConstant depth r)
                  (visitConditional toConstant n))
  /\ (forall r n parent p i,
        resolve r t = Some n -> (Node.height n <= depth)%nat ->
        parentIn t parent p ->
        agreeIn t (visitFilterAt toConstant depth r i parent)
                  (visitFilter toConstant n i p)).
Proof.
  induction depth as [|d (Hn & Hc & Hco & Hf)].
  - repeat split; intros r n; intros;
      pose proof (height_pos n); lia.
  - repeat split; intros r n; intros;
      cbn [visitNodeAt visitCodeAt visitConditionalAt visitFilterAt].
    + rewrite visitNode_eq. now apply agree_dispatch.
    + rewrite visitCode_eq. now apply agree_visitCodeBody.
    + rewrite visitConditional_eq. now apply agree_visitConditionalBody.
    + rewrite visitFilter_eq. now apply agree_visitFilterBody.
Qed.

(** The visitor that takes references and the one that takes values do
    the same on a node of the tree that the compiler holds, when the stack
    has room for the height of the node. *)
Theorem visitAt_visit (depth : nat) (r : Ref) (n : Node.t)
  (parent : option Ref) (p : option Node.t) (i : bool) (this : Compiler) :
  resolve r (node this) = Some n ->
  (Node.height n <= depth)%nat ->
  parentIn (node this) parent p ->
  visitAt (visitNodeAt toConstant depth) (Some r) parent i this
  = visit (visitNode toConstant) (Some n) p i this.
Proof.
  intros Hr Hh Hp. cbn [visitAt visit].
  now apply (proj1 (visitor_agrees depth (node this))).
Qed.

(** [compile] is the same in both. *)
Theorem compileAt_compile (depth : nat) (this : Compiler) :
  (Node.height (node this) <= depth)%nat ->
  compileAt toConstant depth this = compile toConstant this.
Proof.
  intros Hh. unfold compileAt, compile, bind, write, read.
  match goal with
  | |- match ?a with _ => _ end = match ?b with _ => _ end =>
      assert (E : a = b)
  end.
  { apply visitAt_visit; [reflexivity|exact Hh|exact I]. }
  now rewrite E.
Qed.

End VisitorAgrees.

(** * The tree is rewritten by [cleanUpAST] only *)

Section TreeRewritten.

Variable toConstant : string -> option jsval.

(** C9.  The visitor rewrites no node of the tree that the compiler
    holds.  The handlers are taken as they read every node through the
    tree the compiler holds at the time of the read, so that a handler
    that wrote a node would show in it; [compile] is then what it is with
    the handlers on values, when the stack has room for the height of the
    tree.  Whatever the tree, the node [on], its parent and the state of
    the compiler, and whether the visit returns or throws: the tree after
    [visit] is the tree before it, and so is every node that a path names
    in it; the same holds of [compile].  The tree is rewritten by the
    clean-up alone: after [cleanUpAST] and [compile] the compiler holds
    the tree that [cleanUpAST] returned.  And [cleanUpAST] keeps the order
    of the children of a block, however many of them are blocks: each
    child that is a block and no [yield] gives way to the children of its
    own clean-up, every other child to its own clean-up, and these stand
    one after the other in the order of the children they stand for. *)
Theorem tree_rewritten_by_cleanUpAST_only (depth : nat)
  (on parent : option Ref) (i : bool) (this : Compiler) :
  let visited :=
    stateOf (visitAt (visitNodeAt toConstant depth) on parent i this) in
  let compiled := stateOf (compileAt toConstant depth this) in
  node visited = node this
  /\ (forall r, resolve r (node visited) = resolve r (node this))
  /\ node compiled = node this
  /\ (forall r, resolve r (node compiled) = resolve r (node this))
  /\ ((Node.height (node this) <= depth)%nat ->
      compileAt toConstant depth this = compile toConstant this)
  /\ (forall n',
        cleanUpAST (node this) = Normal n' ->
        node (stateOf (generateAt toConstant depth this)) = n')
  /\ (forall n n' l,
        strIs (Node.type n) "Block" = true ->
        Node.nodes n = Some l ->
        cleanUpAST n = Normal n' ->
        exists ps,
          Forall2 replacedBy l ps
          /\ Node.nodes n' = Some (List.concat ps)).
Proof.
  cbv zeta.
  pose proof (keepsNode_visit toConstant depth on parent i this) as Hv.
  pose proof (keepsNode_compileAt toConstant depth this) as Hc.
  split; [exact Hv|]. split; [intros r; now rewrite Hv|].
  split; [exact Hc|]. split; [intros r; now rewrite Hc|].
  split; [apply compileAt_compile|].
  split; [intros n'; apply generateAt_node|].
  intros n n' l. apply cleanUpAST_pieces.
Qed.

End TreeRewritten.

(** ** The properties at work on the examples *)

Lemma cleanUpAST_idempotent_witness :
  cleanUpAST nestedBlocks = Normal flattenedBlocks
  /\ cleanUpAST flattenedBlocks = Normal flattenedBlocks
  /\ flat flattenedBlocks = true.
Proof.
  split; [vm_compute; reflexivity|].
  apply (@cleanUpAST_idempotent nestedBlocks flattenedBlocks).
  vm_compute. reflexivity.
Defined.

Lemma quote_selection_witness :
  quote "it's" someCompiler = String DQ "it's" ++ str1 DQ.
Proof.
  destruct (@quote_selection "it's" SQ someCompiler) as (_ & H & _).
  - left. reflexivity.
  - reflexivity.
  - apply H; reflexivity.
Defined.

Lemma attrs_shorthand_order_witness :
  attrs literalConstant (Some mixedAttrs) someCompiler = Normal "#box.a(x=y)"
  /\ attrs literalConstant (Some (rev mixedAttrs)) someCompiler
     = Normal "#box.a(x=y)".
Proof.
  destruct (@attrs_shorthand_order literalConstant someCompiler mixedAttrs
              (boxAttr false)
              (Attr.mk "class" (String DQ "a" ++ str1 DQ) false))
    as [H1 H2]; [vm_compute; reflexivity|vm_compute; reflexivity|].
  split; [exact H1|].
  rewrite (H2 (rev mixedAttrs)); [exact H1|apply Permutation_rev|].
  vm_compute. reflexivity.
Defined.

Lemma box_scenario_witness :
  generateCode literalConstant (boxTag false) Options.default
  = Normal "#box Hi".
Proof.
  apply (@box_scenario literalConstant). vm_compute. reflexivity.
Defined.

(** C4, as the specification has it, fails: the escaped id attribute stays
    between the parentheses, after the name of the tag. *)
Lemma box_scenario_counterexample :
  generateCode literalConstant (boxTag true) Options.default
  = Normal ("div(id=" ++ String DQ "box" ++ String DQ ") Hi")
  /\ generateCode literalConstant (boxTag true) Options.default
     <> Normal "#box Hi".
Proof. split; vm_compute; [reflexivity|discriminate]. Qed.

Lemma useDot_decision_witness :
  useDot (sparseBlock 7 20) None = Normal false
  /\ useDot (sparseBlock 17 50) None = Normal true.
Proof.
  split.
  - destruct (@useDot_decision (sparseBlock 7 20) None
                (match Node.nodes (sparseBlock 7 20) with
                 | Some l => l | None => [] end) eq_refl)
      as (_ & _ & _ & _ & H & _).
    apply H; [|reflexivity|reflexivity|reflexivity].
    split; [discriminate|]. split; [discriminate|reflexivity].
  - destruct (@useDot_decision (sparseBlock 17 50) None
                (match Node.nodes (sparseBlock 17 50) with
                 | Some l => l | None => [] end) eq_refl)
      as (_ & _ & _ & _ & _ & H).
    apply H; [|reflexivity|reflexivity|reflexivity].
    split; [discriminate|]. split; [discriminate|reflexivity].
Defined.

Lemma visit_unsupported_witness :
  visit (visitNode literalConstant) (Some unknownNode) (Some layoutBlock)
        false someCompiler
  = Throw (TypeError ("A child of Block (Jade:7) is of type Unknown,"
                      ++ " which is not supported by jade-source-gen."))
          someCompiler.
Proof.
  apply (@visit_unsupported literalConstant unknownNode (Some layoutBlock)
           false someCompiler).
  vm_compute. reflexivity.
Defined.

(** C7, as the specification has it, fails: the message of the error does
    not name the place of the parent, [layout.jade:3]; it names the place
    of the node. *)
Lemma visit_unsupported_counterexample :
  exists msg,
    visit (visitNode literalConstant) (Some unknownNode) (Some layoutBlock)
          false someCompiler
    = Throw (TypeError msg) someCompiler
    /\ includes (location layoutBlock) msg = false
    /\ includes (location unknownNode) msg = true.
Proof.
  eexists. split; [vm_compute; reflexivity|]. split; vm_compute; reflexivity.
Qed.

Lemma indents_restored_witness :
  let this := mkCompiler Options.default paragraph (-1) false false [] in
  let this' := stateOf (visit (visitNode literalConstant) (Some paragraph)
                              None false this) in
  buf this' = ["p"; "  | Hi"; "  -"; "    a" ++ String NL "    b"; "q"]
  /\ indents this' = indents this.
Proof.
  intros this this'. split; [vm_compute; reflexivity|].
  destruct (@indents_restored literalConstant paragraph None false false
              this this') as (H & _).
  apply H. vm_compute. reflexivity.
Defined.

(** ** The further properties at work on the examples *)

Lemma escapeOpeners_once_witness :
  escapeOpeners "a #{b} \#[c]" = "a \#{b} \#[c]"
  /\ escapeOpeners "a \#{b} \#[c]" = "a \#{b} \#[c]".
Proof.
  destruct (escapeOpeners_once "a \#{b} \#[c]") as (_ & H & _).
  split; [reflexivity|]. apply H. reflexivity.
Defined.

Lemma escapeBareOpeners_doubles_witness :
  escapeBareOpeners "a #{b}" = escapeOpeners "a #{b}"
  /\ escapeBareOpeners "no opener" = "no opener".
Proof.
  destruct (escapeBareOpeners_doubles "a #{b}") as (_ & _ & H1).
  destruct (escapeBareOpeners_doubles "no opener") as (_ & H2 & _).
  split; [apply H1|apply H2]; reflexivity.
Defined.

Lemma attrs_first_id_witness :
  attrs literalConstant (Some twoIds) someCompiler
  = Normal ("#a.c(href=u id!=" ++ String DQ "b" ++ String DQ ")").
Proof.
  exact (@attrs_first_id literalConstant someCompiler []
           [ Attr.mk "href" "u" true;
             Attr.mk "id" (String DQ "b" ++ str1 DQ) false;
             Attr.mk "class" (String DQ "c" ++ str1 DQ) false ]
           (Attr.mk "id" (String DQ "a" ++ str1 DQ) false)
           eq_refl eq_refl).
Defined.

Lemma attrs_no_shorthand_witness :
  attrs literalConstant (Some plainAttrs) someCompiler
  = Normal ("(class=" ++ String DQ "c" ++ String DQ " id!=name)").
Proof.
  apply (@attrs_no_shorthand literalConstant someCompiler plainAttrs).
  constructor; [left; reflexivity|].
  constructor; [right; reflexivity|constructor].
Defined.

Lemma nested_restored_witness :
  let this := mkCompiler Options.default paragraph (-1) false false [] in
  let this' := stateOf (visit (visitNode literalConstant) (Some paragraph)
                              None false this) in
  nested this' = nested this.
Proof.
  intros this this'.
  destruct (@nested_restored literalConstant paragraph None false this)
    as (_ & H & _).
  apply H. vm_compute. reflexivity.
Defined.

Lemma missing_block_witness :
  visit (visitNode literalConstant) (Some bareWhile) None false someCompiler
  = Throw (TypeError
             "A child of While (Jade:4) is undefined, expected a Jade AST Node.")
          (setBuf ["doctype html"; "while x"] someCompiler).
Proof.
  apply (@missing_block literalConstant bareWhile None false someCompiler);
    reflexivity.
Defined.

Lemma missing_file_witness :
  visit (visitNode literalConstant) (Some bareExtends) (Some layoutBlock)
        false someCompiler
  = Throw (TypeError
             "A top-level node is undefined, expected a Jade AST Node.")
          (setBuf ["doctype html"; "extends "] someCompiler).
Proof.
  apply (@missing_file literalConstant bareExtends (Some layoutBlock) false
           someCompiler); reflexivity.
Defined.


Lemma generateCode_cleaned_witness :
  generateCode literalConstant flattenedBlocks Options.default
  = generateCode literalConstant nestedBlocks Options.default.
Proof.
  apply (@generateCode_cleaned literalConstant nestedBlocks flattenedBlocks).
  vm_compute. reflexivity.
Defined.

(** ** Filters on filters, on the examples *)

Lemma filter_chain_error_witness :
  (exists this',
     visitFilter literalConstant mixedFilter false None someCompiler
     = Throw (ErrorAbout chainError mixedFilter) this')
  /\ (exists s more,
        buf (stateOf (visitFilter literalConstant dressedFilters false None
                                  someCompiler))
        = (appendLast s ["doctype html"; ":outer(x=1):inner(y=2)"]
           ++ more)%list).
Proof.
  split.
  - destruct (@filter_chain_error literalConstant mixedFilter false None
                someCompiler) as ((H & _) & _).
    + discriminate.
    + apply H.
      exists (Block (Some 1)
                [Filter (Some 1) "inner" (Block (Some 1) []);
                 Text (Some 2) "x"]),
             (Filter (Some 1) "inner" (Block (Some 1) [])),
             (Text (Some 2) "x"), [].
      repeat split; reflexivity.
  - destruct (@filter_chain_error literalConstant dressedFilters false None
                someCompiler) as (_ & _ & H & _).
    + discriminate.
    + refine (proj1 (H _ _ "(x=1)" "(y=2)" eq_refl eq_refl eq_refl
                       eq_refl eq_refl eq_refl)).
Defined.

(** C8, as the specification has it, fails.  A filter whose block is well
    formed, its only child being a filter, throws the error, which shows
    the filter below it; and two chained filters that are inline come out
    with [#[] before each of them. *)
Lemma filter_chain_error_counterexample :
  ~ malformedFilter wrappedFilter
  /\ (exists this',
        visitFilter literalConstant wrappedFilter false None someCompiler
        = Throw (ErrorAbout chainError mixedFilter) this')
  /\ buf (stateOf (visitFilter literalConstant chainedFilters true None
                               someCompiler))
     = ["doctype html#[:outer#[:inner]"].
Proof.
  split; [|split].
  - intros (b & f & s & r & H1 & H2 & _).
    cbn in H1. injection H1 as <-. discriminate.
  - eexists. vm_compute. reflexivity.
  - vm_compute. reflexivity.
Qed.

Lemma tree_rewritten_by_cleanUpAST_only_witness :
  let this := holding twoNested in
  let flatTree :=
    Block (Some 1)
      [ leaf 1 "a"; leaf 2 "b"; leaf 3 "c"; leaf 4 "d"; leaf 5 "e";
        leaf 6 "f" ] in
  let generated := generateAt literalConstant 9 this in
  buf (stateOf generated) = ["a"; "b"; "c"; "d"; "e"; "f"]
  /\ node (stateOf generated) = flatTree
  /\ node (stateOf generated) <> node this
  /\ compileAt literalConstant 9 this = compile literalConstant this
  /\ exists ps,
       Forall2 replacedBy
         [ leaf 1 "a";
           Block (Some 2) [leaf 2 "b"; Block (Some 3) [leaf 3 "c"]];
           leaf 4 "d";
           Block (Some 5) [leaf 5 "e"];
           leaf 6 "f" ] ps
       /\ Node.nodes flatTree = Some (List.concat ps).
Proof.
  intros this flatTree generated.
  destruct (tree_rewritten_by_cleanUpAST_only literalConstant 9 None None
              false this) as (_ & _ & _ & _ & Hc & Hg & Ho).
  assert (Hf : node (stateOf generated) = flatTree)
    by (apply Hg; vm_compute; reflexivity).
  split; [vm_compute; reflexivity|]. split; [exact Hf|].
  split; [rewrite Hf; discriminate|].
  split; [apply Hc; vm_compute; lia|].
  apply (Ho twoNested flatTree); vm_compute; reflexivity.
Defined.
